(** * gosnmp helper.go: the BER codec, embedded and verified

    A shallow embedding of [helper.go] of gosnmp: the ASN.1 BER length codec,
    the base-128 codec, the integer decoders, the OBJECT IDENTIFIER codec, the
    BIT STRING decoder, [decodeValue] and [parseRawField].

    Conventions of the embedding.
    - A Go [byte] is a [Byte.byte]; [u8] gives its value and [byte_of] is the
      conversion [byte(x)], which keeps the low eight bits.
    - Go's [int] and [uint] are 32 or 64 bits wide depending on the target
      ([int_size]); [int64] and [uint64] are always 64 bits wide.  Machine
      integers are values of [Z], and every operation that can leave the
      range is followed by its wrap-around ([to_int], [to_int64], ...).
    - A Go function returning [(T, error)] returns a pair [T * option error]:
      Go returns both components, and some paths of this file fill both.
    - A run-time panic (index or slice out of range) is the outcome [Panic].
      The buffer handed to an entry point is taken to have no spare capacity
      (cap = len), so re-slicing past its length panics.
    - Calls to the diagnostic sink ([slog], [dumpBytes1]) are left out: they
      only read their arguments. *)

From Stdlib Require Import ZArith List String Ascii Bool Lia.
From Stdlib Require Import Strings.Byte.
Import ListNotations.
Open Scope Z_scope.

(** ** Machine integers *)

(** The width Go gives [int] and [uint] on the target platform. *)
Inductive int_size : Set := Int32 | Int64.

Definition int_bits (a : int_size) : Z :=
  match a with Int32 => 32 | Int64 => 64 end.

(** Two's-complement wrap-around to [w] bits, signed and unsigned. *)
Definition wrap_signed (w x : Z) : Z := (x + 2 ^ (w - 1)) mod 2 ^ w - 2 ^ (w - 1).
Definition wrap_unsigned (w x : Z) : Z := x mod 2 ^ w.

Definition to_int (a : int_size) (x : Z) : Z := wrap_signed (int_bits a) x.
Definition to_uint (a : int_size) (x : Z) : Z := wrap_unsigned (int_bits a) x.
Definition to_int64 (x : Z) : Z := wrap_signed 64 x.
Definition to_uint64 (x : Z) : Z := wrap_unsigned 64 x.
Definition to_uint8 (x : Z) : Z := wrap_unsigned 8 x.

Definition MaxInt64 : Z := 2 ^ 63 - 1.
Definition min_int (a : int_size) : Z := - 2 ^ (int_bits a - 1).
Definition max_int (a : int_size) : Z := 2 ^ (int_bits a - 1) - 1.

(** ** Bytes, slices and strings *)

Definition u8 (b : byte) : Z := Z.of_N (Byte.to_N b).

Definition byte_of (x : Z) : byte :=
  match Byte.of_N (Z.to_N (x mod 256)) with
  | Some b => b
  | None => x00
  end.

Definition bytes_of (l : list Z) : list byte := map byte_of l.

Definition len {A : Type} (l : list A) : Z := Z.of_nat (List.length l).

(** The outcome of a call that may panic.  [OutOfFuel] belongs to the model
    only: a loop whose bound is not syntactic runs on a counter, and
    [OutOfFuel] is what is left when the counter runs out first. *)
Inductive outcome (A : Type) : Type :=
| Panic : outcome A
| OutOfFuel : outcome A
| Return : A -> outcome A.
Arguments Panic {A}.
Arguments OutOfFuel {A}.
Arguments Return {A} _.

Definition bind {A B : Type} (m : outcome A) (k : A -> outcome B) : outcome B :=
  match m with
  | Panic => Panic
  | OutOfFuel => OutOfFuel
  | Return a => k a
  end.

Notation "x <- m ;; k" := (bind m (fun x => k))
  (at level 61, m at next level, right associativity).
Notation "' p <- m ;; k" := (bind m (fun p => k))
  (at level 61, p pattern, m at next level, right associativity).

(** [s[i]]: panics when [i] is not an index of [s]. *)
Definition index {A : Type} (s : list A) (i : Z) : outcome A :=
  if i <? 0 then Panic
  else match nth_error s (Z.to_nat i) with
       | Some x => Return x
       | None => Panic
       end.

(** [s[lo:hi]]: panics unless [0 <= lo <= hi <= len(s)]. *)
Definition slice {A : Type} (s : list A) (lo hi : Z) : outcome (list A) :=
  if (0 <=? lo) && (lo <=? hi) && (hi <=? len s)
  then Return (firstn (Z.to_nat (hi - lo)) (skipn (Z.to_nat lo) s))
  else Panic.

(** [string(b)] for a byte slice [b]. *)
Fixpoint string_of_bytes (l : list byte) : string :=
  match l with
  | [] => EmptyString
  | b :: r => String (ascii_of_byte b) (string_of_bytes r)
  end.

(** ** Errors

    Go errors are formatted messages; each constructor stands for one message
    of [helper.go] (or of the library call it forwards) and carries the values
    the message is formatted from. *)
Inductive error : Type :=
| ErrIntegerTooLarge                        (* "integer too large" *)
| ErrBase128TooLarge                        (* "Structural Error: base 128 integer too large" *)
| ErrBase128Truncated                       (* "Syntax Error: truncated base 128 integer" *)
| ErrZeroLengthBitString                    (* "zero length BIT STRING" *)
| ErrInvalidPadding                         (* "invalid padding bits in BIT STRING" *)
| ErrZeroLengthOID                          (* "zero length OBJECT IDENTIFIER" *)
| ErrInvalidOID                             (* "invalid object identifier" *)
| ErrLengthNegative                         (* "length must be greater than zero" *)
| ErrEOF                                    (* io.EOF, from bytes.Buffer.ReadBytes *)
| ErrAtoi (s : string)                      (* strconv.Atoi: syntax or range error on s *)
| ErrParseOID (e : error)                   (* "Unable to parse OID: %s\n" *)
| ErrMarshalOID (e : error)                 (* "Unable to marshal OID: %s\n" *)
| ErrDecodeBytes (data : list byte) (e : error)  (* "bytes: % x err: %v" *)
| ErrParsingOIDValue (e : error)            (* "Error parsing OID Value: %s" *)
| ErrTypeAssertOID                          (* "unable to type assert rawOid |%v| to []int" *)
| ErrIpNotEnoughData (data : list byte)     (* "not enough data for ipaddress: % x" *)
| ErrIpLength (l : byte)                    (* "got ipaddress len %d, expected 4" *)
| ErrNotImplemented (tag : byte)            (* "Unable to decode %x - not implemented" *)
| ErrUnknownFieldType (tag : byte).         (* "Unknown field type: %x\n" *)

(** ** Integer decoders *)

(** The loop of [parseInt64]: [ret <<= 8; ret |= int64(bytes[bytesRead])]. *)
Fixpoint parseInt64_loop (ret : Z) (bytes : list byte) : Z :=
  match bytes with
  | [] => ret
  | b :: rest => parseInt64_loop (Z.lor (to_int64 (Z.shiftl ret 8)) (u8 b)) rest
  end.

Definition parseInt64 (bytes : list byte) : Z * option error :=
  if 8 <? len bytes then (0, Some ErrIntegerTooLarge)
  else
    let ret := parseInt64_loop 0 bytes in
    (* 64 - uint8(len(bytes))*8, computed on uint8 *)
    let k := to_uint8 (64 - to_uint8 (to_uint8 (len bytes) * 8)) in
    let ret := to_int64 (Z.shiftl ret k) in
    let ret := Z.shiftr ret k in
    (ret, None).

Definition parseInt (a : int_size) (bytes : list byte) : Z * option error :=
  let '(ret64, err) := parseInt64 bytes in
  match err with
  | Some e => (0, Some e)
  | None =>
      if negb (ret64 =? to_int64 (to_int a ret64))
      then (0, Some ErrIntegerTooLarge)
      else (to_int a ret64, None)
  end.

(** The loop of [parseUint64]: [ret <<= 8; ret |= uint64(bytes[bytesRead])]. *)
Fixpoint parseUint64_loop (ret : Z) (bytes : list byte) : Z :=
  match bytes with
  | [] => ret
  | b :: rest => parseUint64_loop (Z.lor (to_uint64 (Z.shiftl ret 8)) (u8 b)) rest
  end.

Definition parseUint64 (bytes : list byte) : Z * option error :=
  if 8 <? len bytes then (0, Some ErrIntegerTooLarge)
  else (parseUint64_loop 0 bytes, None).

Definition parseUint (a : int_size) (bytes : list byte) : Z * option error :=
  let '(ret64, err) := parseUint64 bytes in
  match err with
  | Some e => (0, Some e)
  | None =>
      if negb (ret64 =? to_uint64 (to_uint a ret64))
      then (0, Some ErrIntegerTooLarge)
      else (to_uint a ret64, None)
  end.

(** [uint64ToBigIntDelta], set by [init] to bit 63 of zero. *)
Definition uint64ToBigIntDelta : Z := Z.setbit 0 63.

(** [big.Int] values are unbounded integers. *)
Definition uint64ToBigInt (n : Z) : Z :=
  if n <=? MaxInt64 then to_int64 n
  else
    let y := to_int64 (to_uint64 (to_uint64 (n - MaxInt64) - 1)) in
    y + uint64ToBigIntDelta.

(** ** Length codec *)

(** [binary.Write(buf, binary.LittleEndian, v)] for a [uint64] [v]: its eight
    bytes, least significant first. *)
Definition le_bytes64 (v : Z) : list byte :=
  map (fun i => byte_of (Z.shiftr v (8 * i))) [0; 1; 2; 3; 4; 5; 6; 7].

(** [buf.ReadBytes(delim)] on a buffer holding [buf]: the bytes up to and
    including the first [delim]; without one, everything and [io.EOF]. *)
Fixpoint ReadBytes (buf : list byte) (delim : byte) : list byte * option error :=
  match buf with
  | [] => ([], Some ErrEOF)
  | b :: rest =>
      if Byte.eqb b delim then ([b], None)
      else let '(line, err) := ReadBytes rest delim in (b :: line, err)
  end.

Definition marshalLength (length : Z) : list byte * option error :=
  if length <? 0 then ([], Some ErrLengthNegative)
  else if length <? 127 then ([byte_of length], None)
  else
    let buf := le_bytes64 (to_uint64 length) in
    (* err := binary.Write(...) is nil: a bytes.Buffer takes every write *)
    let '(buf_bytes, err2) := ReadBytes buf x00 in
    match err2 with
    | Some _ => ([], None)                   (* return nil, err -- and err is nil *)
    | None =>
        let buf_bytes := firstn (List.length buf_bytes - 1) buf_bytes in
        let header := [byte_of (Z.lor 128 (len buf_bytes))] in
        (header ++ buf_bytes, None)
    end.

(** The loop of [parseLength], [todo] iterations from index [i]:
    [length <<= 8; length += int(bytes[2+i])]. *)
Fixpoint parseLength_loop (a : int_size) (bytes : list byte) (todo : nat)
    (i length : Z) : outcome Z :=
  match todo with
  | O => Return length
  | S todo' =>
      let length := to_int a (Z.shiftl length 8) in
      b <- index bytes (2 + i) ;;
      parseLength_loop a bytes todo' (i + 1) (to_int a (length + u8 b))
  end.

(** Returns [(length, cursor)]. *)
Definition parseLength (a : int_size) (bytes : list byte) : outcome (Z * Z) :=
  if len bytes <=? 2 then Return (2, 1)
  else
    b1 <- index bytes 1 ;;
    if u8 b1 <=? 127 then Return (u8 b1 + 2, 2)
    else
      let num_octets := Z.land (u8 b1) 127 in
      length <- parseLength_loop a bytes (Z.to_nat num_octets) 0 0 ;;
      Return (to_int a (length + (2 + num_octets)), 2 + num_octets).

(** ** Base-128 codec *)

(** The first loop of [marshalBase128Int]: [for i := n; i > 0; i >>= 7 { l++ }].
    Ten rounds exhaust every positive [int64]. *)
Fixpoint base128_count (fuel : nat) (i l : Z) : Z :=
  match fuel with
  | O => l
  | S fuel' => if 0 <? i then base128_count fuel' (Z.shiftr i 7) (l + 1) else l
  end.

(** The second loop, with [todo = i + 1] rounds left. *)
Fixpoint marshalBase128Int_emit (out : list byte) (n : Z) (todo : nat) : list byte :=
  match todo with
  | O => out
  | S i =>
      let o := u8 (byte_of (Z.shiftr n (Z.of_nat i * 7))) in
      let o := Z.land o 0x7f in
      let o := if negb (Nat.eqb i 0) then Z.lor o 0x80 else o in
      marshalBase128Int_emit (out ++ [byte_of o]) n i
  end.

(** [out] is the content of the buffer; the result is its new content. *)
Definition marshalBase128Int (out : list byte) (n : Z) : list byte * option error :=
  if n =? 0 then (out ++ [x00], None)
  else
    let l := base128_count 10 n 0 in
    (marshalBase128Int_emit out n (Z.to_nat l), None).

(** The loop of [parseBase128Int]; [budget = 5 - shifted]. Returns
    [(ret, offset, err)]. *)
Fixpoint parseBase128Int_loop (a : int_size) (bytes : list byte) (budget : nat)
    (ret offset : Z) : outcome (Z * Z * option error) :=
  if offset <? len bytes then
    match budget with
    | O => Return (ret, offset, Some ErrBase128TooLarge)
    | S budget' =>
        let ret := to_int a (Z.shiftl ret 7) in
        b <- index bytes offset ;;
        let ret := Z.lor ret (Z.land (u8 b) 0x7f) in
        let offset := offset + 1 in
        if Z.land (u8 b) 0x80 =? 0 then Return (ret, offset, None)
        else parseBase128Int_loop a bytes budget' ret offset
    end
  else Return (ret, offset, Some ErrBase128Truncated).

Definition parseBase128Int (a : int_size) (bytes : list byte) (initOffset : Z)
  : outcome (Z * Z * option error) :=
  parseBase128Int_loop a bytes 5 0 initOffset.

(** ** Strings: the library calls of the OID codec *)

Definition is_dot (c : ascii) : bool := Ascii.eqb c "."%char.

(** [strings.TrimLeft(s, ".")] and [strings.TrimRight(s, ".")]. *)
Fixpoint TrimLeft_dot (s : string) : string :=
  match s with
  | EmptyString => EmptyString
  | String c r => if is_dot c then TrimLeft_dot r else s
  end.

Fixpoint TrimRight_dot (s : string) : string :=
  match s with
  | EmptyString => EmptyString
  | String c r =>
      match TrimRight_dot r with
      | EmptyString => if is_dot c then EmptyString else String c EmptyString
      | r' => String c r'
      end
  end.

(** [strings.Trim(s, ".")]. *)
Definition Trim_dot (s : string) : string := TrimRight_dot (TrimLeft_dot s).

(** [strings.Split(s, ".")]: one more part than there are dots. *)
Fixpoint Split_dot (s : string) : list string :=
  match s with
  | EmptyString => [EmptyString]
  | String c r =>
      if is_dot c then EmptyString :: Split_dot r
      else match Split_dot r with
           | p :: ps => String c p :: ps
           | [] => [String c EmptyString]
           end
  end.

Definition is_digit (c : ascii) : bool :=
  (48 <=? Z.of_N (N_of_ascii c)) && (Z.of_N (N_of_ascii c) <=? 57).

Definition digit_value (c : ascii) : Z := Z.of_N (N_of_ascii c) - 48.

Definition digit_char (d : Z) : ascii := ascii_of_N (Z.to_N (48 + d)).

(** The value of a string of decimal digits, [None] on any other character. *)
Fixpoint parse_digits (acc : Z) (s : string) : option Z :=
  match s with
  | EmptyString => Some acc
  | String c r =>
      if is_digit c then parse_digits (acc * 10 + digit_value c) r else None
  end.

(** [strconv.Atoi(s)]: an optional sign and at least one decimal digit, the
    value within [int]; a range error returns the nearest bound. *)
Definition Atoi (a : int_size) (s : string) : Z * option error :=
  let '(neg, body) :=
    match s with
    | String "-"%char r => (true, r)
    | String "+"%char r => (false, r)
    | _ => (false, s)
    end in
  match body with
  | EmptyString => (0, Some (ErrAtoi s))
  | _ =>
      match parse_digits 0 body with
      | None => (0, Some (ErrAtoi s))
      | Some v =>
          let v := if neg then - v else v in
          if v <? min_int a then (min_int a, Some (ErrAtoi s))
          else if max_int a <? v then (max_int a, Some (ErrAtoi s))
          else (v, None)
      end
  end.

(** The decimal digits of [n >= 0] in front of [acc]; [fuel] bounds their
    number. *)
Fixpoint digits_of (fuel : nat) (n : Z) (acc : string) : string :=
  match fuel with
  | O => acc
  | S fuel' =>
      let acc' := String (digit_char (n mod 10)) acc in
      if n <? 10 then acc' else digits_of fuel' (n / 10) acc'
  end.

(** [fmt.Sprintf("%d", n)]. A number has no more decimal digits than bits. *)
Definition itoa (n : Z) : string :=
  if n <? 0
  then String "-"%char (digits_of (S (Z.to_nat (Z.log2 (- n)))) (- n) EmptyString)
  else digits_of (S (Z.to_nat (Z.log2 n))) n EmptyString.

Definition hex_digit (d : Z) : ascii :=
  if d <? 10 then ascii_of_N (Z.to_N (48 + d)) else ascii_of_N (Z.to_N (87 + d)).

(** [fmt.Sprintf("% x", b)]: two hexadecimal digits a byte, a space between. *)
Fixpoint hex_dump (b : list byte) : string :=
  match b with
  | [] => EmptyString
  | x :: rest =>
      let two := String (hex_digit (u8 x / 16)) (String (hex_digit (u8 x mod 16)) EmptyString) in
      match rest with
      | [] => two
      | _ => (two ++ String " "%char (hex_dump rest))%string
      end
  end.

(** ** Object identifier codec *)

(** The loop of [marshalObjectIdentifier] over [oid[2:]]. *)
Fixpoint marshalObjectIdentifier_loop (out : list byte) (rest : list Z)
  : list byte * option error :=
  match rest with
  | [] => (out, None)
  | n :: rest' =>
      let '(out', err) := marshalBase128Int out (to_int64 n) in
      match err with
      | Some e => ([], Some e)
      | None => marshalObjectIdentifier_loop out' rest'
      end
  end.

Definition marshalObjectIdentifier (a : int_size) (oid : list Z)
  : list byte * option error :=
  if (len oid <? 2) || (6 <? nth 0 oid 0) || (40 <=? nth 1 oid 0)
  then ([], Some ErrInvalidOID)
  else
    let out := [byte_of (to_int a (to_int a (nth 0 oid 0 * 40) + nth 1 oid 0))] in
    marshalObjectIdentifier_loop out (skipn 2 oid).

(** The conversion loop of [marshalOID]: [strconv.Atoi] on every part. *)
Fixpoint marshalOID_atoi (a : int_size) (oidParts : list string)
  : list Z * option error :=
  match oidParts with
  | [] => ([], None)
  | p :: rest =>
      let '(v, err) := Atoi a p in
      match err with
      | Some e => ([], Some (ErrParseOID e))
      | None =>
          let '(vs, err') := marshalOID_atoi a rest in
          match err' with
          | Some e => ([], Some e)
          | None => (v :: vs, None)
          end
      end
  end.

Definition marshalOID (a : int_size) (oid : string) : list byte * option error :=
  let oid := Trim_dot oid in
  let oidParts := Split_dot oid in
  let '(oidBytes, err) := marshalOID_atoi a oidParts in
  match err with
  | Some e => ([], Some e)
  | None =>
      let '(mOid, err) := marshalObjectIdentifier a oidBytes in
      match err with
      | Some e => ([], Some (ErrMarshalOID e))
      | None => (mOid, None)
      end
  end.

(** The loop of [oidToString]: [ret = ret + fmt.Sprintf(".%d", i)]. *)
Fixpoint oidToString_loop (ret : string) (oid : list Z) : string :=
  match oid with
  | [] => ret
  | i :: rest => oidToString_loop (ret ++ String "."%char (itoa i))%string rest
  end.

(** [ret[1:]] panics on the empty string. *)
Definition oidToString (oid : list Z) : outcome string :=
  match oidToString_loop EmptyString oid with
  | EmptyString => Panic
  | String _ r => Return r
  end.

(** The loop of [parseObjectIdentifier]; [s] holds the components [s[0:i]]
    found so far.  Every round moves [offset] forward, so [fuel], the number
    of bytes, is never used up (see [parseObjectIdentifier_loop_fuel]).  On an
    error the function returns its whole array of [len(bytes)+1] entries. *)
Fixpoint parseObjectIdentifier_loop (a : int_size) (bytes : list byte) (fuel : nat)
    (s : list Z) (offset : Z) : outcome (list Z * option error) :=
  if offset <? len bytes then
    match fuel with
    | O => OutOfFuel
    | S fuel' =>
        '(v, offset', err) <- parseBase128Int a bytes offset ;;
        match err with
        | Some e =>
            Return (s ++ repeat 0 (S (List.length bytes) - List.length s)%nat, Some e)
        | None => parseObjectIdentifier_loop a bytes fuel' (s ++ [v]) offset'
        end
    end
  else Return (s, None).

Definition parseObjectIdentifier (a : int_size) (bytes : list byte)
  : outcome (list Z * option error) :=
  match bytes with
  | [] => Return ([], Some ErrZeroLengthOID)
  | b0 :: _ =>
      let s := [u8 b0 / 40; u8 b0 mod 40] in
      parseObjectIdentifier_loop a bytes (List.length bytes) s 1
  end.

(** ** Bit strings *)

Record BitStringValue : Type := {
  Bytes : list byte;
  BitLength : Z
}.

Definition parseBitString (a : int_size) (bytes : list byte)
  : BitStringValue * option error :=
  match bytes with
  | [] => ({| Bytes := []; BitLength := 0 |}, Some ErrZeroLengthBitString)
  | b0 :: rest =>
      let paddingBits := u8 b0 in
      let last_byte := u8 (last bytes x00) in
      (* (1<<bytes[0])-1 is computed on bytes *)
      let mask := to_uint8 (to_uint8 (Z.shiftl 1 (u8 b0)) - 1) in
      if (7 <? paddingBits)
         || ((len bytes =? 1) && (0 <? paddingBits))
         || negb (Z.land last_byte mask =? 0)
      then ({| Bytes := []; BitLength := 0 |}, Some ErrInvalidPadding)
      else
        ({| Bytes := rest;
            BitLength := to_int a (to_int a ((len bytes - 1) * 8) - paddingBits) |},
         None)
  end.

(** ** Typed values *)

Definition Asn1BER : Set := byte.

(** Modelled from the spec: the [Asn1BER] tag constants are declared outside
    [helper.go]; the values are the ones the comments of [decodeValue] note
    beside each case and the spec's wire scenarios use. *)
Definition Integer : Asn1BER := x02.
Definition OctetString : Asn1BER := x04.
Definition Null : Asn1BER := x05.
Definition ObjectIdentifier : Asn1BER := x06.
Definition IpAddress : Asn1BER := x40.
Definition Counter32 : Asn1BER := x41.
Definition Gauge32 : Asn1BER := x42.
Definition TimeTicks : Asn1BER := x43.
Definition Counter64 : Asn1BER := x46.
Definition NoSuchObject : Asn1BER := x80.
Definition NoSuchInstance : Asn1BER := x81.

(** What an [interface{}] holds in this file, by dynamic type. *)
Inductive value : Type :=
| VNil                      (* nil *)
| VInt (i : Z)              (* int *)
| VUint (u : Z)             (* uint *)
| VInt64 (i : Z)            (* int64 *)
| VString (s : string)      (* string *)
| VOid (oid : list Z).      (* []int *)

(** Modelled from the spec: the struct [Variable] is declared outside
    [helper.go]; it pairs a type tag with the decoded value (the names
    [Variable] and [Type] of the source are reserved words here). *)
Record VariableT : Type := {
  VType : Asn1BER;
  Value : value
}.

(** [new(Variable)]: the zero tag and a nil value. *)
Definition new_Variable : VariableT := {| VType := x00; Value := VNil |}.

(** Returns [(value, consumed, err)]. *)
Definition parseRawField (a : int_size) (data : list byte) (msg : string)
  : outcome (value * Z * option error) :=
  tag <- index data 0 ;;
  if Byte.eqb tag Integer then
    b1 <- index data 1 ;;
    let length := u8 b1 in
    if length =? 1 then
      b2 <- index data 2 ;;
      Return (VInt (u8 b2), 3, None)
    else
      v <- slice data 2 (2 + length) ;;
      let '(resp, err) := parseUint a v in
      Return (VUint resp, 2 + length, err)
  else if Byte.eqb tag OctetString then
    '(length, cursor) <- parseLength a data ;;
    v <- slice data cursor length ;;
    Return (VString (string_of_bytes v), length, None)
  else if Byte.eqb tag ObjectIdentifier then
    b1 <- index data 1 ;;
    let length := u8 b1 in
    v <- slice data 2 (2 + length) ;;
    '(oid, err) <- parseObjectIdentifier a v ;;
    Return (VOid oid, length + 2, err)
  else
    Return (VNil, 0, Some (ErrUnknownFieldType tag)).

(** The loop of the [IpAddress] case: [ipv4 += fmt.Sprintf(".%d", data[i])]
    for [i] from 2 to 5. *)
Fixpoint ipv4_loop (data : list byte) (todo : nat) (i : Z) (ipv4 : string)
  : outcome string :=
  match todo with
  | O => Return ipv4
  | S todo' =>
      b <- index data i ;;
      ipv4_loop data todo' (i + 1) (ipv4 ++ String "."%char (itoa (u8 b)))%string
  end.

(** The numeric cases share one shape: the value region is cut out and
    handed to [parse]; when [parse] fails the case is left by [break]. *)
Definition decode_numeric (a : int_size) (data : list byte) (retVal : VariableT)
    (parse : list byte -> Z * option error) (tag : Asn1BER) (wrap : Z -> value)
  : outcome (option VariableT * option error) :=
  '(length, cursor) <- parseLength a data ;;
  v <- slice data cursor length ;;
  let '(ret, err) := parse v in
  match err with
  | Some _ => Return (Some retVal, None)
  | None => Return (Some {| VType := tag; Value := wrap ret |}, None)
  end.

(** Returns [(retVal, err)]; [retVal] is a pointer, [None] when nil. *)
Definition decodeValue (a : int_size) (data : list byte) (msg : string)
  : outcome (option VariableT * option error) :=
  let retVal := new_Variable in
  tag <- index data 0 ;;
  if Byte.eqb tag Integer then
    '(length, cursor) <- parseLength a data ;;
    v <- slice data cursor length ;;
    let '(ret, err) := parseInt a v in
    match err with
    | Some e => Return (Some retVal, Some (ErrDecodeBytes data e))
    | None => Return (Some {| VType := Integer; Value := VInt ret |}, None)
    end
  else if Byte.eqb tag OctetString then
    '(length, cursor) <- parseLength a data ;;
    c <- index data cursor ;;
    if (u8 c =? 0) && (length =? 2) then
      Return (Some {| VType := OctetString; Value := VString EmptyString |}, None)
    else if u8 c =? 0 then
      v <- slice data cursor length ;;
      Return (Some {| VType := OctetString; Value := VString (hex_dump v) |}, None)
    else
      v <- slice data cursor length ;;
      Return (Some {| VType := OctetString; Value := VString (string_of_bytes v) |}, None)
  else if Byte.eqb tag Null then
    Return (Some {| VType := Null; Value := VNil |}, None)
  else if Byte.eqb tag ObjectIdentifier then
    '(rawOid, _, err) <- parseRawField a data "OID" ;;
    match err with
    | Some e => Return (None, Some (ErrParsingOIDValue e))
    | None =>
        match rawOid with
        | VOid oid =>
            s <- oidToString oid ;;
            Return (Some {| VType := ObjectIdentifier; Value := VString s |}, None)
        | _ => Return (None, Some ErrTypeAssertOID)
        end
    end
  else if Byte.eqb tag IpAddress then
    if len data <? 6 then Return (None, Some (ErrIpNotEnoughData data))
    else
      b1 <- index data 1 ;;
      if negb (u8 b1 =? 4) then Return (None, Some (ErrIpLength b1))
      else
        ipv4 <- ipv4_loop data 4 2 EmptyString ;;
        match ipv4 with
        | EmptyString => Panic
        | String _ r =>
            Return (Some {| VType := IpAddress; Value := VString r |}, None)
        end
  else if Byte.eqb tag Counter32 then
    decode_numeric a data retVal (parseUint a) Counter32 VUint
  else if Byte.eqb tag Gauge32 then
    decode_numeric a data retVal (parseUint a) Gauge32 VUint
  else if Byte.eqb tag TimeTicks then
    decode_numeric a data retVal (parseInt a) TimeTicks VInt
  else if Byte.eqb tag Counter64 then
    decode_numeric a data retVal parseInt64 Counter64 VInt64
  else if Byte.eqb tag NoSuchObject then
    Return (Some {| VType := NoSuchObject; Value := VNil |}, None)
  else if Byte.eqb tag NoSuchInstance then
    Return (Some {| VType := NoSuchInstance; Value := VNil |}, None)
  else
    Return (Some retVal, Some (ErrNotImplemented tag)).

(** ** Reference notions the statements are phrased with *)

(** The unsigned value of a big-endian byte sequence. *)
Definition be_value (b : list byte) : Z :=
  fold_left (fun acc x => acc * 256 + u8 x) b 0.

(** The value of a big-endian two's-complement byte sequence: with the sign
    bit set, the unsigned value less [2^(8*len)]. *)
Definition twos_complement (b : list byte) : Z :=
  let u := be_value b in
  if (0 <? len b) && (2 ^ (8 * len b - 1) <=? u) then u - 2 ^ (8 * len b) else u.

(** The steps of the unsigned-to-big-integer bridge as the specification
    words them: the signed maximum is subtracted, the remainder is kept as an
    [int64], and [2^63] is added back. *)
Definition bridge_as_described (n : Z) : Z :=
  to_int64 (to_uint64 (n - MaxInt64)) + 2 ^ 63.

(** The base-256 digits of [n], most significant first and without leading
    zeros, in front of [acc]. *)
Fixpoint be_minimal (fuel : nat) (n : Z) (acc : list byte) : list byte :=
  match fuel with
  | O => acc
  | S fuel' =>
      if n =? 0 then acc
      else be_minimal fuel' (n / 256) (byte_of (n mod 256) :: acc)
  end.

(** The length octets as section 4.1 of the specification words them: one
    byte below 127, else the minimal big-endian digits behind a header byte
    with the top bit set and their count in the low seven bits. *)
Definition marshal_length_spec (length : Z) : option (list byte) :=
  if length <? 0 then None
  else if length <? 127 then Some [byte_of length]
  else
    let digits := be_minimal (S (Z.to_nat (Z.log2 length))) length [] in
    Some (byte_of (Z.lor 128 (len digits)) :: digits).

(** The round trip of the length codec read to the letter: [parseLength] runs
    on the length octets followed by [n] zero bytes, the decoded length less
    the header gives [n], and the cursor is where the payload starts. *)
Definition length_round_trip_literal (a : int_size) (n : Z) : Prop :=
  exists hdr length cursor,
    marshalLength n = (hdr, None) /\
    parseLength a (hdr ++ repeat x00 (Z.to_nat n)) = Return (length, cursor) /\
    length - len hdr = n /\ cursor = len hdr.

(** The number of long-form length octets a buffer declares in its second
    byte (none in the short form), and the value those octets spell. *)
Definition declared_octets (bytes : list byte) : Z :=
  match nth_error bytes 1 with
  | Some b1 => if u8 b1 <=? 127 then 0 else Z.land (u8 b1) 127
  | None => 0
  end.

Definition declared_length (bytes : list byte) : Z :=
  match nth_error bytes 1 with
  | Some b1 =>
      if u8 b1 <=? 127 then u8 b1
      else be_value (firstn (Z.to_nat (declared_octets bytes)) (skipn 2 bytes))
  | None => 0
  end.

(** Some padding bit of the last data byte is set: the first byte counts the
    padding bits, the data bytes follow it. *)
Definition padding_bits_nonzero (b : list byte) : Prop :=
  exists b0 data i,
    b = b0 :: data /\ data <> [] /\
    0 <= i < u8 b0 /\ Z.testbit (u8 (last data x00)) i = true.

(** The tags of the four counter-like types and the parser [decodeValue]
    runs on the value region of each. *)
Definition is_counter_tag (tag : Asn1BER) : bool :=
  Byte.eqb tag Counter32 || Byte.eqb tag Gauge32
  || Byte.eqb tag TimeTicks || Byte.eqb tag Counter64.

Definition counter_parse (a : int_size) (tag : Asn1BER) (v : list byte)
  : Z * option error :=
  if Byte.eqb tag Counter32 || Byte.eqb tag Gauge32 then parseUint a v
  else if Byte.eqb tag TimeTicks then parseInt a v
  else parseInt64 v.

(** The 7-bit groups of [n], the most significant of the [todo] groups first,
    every group but the last with its top bit set. *)
Fixpoint base128_groups (n : Z) (todo : nat) : list byte :=
  match todo with
  | O => []
  | S i =>
      byte_of ((Z.shiftr n (7 * Z.of_nat i)) mod 128 + (if Nat.eqb i 0 then 0 else 128))
      :: base128_groups n i
  end.

(** The bytes [marshalBase128Int] adds to a buffer for [n]. *)
Definition base128_bytes (n : Z) : list byte := fst (marshalBase128Int [] n).

(** Strings of decimal digits only, and strings without a dot. *)
Fixpoint all_digits (s : string) : bool :=
  match s with
  | EmptyString => true
  | String c r => is_digit c && all_digits r
  end.

Fixpoint no_dots (s : string) : bool :=
  match s with
  | EmptyString => true
  | String c r => negb (is_dot c) && no_dots r
  end.

(** The dotted-decimal rendering of a sequence: the decimal numbers with a
    single dot between neighbours. *)
Fixpoint dotted (seq : list Z) : string :=
  match seq with
  | [] => EmptyString
  | [n] => itoa n
  | n :: rest => (itoa n ++ String "."%char (dotted rest))%string
  end.

(** The sequences the round trip of the OID codec holds for: two leading
    components that fit the first byte, and further components that are
    non-negative, fit [int] and take at most five base-128 groups. *)
Definition round_trip_oid (a : int_size) (seq : list Z) : Prop :=
  exists s0 s1 rest,
    seq = s0 :: s1 :: rest /\
    0 <= s0 /\ 0 <= s1 < 40 /\ 40 * s0 + s1 <= 255 /\
    Forall (fun n => 0 <= n < 2 ^ 35 /\ n <= max_int a) rest.

(** The whole round trip: string to bytes and back to a string; [None] when a
    stage reports an error. *)
Definition oid_round_trip (a : int_size) (s : string) : outcome (option string) :=
  let '(bytes, err) := marshalOID a s in
  match err with
  | Some _ => Return None
  | None =>
      '(seq, err) <- parseObjectIdentifier a bytes ;;
      match err with
      | Some _ => Return None
      | None => r <- oidToString seq ;; Return (Some r)
      end
  end.

(** ** The remaining helpers of [helper.go] *)

(** Shifts of a [byte] by an unsigned count: the result stays a byte, and a
    count of eight or more leaves nothing. *)
Definition shl_byte (x : byte) (k : Z) : byte :=
  if 8 <=? k then x00 else byte_of (Z.shiftl (u8 x) k).

Definition shr_byte (x : byte) (k : Z) : byte :=
  if 8 <=? k then x00 else byte_of (Z.shiftr (u8 x) k).

(** [uint8(content[1]) | uint8(content[0])<<8]: the shift is a shift of a
    [uint8].  Either index panics on a slice shorter than two bytes, so the
    order of the two reads does not show. *)
Definition parseUint16 (content : list byte) : outcome Z :=
  c1 <- index content 1 ;;
  c0 <- index content 0 ;;
  let number := byte_of (Z.lor (u8 c1) (u8 (shl_byte c0 8))) in
  Return (u8 number).

(** [b.At(i)]. *)
Definition At (a : int_size) (b : BitStringValue) (i : Z) : outcome Z :=
  if (i <? 0) || (BitLength b <=? i) then Return 0
  else
    let x := Z.quot i 8 in
    let y := to_uint a (7 - to_uint a (Z.rem i 8)) in
    byte_x <- index (Bytes b) x ;;
    Return (Z.land (u8 (shr_byte byte_x y)) 1).

(** The loop of [RightAlign] from index 1 on; [prev] is [b.Bytes[i-1]]:
    [a[i] = b.Bytes[i-1] << (8 - shift); a[i] |= b.Bytes[i] >> shift]. *)
Fixpoint RightAlign_loop (a : int_size) (shift : Z) (prev : byte) (rest : list byte)
  : list byte :=
  match rest with
  | [] => []
  | cur :: rest' =>
      byte_of (Z.lor (u8 (shl_byte prev (to_uint a (8 - shift))))
                     (u8 (shr_byte cur shift)))
      :: RightAlign_loop a shift cur rest'
  end.

(** [b.RightAlign()]; Go's [%] truncates towards zero. *)
Definition RightAlign (a : int_size) (b : BitStringValue) : list byte :=
  let shift := to_uint a (8 - Z.rem (BitLength b) 8) in
  if (shift =? 8) || (len (Bytes b) =? 0) then Bytes b
  else
    match Bytes b with
    | [] => []
    | b0 :: rest => shr_byte b0 shift :: RightAlign_loop a shift b0 rest
    end.

(** [subtree_of(parent, child)]: strings are compared byte by byte. *)
Definition subtree_of (parent child : string) : bool :=
  if (String.length child <? String.length parent)%nat then false
  else String.eqb (substring 0 (String.length parent) child) parent.

(** [fmt.Sprintf(" %02x", b)]. *)
Definition hex02 (b : byte) : string :=
  String " "%char
    (String (hex_digit (u8 b / 16)) (String (hex_digit (u8 b mod 16)) EmptyString)).

(** The loop of [dumpBytes2] over [bb[cursor:]], [i] the index reached. *)
Fixpoint dumpBytes2_loop (result : string) (i : Z) (bs : list byte) : string :=
  match bs with
  | [] => result
  | b :: rest =>
      if 30 <? i then result
      else dumpBytes2_loop (result ++ hex02 b)%string (i + 1) rest
  end.

Definition dumpBytes2 (a : int_size) (desc : string) (bb : list byte) (cursor : Z)
  : outcome string :=
  let cursor := to_int a (cursor - 4) in
  let cursor := if cursor <? 0 then 0 else cursor in
  tail <- slice bb cursor (len bb) ;;
  Return (dumpBytes2_loop desc 0 tail).

(** ** Further reference notions *)

(** A byte has its top bit set: in base 128, more groups follow. *)
Definition continues (b : byte) : bool := 128 <=? u8 b.

(** A whole field with a short-form length: the tag, one length byte equal
    to the size of the value, the value, and whatever follows. *)
Definition short_field (tag : byte) (value rest : list byte) : list byte :=
  tag :: byte_of (len value) :: value ++ rest.

(** Bit [i] of a byte sequence, counted from the most significant bit of the
    first byte. *)
Definition bit_msb_first (bs : list byte) (i : Z) : Z :=
  if Z.testbit (u8 (nth (Z.to_nat (i / 8)) bs x00)) (7 - i mod 8) then 1 else 0.

(** The tags [decodeValue] has a case for, and those [parseRawField] has. *)
Definition decoded_tags : list Asn1BER :=
  [Integer; OctetString; Null; ObjectIdentifier; IpAddress; Counter32; Gauge32;
   TimeTicks; Counter64; NoSuchObject; NoSuchInstance].

Definition raw_tags : list Asn1BER := [Integer; OctetString; ObjectIdentifier].

(** The base-128 encoding as section 4.2 of the specification words it: zero
    is a single zero byte; any other non-negative number is split into its
    7-bit groups, as many as it has, the most significant first, every group
    but the last with its top bit set. *)
Definition base128_encoding (n : Z) : list byte :=
  if n =? 0 then [x00]
  else base128_groups n (Z.to_nat (Z.log2 n / 7 + 1)).

(** The dump format of [dumpBytes2]: for each byte a space and its two
    hexadecimal digits. *)
Fixpoint spaced_hex (bs : list byte) : string :=
  match bs with
  | [] => EmptyString
  | b :: rest => (hex02 b ++ spaced_hex rest)%string
  end.

(** * Proofs *)

(** * Bytes *)

Lemma u8_range (b : byte) : 0 <= u8 b < 256.
Proof.
  unfold u8. pose proof (Byte.to_N_bounded b). lia.
Qed.

Lemma u8_byte_of (z : Z) : u8 (byte_of z) = z mod 256.
Proof.
  unfold byte_of, u8.
  assert (Hm : 0 <= z mod 256 < 256) by (apply Z.mod_pos_bound; lia).
  destruct (Byte.of_N (Z.to_N (z mod 256))) as [b|] eqn:E.
  - apply Byte.to_of_N in E. rewrite E. apply Z2N.id. lia.
  - apply Byte.of_N_None_iff in E. lia.
Qed.

Lemma byte_of_u8 (b : byte) : byte_of (u8 b) = b.
Proof.
  unfold byte_of. pose proof (u8_range b) as Hr.
  rewrite Z.mod_small by exact Hr.
  unfold u8. rewrite N2Z.id, Byte.of_to_N. reflexivity.
Qed.

Lemma u8_inj (x y : byte) : u8 x = u8 y -> x = y.
Proof.
  intros H. rewrite <- (byte_of_u8 x), <- (byte_of_u8 y), H. reflexivity.
Qed.

Lemma byte_of_small (z : Z) : 0 <= z < 256 -> u8 (byte_of z) = z.
Proof.
  intros H. rewrite u8_byte_of. apply Z.mod_small. exact H.
Qed.

(** * Wrap-around *)

Lemma wrap_signed_range (w x : Z) :
  0 < w -> - 2 ^ (w - 1) <= wrap_signed w x < 2 ^ (w - 1).
Proof.
  intros Hw. unfold wrap_signed.
  assert (Hp : 2 ^ w = 2 * 2 ^ (w - 1)).
  { replace w with (Z.succ (w - 1)) at 1 by lia. apply Z.pow_succ_r. lia. }
  assert (0 < 2 ^ (w - 1)) by (apply Z.pow_pos_nonneg; lia).
  pose proof (Z.mod_pos_bound (x + 2 ^ (w - 1)) (2 ^ w)). lia.
Qed.

Lemma wrap_signed_small (w x : Z) :
  0 < w -> - 2 ^ (w - 1) <= x < 2 ^ (w - 1) -> wrap_signed w x = x.
Proof.
  intros Hw Hx. unfold wrap_signed.
  assert (Hp : 2 ^ w = 2 * 2 ^ (w - 1)).
  { replace w with (Z.succ (w - 1)) at 1 by lia. apply Z.pow_succ_r. lia. }
  rewrite Z.mod_small by lia. lia.
Qed.

Lemma wrap_signed_eqm (w x y : Z) :
  x mod 2 ^ w = y mod 2 ^ w -> wrap_signed w x = wrap_signed w y.
Proof.
  intros H. unfold wrap_signed.
  rewrite <- (Zplus_mod_idemp_l x), H, Zplus_mod_idemp_l. reflexivity.
Qed.

Lemma wrap_signed_mod (w x : Z) :
  0 < w -> wrap_signed w x mod 2 ^ w = x mod 2 ^ w.
Proof.
  intros Hw. unfold wrap_signed.
  assert (Hp : 2 ^ w = 2 * 2 ^ (w - 1)).
  { replace w with (Z.succ (w - 1)) at 1 by lia. apply Z.pow_succ_r. lia. }
  assert (0 < 2 ^ (w - 1)) by (apply Z.pow_pos_nonneg; lia).
  rewrite Zminus_mod_idemp_l. f_equal. lia.
Qed.

Lemma wrap_signed_idem_add (w x y : Z) :
  0 < w -> wrap_signed w (wrap_signed w x + y) = wrap_signed w (x + y).
Proof.
  intros Hw. apply wrap_signed_eqm.
  rewrite <- Zplus_mod_idemp_l, wrap_signed_mod, Zplus_mod_idemp_l by exact Hw.
  reflexivity.
Qed.

Lemma wrap_signed_idem_mul (w x y : Z) :
  0 < w -> wrap_signed w (wrap_signed w x * y) = wrap_signed w (x * y).
Proof.
  intros Hw. apply wrap_signed_eqm.
  rewrite <- Zmult_mod_idemp_l, wrap_signed_mod, Zmult_mod_idemp_l by exact Hw.
  reflexivity.
Qed.

(** [x | b] adds [b] when the low [k] bits of [x] are clear and [b] fits
    them. *)
Lemma lor_low_bits (x b k : Z) :
  0 <= k -> x mod 2 ^ k = 0 -> 0 <= b < 2 ^ k -> Z.lor x b = x + b.
Proof.
  intros Hk Hx Hb.
  assert (Hland : Z.land x b = 0).
  { apply Z.bits_inj'. intros n Hn. rewrite Z.land_spec, Z.bits_0.
    destruct (Z.ltb_spec n k).
    - replace (Z.testbit x n) with false; [reflexivity|].
      symmetry. rewrite <- (Z.mod_pow2_bits_low x k n) by lia.
      rewrite Hx. apply Z.bits_0.
    - replace (Z.testbit b n) with false; [apply andb_false_r|].
      symmetry. destruct (Z.eq_dec b 0) as [->|]; [apply Z.bits_0|].
      apply Z.bits_above_log2; [lia|].
      assert (Z.log2 b < k) by (apply Z.log2_lt_pow2; lia). lia. }
  pose proof (Z.add_lor_land x b). lia.
Qed.

(** * Big-endian values *)

Lemma be_fold_shift (l : list byte) (c : Z) :
  fold_left (fun acc x => acc * 256 + u8 x) l c
  = c * 256 ^ len l + fold_left (fun acc x => acc * 256 + u8 x) l 0.
Proof.
  revert c. induction l as [|x l IH]; intros c.
  - cbn. lia.
  - cbn [fold_left]. rewrite IH. rewrite (IH (0 * 256 + u8 x)).
    unfold len. cbn [List.length]. rewrite Nat2Z.inj_succ, Z.pow_succ_r by lia.
    ring.
Qed.

Lemma be_value_cons (x : byte) (l : list byte) :
  be_value (x :: l) = u8 x * 256 ^ len l + be_value l.
Proof.
  unfold be_value. cbn [fold_left]. rewrite be_fold_shift. f_equal.
Qed.

Lemma be_value_range (l : list byte) : 0 <= be_value l < 256 ^ len l.
Proof.
  induction l as [|x l IH].
  - cbn. lia.
  - rewrite be_value_cons. pose proof (u8_range x).
    unfold len in *. cbn [List.length]. rewrite Nat2Z.inj_succ, Z.pow_succ_r by lia.
    nia.
Qed.

Lemma len_nonneg {A : Type} (l : list A) : 0 <= len l.
Proof. unfold len. lia. Qed.

Lemma len_cons {A : Type} (x : A) (l : list A) : len (x :: l) = len l + 1.
Proof. unfold len. cbn [List.length]. lia. Qed.

Lemma len_app {A : Type} (l1 l2 : list A) : len (l1 ++ l2) = len l1 + len l2.
Proof. unfold len. rewrite length_app. lia. Qed.

(** * The signed decoder *)

Lemma parseInt64_step (r : Z) (x : byte) :
  Z.lor (to_int64 (Z.shiftl r 8)) (u8 x) = to_int64 (r * 256 + u8 x).
Proof.
  pose proof (u8_range x) as Hx.
  rewrite Z.shiftl_mul_pow2 by lia. change (2 ^ 8) with 256.
  assert (Hm : to_int64 (r * 256) mod 256 = 0).
  { unfold to_int64.
    pose proof (wrap_signed_mod 64 (r * 256) ltac:(lia)) as H.
    change (2 ^ 64) with (256 * 2 ^ 56) in H.
    assert (Hd : forall y, (y mod (256 * 2 ^ 56)) mod 256 = y mod 256).
    { intros y. apply Z.mod_mod_divide. exists (2 ^ 56). lia. }
    rewrite <- Hd, H, Hd. apply Z.mod_mul. lia. }
  rewrite (lor_low_bits _ _ 8) by (try assumption; lia).
  pose proof (wrap_signed_range 64 (r * 256) ltac:(lia)) as Hr.
  fold (to_int64 (r * 256)) in Hr. change (2 ^ (64 - 1)) with (2 ^ 63) in Hr.
  assert (Hle : to_int64 (r * 256) <= 2 ^ 63 - 256).
  { apply Z.mod_divide in Hm; [|lia]. destruct Hm as [q Hq].
    rewrite Hq in *. change (2 ^ 63) with (2 ^ 55 * 256) in *. nia. }
  rewrite <- (wrap_signed_small 64 (to_int64 (r * 256) + u8 x)) by
    (change (2 ^ (64 - 1)) with (2 ^ 63); lia).
  unfold to_int64. apply wrap_signed_idem_add. lia.
Qed.

Lemma parseInt64_loop_value (l : list byte) (r : Z) :
  to_int64 r = r ->
  parseInt64_loop r l = to_int64 (fold_left (fun acc x => acc * 256 + u8 x) l r).
Proof.
  revert r. induction l as [|x l IH]; intros r Hr.
  - cbn. symmetry. exact Hr.
  - cbn [parseInt64_loop fold_left]. rewrite parseInt64_step.
    rewrite IH.
    + rewrite be_fold_shift. rewrite (be_fold_shift l (r * 256 + u8 x)).
      unfold to_int64. apply wrap_signed_eqm.
      rewrite <- Zplus_mod_idemp_l, <- Zmult_mod_idemp_l.
      rewrite wrap_signed_mod by lia.
      rewrite Zmult_mod_idemp_l, Zplus_mod_idemp_l. reflexivity.
    + unfold to_int64. apply wrap_signed_small; [lia|].
      apply wrap_signed_range. lia.
Qed.

Lemma parseInt64_loop_be (l : list byte) :
  parseInt64_loop 0 l = to_int64 (be_value l).
Proof.
  apply parseInt64_loop_value. reflexivity.
Qed.

(** [parseInt64] accepts up to eight bytes and returns their two's-complement
    value. *)
Lemma parseInt64_value (b : list byte) :
  len b <= 8 -> parseInt64 b = (twos_complement b, None).
Proof.
  intros Hlen. unfold parseInt64.
  destruct (Z.ltb_spec 8 (len b)) as [|_]; [lia|].
  rewrite parseInt64_loop_be. f_equal.
  pose proof (be_value_range b) as Hu. pose proof (len_nonneg b) as Hn.
  unfold twos_complement.
  set (u := be_value b) in *. set (n := len b) in *.
  assert (Hk : to_uint8 (64 - to_uint8 (to_uint8 n * 8)) = 64 - 8 * n).
  { unfold to_uint8, wrap_unsigned. change (2 ^ 8) with 256.
    rewrite (Z.mod_small n) by lia. rewrite (Z.mod_small (n * 8)) by lia.
    rewrite Z.mod_small by lia. lia. }
  rewrite Hk.
  rewrite Z.shiftl_mul_pow2, Z.shiftr_div_pow2 by lia.
  unfold to_int64 at 2. fold (to_int64 (to_int64 u * 2 ^ (64 - 8 * n))).
  unfold to_int64. rewrite wrap_signed_idem_mul by lia.
  assert (Hcases : n = 0 \/ n = 1 \/ n = 2 \/ n = 3 \/ n = 4 \/ n = 5 \/ n = 6 \/ n = 7 \/ n = 8) by lia.
  unfold wrap_signed.
  destruct Hcases as [E|[E|[E|[E|[E|[E|[E|[E|E]]]]]]]]; rewrite E in *; clear E;
    change (0 <? 0) with false; cbn [andb];
    try match goal with |- context [0 <? ?k] => change (0 <? k) with true end;
    cbn [andb];
    try match goal with |- context [?p <=? u] => destruct (Z.leb_spec p u) end;
    Z.div_mod_to_equations; lia.
Qed.

Lemma twos_complement_range (b : list byte) :
  len b <= 8 -> - 2 ^ 63 <= twos_complement b < 2 ^ 63.
Proof.
  intros Hlen. pose proof (parseInt64_value b Hlen) as H.
  unfold parseInt64 in H.
  destruct (Z.ltb_spec 8 (len b)) as [|_]; [lia|].
  injection H as H. rewrite <- H.
  rewrite Z.shiftr_div_pow2.
  2:{ unfold to_uint8, wrap_unsigned. apply Z.mod_pos_bound. lia. }
  match goal with |- _ <= to_int64 ?x / 2 ^ ?k < _ =>
    pose proof (wrap_signed_range 64 x ltac:(lia)) as Hr;
    fold (to_int64 x) in Hr; set (y := to_int64 x) in *;
    assert (Hk : 0 <= k) by (unfold to_uint8, wrap_unsigned; apply Z.mod_pos_bound; lia);
    set (k' := k) in *
  end.
  change (2 ^ (64 - 1)) with (2 ^ 63) in Hr.
  assert (Hp : 0 < 2 ^ k') by (apply Z.pow_pos_nonneg; lia).
  split.
  - apply Z.div_le_lower_bound; [lia|]. nia.
  - apply Z.div_lt_upper_bound; [lia|]. nia.
Qed.

Lemma to_int64_to_int (a : int_size) (x : Z) : to_int64 (to_int a x) = to_int a x.
Proof.
  unfold to_int64, to_int. apply wrap_signed_small; [lia|].
  pose proof (wrap_signed_range (int_bits a) x) as H.
  destruct a; cbn [int_bits] in *; specialize (H ltac:(lia)); lia.
Qed.

(** C3, as amended: on up to eight bytes [parseInt] fails with "integer too
    large" exactly when the two's-complement value of the bytes does not
    survive the conversion to the platform's [int], and returns that value
    otherwise.  With a 32-bit [int] this is the round trip through a 32-bit
    signed container; with a 64-bit [int] the conversion never loses anything
    and [parseInt] never fails. *)
Theorem parseInt_fails_iff_int_conversion_loses (a : int_size) (b : list byte) :
  len b <= 8 ->
  parseInt a b =
    (if to_int a (twos_complement b) =? twos_complement b
     then (twos_complement b, None)
     else (0, Some ErrIntegerTooLarge))
  /\ (a = Int32 -> to_int a (twos_complement b) = wrap_signed 32 (twos_complement b))
  /\ (a = Int64 -> parseInt a b = (twos_complement b, None)).
Proof.
  intros Hlen.
  assert (Hmain : parseInt a b =
    (if to_int a (twos_complement b) =? twos_complement b
     then (twos_complement b, None)
     else (0, Some ErrIntegerTooLarge))).
  { unfold parseInt. rewrite (parseInt64_value b Hlen).
    rewrite to_int64_to_int. rewrite Z.eqb_sym.
    destruct (Z.eqb_spec (to_int a (twos_complement b)) (twos_complement b)) as [E|E];
      cbn [negb]; [rewrite E|]; reflexivity. }
  split; [exact Hmain|]. split.
  - intros ->. reflexivity.
  - intros ->. rewrite Hmain.
    pose proof (twos_complement_range b Hlen) as Hr.
    unfold to_int. cbn [int_bits].
    rewrite wrap_signed_small by (change (2 ^ (64 - 1)) with (2 ^ 63); lia).
    rewrite Z.eqb_refl. reflexivity.
Qed.

Lemma parseInt_fails_iff_int_conversion_loses_witness :
  len (bytes_of [0x7f; 0xff; 0xff; 0xff; 0xff]) <= 8 /\
  parseInt Int32 (bytes_of [0x7f; 0xff; 0xff; 0xff; 0xff]) = (0, Some ErrIntegerTooLarge) /\
  parseInt Int32 (bytes_of [0xff; 0xfe]) = (-2, None).
Proof.
  split; [vm_compute; discriminate|]. split.
  - destruct (parseInt_fails_iff_int_conversion_loses Int32
                (bytes_of [0x7f; 0xff; 0xff; 0xff; 0xff])) as [H _].
    + vm_compute. discriminate.
    + rewrite H. vm_compute. reflexivity.
  - destruct (parseInt_fails_iff_int_conversion_loses Int32 (bytes_of [0xff; 0xfe])) as [H _].
    + vm_compute. discriminate.
    + rewrite H. vm_compute. reflexivity.
Defined.

(** C3, as stated, fails where [int] has 64 bits: five bytes spelling
    [2^39 - 1] do not fit a 32-bit signed container, and [parseInt] returns
    the value without an error. *)
Lemma parseInt_keeps_40_bit_value_on_int64 :
  len (bytes_of [0x7f; 0xff; 0xff; 0xff; 0xff]) <= 8 /\
  twos_complement (bytes_of [0x7f; 0xff; 0xff; 0xff; 0xff]) = 549755813887 /\
  wrap_signed 32 549755813887 <> 549755813887 /\
  parseInt Int64 (bytes_of [0x7f; 0xff; 0xff; 0xff; 0xff]) = (549755813887, None).
Proof.
  split; [vm_compute; discriminate|]. split; [reflexivity|]. split.
  - vm_compute. discriminate.
  - vm_compute. reflexivity.
Qed.

(** * The unsigned-to-big-integer bridge *)

Lemma uint64ToBigIntDelta_value : uint64ToBigIntDelta = 2 ^ 63.
Proof. reflexivity. Qed.

(** C7, as amended: above the signed maximum the bridge subtracts the signed
    maximum and one more ([2^63] in all) on [uint64], keeps the remainder as
    an [int64], and adds the constant [2^63]; the result is [n] itself. *)
Theorem uint64ToBigInt_above_MaxInt64 (n : Z) :
  MaxInt64 < n < 2 ^ 64 ->
  uint64ToBigInt n = to_int64 (n - MaxInt64 - 1) + uint64ToBigIntDelta
  /\ uint64ToBigIntDelta = 2 ^ 63
  /\ to_int64 (n - MaxInt64 - 1) = n - 2 ^ 63
  /\ uint64ToBigInt n = n.
Proof.
  intros Hn. unfold MaxInt64 in *.
  assert (Hy : to_int64 (to_uint64 (to_uint64 (n - (2 ^ 63 - 1)) - 1)) = n - 2 ^ 63).
  { unfold to_int64, to_uint64, wrap_signed, wrap_unsigned.
    change (2 ^ (64 - 1)) with (2 ^ 63).
    rewrite (Z.mod_small (n - (2 ^ 63 - 1))) by lia.
    rewrite (Z.mod_small (n - (2 ^ 63 - 1) - 1)) by lia.
    rewrite Z.mod_small by lia. lia. }
  assert (Hy' : to_int64 (n - (2 ^ 63 - 1) - 1) = n - 2 ^ 63).
  { unfold to_int64. rewrite wrap_signed_small; change (2 ^ (64 - 1)) with (2 ^ 63); lia. }
  unfold uint64ToBigInt, MaxInt64.
  destruct (Z.leb_spec n (2 ^ 63 - 1)) as [|_]; [lia|].
  rewrite Hy, Hy', uint64ToBigIntDelta_value.
  repeat split; lia.
Qed.

Lemma uint64ToBigInt_above_MaxInt64_witness :
  uint64ToBigInt (2 ^ 64 - 1) = 2 ^ 64 - 1.
Proof.
  apply (uint64ToBigInt_above_MaxInt64 (2 ^ 64 - 1)).
  unfold MaxInt64. lia.
Defined.

(** C7, as stated, is off by one: subtracting only the signed maximum and
    adding [2^63] gives [n + 1]; at [n = 2^63] the code returns [2^63]. *)
Lemma uint64ToBigInt_is_not_bridge_as_described :
  uint64ToBigInt (2 ^ 63) = 2 ^ 63 /\
  bridge_as_described (2 ^ 63) = 2 ^ 63 + 1 /\
  uint64ToBigInt (2 ^ 63) <> bridge_as_described (2 ^ 63).
Proof.
  split; [reflexivity|]. split; [reflexivity|]. vm_compute. discriminate.
Qed.

(** * Bit strings *)

Lemma low_bits_nonzero (x p : Z) :
  0 <= p ->
  (x mod 2 ^ p <> 0 <-> exists i, 0 <= i < p /\ Z.testbit x i = true).
Proof.
  intros Hp. split.
  - intros Hne.
    assert (Hm : 0 <= x mod 2 ^ p < 2 ^ p) by (apply Z.mod_pos_bound, Z.pow_pos_nonneg; lia).
    exists (Z.log2 (x mod 2 ^ p)).
    assert (Hlog : Z.log2 (x mod 2 ^ p) < p) by (apply Z.log2_lt_pow2; lia).
    pose proof (Z.log2_nonneg (x mod 2 ^ p)).
    split; [lia|].
    rewrite <- (Z.mod_pow2_bits_low x p) by lia.
    apply Z.bit_log2. lia.
  - intros (i & Hi & Hbit) Hz.
    rewrite <- (Z.mod_pow2_bits_low x p) in Hbit by lia.
    rewrite Hz, Z.bits_0 in Hbit. discriminate.
Qed.

Lemma bit_string_mask (p : Z) :
  0 <= p <= 7 -> to_uint8 (to_uint8 (Z.shiftl 1 p) - 1) = Z.ones p.
Proof.
  intros Hp.
  assert (H : p = 0 \/ p = 1 \/ p = 2 \/ p = 3 \/ p = 4 \/ p = 5 \/ p = 6 \/ p = 7) by lia.
  destruct H as [->|[->|[->|[->|[->|[->|[->| ->]]]]]]]; reflexivity.
Qed.

Lemma last_cons_nonempty {A : Type} (x d : A) (l : list A) :
  l <> [] -> last (x :: l) d = last l d.
Proof.
  destruct l; [congruence|reflexivity].
Qed.

(** C8: [parseBitString] rejects the empty input; on any other input it
    fails exactly when the padding count exceeds 7, or the input is one byte
    with a nonzero count, or a padding bit of the last data byte is set; when
    it succeeds the bit length is [(len-1)*8 - padding] and the bytes are the
    input without its first byte.  The bound on the length keeps [len*8]
    within [int]. *)
Theorem parseBitString_spec (a : int_size) (b : list byte) :
  8 * len b <= max_int a ->
  (b = [] -> snd (parseBitString a b) = Some ErrZeroLengthBitString)
  /\ (forall b0 data, b = b0 :: data ->
        (snd (parseBitString a b) = Some ErrInvalidPadding
         <-> (7 < u8 b0 \/ (len b = 1 /\ 0 < u8 b0) \/ padding_bits_nonzero b))
        /\ (snd (parseBitString a b) <> Some ErrInvalidPadding ->
            parseBitString a b
            = ({| Bytes := data; BitLength := (len b - 1) * 8 - u8 b0 |}, None)))
  /\ parseBitString a (bytes_of [0x04; 0xF0])
     = ({| Bytes := bytes_of [0xF0]; BitLength := 4 |}, None)
  /\ snd (parseBitString a (bytes_of [0x04; 0xF8])) = Some ErrInvalidPadding.
Proof.
  intros Hfit. split; [intros ->; reflexivity|].
  split; [|split; destruct a; reflexivity].
  intros b0 data ->.
  pose proof (u8_range b0) as Hb0.
  pose proof (len_nonneg data) as Hdata.
  rewrite len_cons in *.
  unfold parseBitString. rewrite len_cons.
  set (p := u8 b0) in *.
  destruct (Z.ltb_spec 7 p) as [Hp|Hp]; cbn [orb snd].
  { split; [|congruence]. split; [intros _; left; exact Hp|reflexivity]. }
  rewrite bit_string_mask by lia.
  rewrite Z.land_ones by lia.
  assert (Hlen : to_int a (to_int a ((len data + 1 - 1) * 8) - p) = (len data + 1 - 1) * 8 - p).
  { unfold to_int. unfold max_int in Hfit.
    assert (Hw : 8 <= int_bits a - 1) by (destruct a; cbn; lia).
    assert (H256 : 2 ^ 8 <= 2 ^ (int_bits a - 1)) by (apply Z.pow_le_mono_r; lia).
    change (2 ^ 8) with 256 in H256.
    rewrite (wrap_signed_small _ ((len data + 1 - 1) * 8)) by (destruct a; cbn [int_bits] in *; lia).
    apply wrap_signed_small; destruct a; cbn [int_bits] in *; lia. }
  rewrite Hlen. clear Hlen.
  destruct data as [|d data'].
  - (* one byte: the last byte is the padding count itself *)
    change (len (@nil byte)) with 0. cbn [last].
    change (0 + 1 =? 1) with true. cbn [andb].
    fold p.
    destruct (Z.ltb_spec 0 p) as [Hp0|Hp0]; cbn [orb snd].
    + split; [|congruence]. split; [intros _; right; left; lia|reflexivity].
    + assert (p = 0) as -> by lia. cbn.
      split; [|reflexivity]. split; [discriminate|].
      intros [H|[[_ H]|(b0' & data & i & E & Hne & _)]]; try lia.
      injection E as _ <-. congruence.
  - rewrite last_cons_nonempty by discriminate.
    set (data := d :: data') in *.
    assert (Hne1 : (len data + 1 =? 1) = false).
    { apply Z.eqb_neq. unfold data. rewrite len_cons. pose proof (len_nonneg data'). lia. }
    rewrite Hne1. cbn [andb orb].
    pose proof (low_bits_nonzero (u8 (last data x00)) p ltac:(lia)) as Hbits.
    destruct (Z.eqb_spec (u8 (last data x00) mod 2 ^ p) 0) as [E|E]; cbn [negb snd].
    + split; [|reflexivity]. split; [discriminate|].
      intros [H|[[H _]|(b0' & data0 & i & Eq & Hne & Hi & Hbit)]].
      * lia.
      * apply Z.eqb_neq in Hne1. lia.
      * injection Eq as <- <-. exfalso. apply Hbits; [|exact E].
        exists i. split; assumption.
    + split; [|congruence]. split; [|reflexivity]. intros _. right. right.
      apply Hbits in E. destruct E as (i & Hi & Hbit).
      exists b0, data, i. repeat split; try assumption; try lia.
      unfold data. discriminate.
Qed.

Lemma parseBitString_spec_witness :
  8 * len (bytes_of [0x04; 0xF0]) <= max_int Int64 /\
  parseBitString Int64 (bytes_of [0x04; 0xF0])
  = ({| Bytes := bytes_of [0xF0]; BitLength := 4 |}, None).
Proof.
  assert (H : 8 * len (bytes_of [0x04; 0xF0]) <= max_int Int64) by (vm_compute; discriminate).
  split; [exact H|].
  exact (proj1 (proj2 (proj2 (parseBitString_spec Int64 (bytes_of [0x04; 0xF0]) H)))).
Defined.

(** * The entry points on short buffers *)

(** C9: neither entry point checks the buffer before it reads the tag at
    index 0, nor, on the paths that read it, the byte at index 1: on the
    empty buffer both end in an out-of-range panic, not in an error value,
    and so do the one-byte buffers holding only a tag whose path reads
    further. *)
Theorem entry_points_panic_on_short_buffers (a : int_size) (msg : string) :
  decodeValue a [] msg = Panic
  /\ parseRawField a [] msg = Panic
  /\ parseRawField a [Integer] msg = Panic
  /\ parseRawField a [ObjectIdentifier] msg = Panic
  /\ decodeValue a [OctetString] msg = Panic
  /\ decodeValue a [ObjectIdentifier] msg = Panic.
Proof.
  repeat split; reflexivity.
Qed.

(** * Counter-like values that fail to parse *)

Lemma is_counter_tag_cases (tag : Asn1BER) :
  is_counter_tag tag = true ->
  tag = Counter32 \/ tag = Gauge32 \/ tag = TimeTicks \/ tag = Counter64.
Proof.
  unfold is_counter_tag. intros H.
  repeat (apply orb_true_iff in H; destruct H as [H|H]);
    apply Byte.byte_dec_bl in H; auto.
Qed.

Lemma decode_numeric_failure (a : int_size) (data : list byte) (retVal : VariableT)
    (parse : list byte -> Z * option error) (tag : Asn1BER) (wrap : Z -> value)
    (length cursor : Z) (v : list byte) :
  parseLength a data = Return (length, cursor) ->
  slice data cursor length = Return v ->
  snd (parse v) <> None ->
  decode_numeric a data retVal parse tag wrap = Return (Some retVal, None).
Proof.
  intros HL HS HP. unfold decode_numeric. rewrite HL. cbn [bind]. rewrite HS. cbn [bind].
  destruct (parse v) as [ret [e|]]; [reflexivity|]. cbn in HP. congruence.
Qed.

(** C2 fails on the code: when the value region of a Counter32, Gauge32,
    TimeTicks or Counter64 field does not parse, [decodeValue] leaves the
    case by [break] and returns the fresh zero-valued [Variable] with a nil
    error. *)
Theorem decodeValue_counter_failure_is_not_reported (a : int_size)
    (data : list byte) (msg : string) (tag : Asn1BER) (length cursor : Z)
    (v : list byte) :
  index data 0 = Return tag ->
  is_counter_tag tag = true ->
  parseLength a data = Return (length, cursor) ->
  slice data cursor length = Return v ->
  snd (counter_parse a tag v) <> None ->
  decodeValue a data msg = Return (Some new_Variable, None).
Proof.
  intros Htag Hcnt HL HS HP.
  unfold decodeValue. rewrite Htag. cbn [bind].
  destruct (is_counter_tag_cases tag Hcnt) as [->|[->|[->| ->]]];
    cbn -[decode_numeric parseUint parseInt parseInt64];
    eapply decode_numeric_failure; eauto.
Qed.

Lemma decodeValue_counter_failure_is_not_reported_witness :
  snd (parseUint Int64 (bytes_of [1; 2; 3; 4; 5; 6; 7; 8; 9])) = Some ErrIntegerTooLarge /\
  decodeValue Int64 (bytes_of [0x41; 0x09; 1; 2; 3; 4; 5; 6; 7; 8; 9]) EmptyString
  = Return (Some new_Variable, None).
Proof.
  split; [reflexivity|].
  apply (decodeValue_counter_failure_is_not_reported Int64
           (bytes_of [0x41; 0x09; 1; 2; 3; 4; 5; 6; 7; 8; 9]) EmptyString
           Counter32 11 2 (bytes_of [1; 2; 3; 4; 5; 6; 7; 8; 9])).
  - reflexivity.
  - reflexivity.
  - reflexivity.
  - reflexivity.
  - vm_compute. discriminate.
Defined.

(** The sibling case [Integer] does report the same failure. *)
Lemma decodeValue_integer_failure_is_reported :
  decodeValue Int64 (bytes_of [0x02; 0x09; 1; 2; 3; 4; 5; 6; 7; 8; 9]) EmptyString
  = Return (Some new_Variable,
            Some (ErrDecodeBytes (bytes_of [0x02; 0x09; 1; 2; 3; 4; 5; 6; 7; 8; 9])
                    ErrIntegerTooLarge)).
Proof. reflexivity. Qed.

(** * The length encoder *)

Lemma marshalLength_negative (length : Z) :
  length < 0 -> marshalLength length = ([], Some ErrLengthNegative).
Proof.
  intros H. unfold marshalLength.
  destruct (Z.ltb_spec length 0); [reflexivity|lia].
Qed.

Lemma marshalLength_short (length : Z) :
  0 <= length < 127 -> marshalLength length = ([byte_of length], None).
Proof.
  intros H. unfold marshalLength.
  destruct (Z.ltb_spec length 0); [lia|].
  destruct (Z.ltb_spec length 127); [reflexivity|lia].
Qed.

Lemma byte_of_zero_iff (z : Z) : 0 <= z < 256 -> (byte_of z = x00 <-> z = 0).
Proof.
  intros Hz. split.
  - intros H. rewrite <- (byte_of_small z Hz), H. reflexivity.
  - intros ->. reflexivity.
Qed.

Lemma marshalLength_one_octet (length : Z) :
  127 <= length <= 255 -> marshalLength length = ([x81; byte_of length], None).
Proof.
  intros H. unfold marshalLength.
  destruct (Z.ltb_spec length 0); [lia|].
  destruct (Z.ltb_spec length 127); [lia|].
  unfold to_uint64, wrap_unsigned. rewrite Z.mod_small by lia.
  unfold le_bytes64. cbn [map].
  assert (Hs : forall k, 8 <= k -> Z.shiftr length k = 0).
  { intros k Hk. apply Z.shiftr_eq_0; [lia|].
    assert (Z.log2 length < 8) by (apply Z.log2_lt_pow2; lia). lia. }
  change (8 * 0) with 0. rewrite Z.shiftr_0_r.
  rewrite !Hs by lia.
  change (byte_of 0) with x00.
  cbn [ReadBytes].
  assert (Hnz : Byte.eqb (byte_of length) x00 = false).
  { destruct (Byte.eqb (byte_of length) x00) eqn:E; [|reflexivity].
    apply Byte.byte_dec_bl in E. apply byte_of_zero_iff in E; lia. }
  rewrite Hnz. reflexivity.
Qed.

(** Below 256 the encoder writes what the specification describes. *)
Lemma marshalLength_agrees_below_256 (length : Z) :
  length <= 255 ->
  match marshal_length_spec length with
  | Some octets => marshalLength length = (octets, None)
  | None => marshalLength length = ([], Some ErrLengthNegative)
  end.
Proof.
  intros H. unfold marshal_length_spec.
  destruct (Z.ltb_spec length 0); [apply marshalLength_negative; lia|].
  destruct (Z.ltb_spec length 127); [apply marshalLength_short; lia|].
  rewrite marshalLength_one_octet by lia.
  cbn [be_minimal]. destruct (Z.eqb_spec length 0); [lia|].
  rewrite Z.div_small, Z.mod_small by lia.
  destruct (Z.to_nat (Z.log2 length)); reflexivity.
Qed.

(** C4 fails on the code from 256 on: the length is written least
    significant byte first and cut at its first zero byte.  256 comes out as
    the bare header [0x80], 0x1234 with its two digits swapped, and a length
    without any zero byte as no bytes and no error; the encoding the
    specification describes differs on each. The boundary case 200 agrees. *)
Theorem marshalLength_is_not_big_endian :
  marshalLength 256 = (bytes_of [0x80], None)
  /\ marshal_length_spec 256 = Some (bytes_of [0x82; 0x01; 0x00])
  /\ marshalLength 0x1234 = (bytes_of [0x82; 0x34; 0x12], None)
  /\ marshal_length_spec 0x1234 = Some (bytes_of [0x82; 0x12; 0x34])
  /\ marshalLength 0x0101010101010101 = ([], None)
  /\ marshalLength 200 = (bytes_of [0x81; 0xC8], None)
  /\ marshal_length_spec 200 = Some (bytes_of [0x81; 0xC8]).
Proof.
  repeat split; vm_compute; reflexivity.
Qed.

(** * Indexing and slicing *)

Lemma index_app_len {A : Type} (pre post : list A) (x : A) :
  index (pre ++ x :: post) (len pre) = Return x.
Proof.
  unfold index, len.
  destruct (Z.ltb_spec (Z.of_nat (List.length pre)) 0); [lia|].
  rewrite Nat2Z.id, nth_error_app2 by lia.
  rewrite Nat.sub_diag. reflexivity.
Qed.

Lemma index_nth_error {A : Type} (l : list A) (i : nat) (x : A) :
  nth_error l i = Some x -> index l (Z.of_nat i) = Return x.
Proof.
  intros H. unfold index.
  destruct (Z.ltb_spec (Z.of_nat i) 0); [lia|].
  rewrite Nat2Z.id, H. reflexivity.
Qed.

Lemma skipn_nth_error {A : Type} (l : list A) (n : nat) (x : A) :
  nth_error l n = Some x -> skipn n l = x :: skipn (S n) l.
Proof.
  revert l. induction n as [|n IH]; intros [|y l] H; try discriminate.
  - injection H as ->. reflexivity.
  - cbn [nth_error] in H. cbn [skipn]. rewrite (IH l H). reflexivity.
Qed.

Lemma nth_error_in_range {A : Type} (l : list A) (n : nat) :
  (n < List.length l)%nat -> exists x, nth_error l n = Some x.
Proof.
  intros H. destruct (nth_error l n) as [x|] eqn:E; [eauto|].
  apply nth_error_None in E. lia.
Qed.

Lemma slice_in_range {A : Type} (s : list A) (lo hi : Z) :
  0 <= lo <= hi -> hi <= len s -> exists v, slice s lo hi = Return v.
Proof.
  intros H1 H2. unfold slice.
  destruct (Z.leb_spec 0 lo); [|lia].
  destruct (Z.leb_spec lo hi); [|lia].
  destruct (Z.leb_spec hi (len s)); [|lia].
  cbn [andb]. eauto.
Qed.

(** * The length decoder *)

Lemma to_int_small (a : int_size) (x : Z) :
  min_int a <= x <= max_int a -> to_int a x = x.
Proof.
  unfold min_int, max_int, to_int. intros H.
  apply wrap_signed_small; [destruct a; cbn; lia|lia].
Qed.

Lemma max_int_lower (a : int_size) : 2 ^ 31 - 1 <= max_int a.
Proof. destruct a; vm_compute; discriminate. Qed.

Lemma min_int_upper (a : int_size) : min_int a <= - 2 ^ 31.
Proof. destruct a; vm_compute; discriminate. Qed.

Lemma parseLength_loop_value (a : int_size) (bytes : list byte) (todo : nat) :
  forall (i : nat) (acc : Z),
    (2 + i + todo <= List.length bytes)%nat ->
    0 <= acc ->
    acc * 256 ^ Z.of_nat todo + be_value (firstn todo (skipn (2 + i) bytes)) <= max_int a ->
    parseLength_loop a bytes todo (Z.of_nat i) acc
    = Return (acc * 256 ^ Z.of_nat todo + be_value (firstn todo (skipn (2 + i) bytes))).
Proof.
  induction todo as [|todo IH]; intros i acc Hlen Hacc Hmax.
  - cbn. f_equal. lia.
  - destruct (nth_error_in_range bytes (2 + i)) as [b Hb]; [lia|].
    rewrite (skipn_nth_error _ _ _ Hb) in Hmax |- *.
    cbn [firstn] in Hmax |- *.
    rewrite be_value_cons in Hmax |- *.
    assert (Hseg : len (firstn todo (skipn (S (2 + i)) bytes)) = Z.of_nat todo).
    { unfold len. rewrite length_firstn, length_skipn. lia. }
    rewrite Hseg in Hmax |- *.
    pose proof (be_value_range (firstn todo (skipn (S (2 + i)) bytes))) as Hbe.
    pose proof (u8_range b) as Hu.
    assert (Hpow : 1 <= 256 ^ Z.of_nat todo) by (apply Z.pow_le_mono_r with (b := 0); lia).
    rewrite Nat2Z.inj_succ, Z.pow_succ_r in Hmax |- * by lia.
    pose proof (min_int_upper a) as Hmin.
    assert (Hstep : acc * 256 + u8 b <= max_int a) by nia.
    cbn [parseLength_loop].
    replace (2 + Z.of_nat i) with (Z.of_nat (2 + i)) by lia.
    rewrite (index_nth_error _ _ _ Hb). cbn [bind].
    rewrite Z.shiftl_mul_pow2 by lia. change (2 ^ 8) with 256.
    rewrite (to_int_small a (acc * 256)) by lia.
    rewrite (to_int_small a (acc * 256 + u8 b)) by lia.
    replace (Z.of_nat i + 1) with (Z.of_nat (S i)) by lia.
    rewrite IH.
    + f_equal. replace (2 + S i)%nat with (S (2 + i)) by lia. ring.
    + lia.
    + lia.
    + replace (2 + S i)%nat with (S (2 + i)) by lia. nia.
Qed.

(** C10, as amended: when the buffer holds the length octets its second byte
    declares and the length they spell, with its header, fits [int],
    [parseLength] returns a pair with [1 <= cursor <= length]: 2 and 1 on a
    buffer of at most two bytes, else the declared length plus its header and
    the header size.  The value region [bytes[cursor:length]] is then a
    well-formed slice whenever [length <= len(bytes)]. *)
Theorem parseLength_cursor_within_length (a : int_size) (bytes : list byte) :
  len bytes <= 2 \/ 2 + declared_octets bytes <= len bytes ->
  declared_length bytes + 2 + declared_octets bytes <= max_int a ->
  exists length cursor,
    parseLength a bytes = Return (length, cursor)
    /\ 1 <= cursor <= length
    /\ (2 < len bytes ->
        length = declared_length bytes + 2 + declared_octets bytes
        /\ cursor = 2 + declared_octets bytes)
    /\ (length <= len bytes -> exists v, slice bytes cursor length = Return v).
Proof.
  intros Hroom Hfit. unfold parseLength.
  destruct (Z.leb_spec (len bytes) 2) as [Hshort|Hlong].
  { exists 2, 1. split; [reflexivity|]. split; [lia|]. split; [lia|].
    intros H. apply slice_in_range; lia. }
  destruct Hroom as [Hroom|Hroom]; [lia|].
  destruct (nth_error_in_range bytes 1) as [b1 Hb1]; [unfold len in Hlong; lia|].
  change 1 with (Z.of_nat 1) at 1. rewrite (index_nth_error _ _ _ Hb1). cbn [bind].
  unfold declared_length, declared_octets in *. rewrite Hb1 in *.
  pose proof (u8_range b1) as Hu.
  pose proof (max_int_lower a) as Hmax. pose proof (min_int_upper a) as Hmin.
  revert Hroom Hfit.
  destruct (Z.leb_spec (u8 b1) 127) as [Hform|Hform]; intros Hroom Hfit.
  { exists (u8 b1 + 2), 2. split; [reflexivity|]. split; [lia|]. split; [lia|].
    intros H. apply slice_in_range; lia. }
  set (k := Z.land (u8 b1) 127) in *.
  assert (Hk : 0 <= k) by (apply Z.land_nonneg; lia).
  pose proof (be_value_range (firstn (Z.to_nat k) (skipn 2 bytes))) as Hbe.
  pose proof (parseLength_loop_value a bytes (Z.to_nat k) 0 0) as Hloop.
  cbn [Z.of_nat Nat.add] in Hloop. rewrite Z.mul_0_l, Z.add_0_l in Hloop.
  rewrite Hloop; [|unfold len in Hroom; lia|lia|lia].
  cbn [bind].
  rewrite to_int_small by lia.
  eexists _, _. split; [reflexivity|]. split; [lia|]. split; [lia|].
  intros H. apply slice_in_range; lia.
Qed.

Lemma parseLength_cursor_within_length_witness :
  exists length cursor,
    parseLength Int64 (bytes_of [0x04; 0x82; 0x01; 0x00]) = Return (length, cursor)
    /\ 1 <= cursor <= length.
Proof.
  destruct (parseLength_cursor_within_length Int64 (bytes_of [0x04; 0x82; 0x01; 0x00]))
    as (length & cursor & H & Hle & _).
  - right. vm_compute. discriminate.
  - vm_compute. discriminate.
  - exists length, cursor. split; assumption.
Defined.

(** C10, as stated, fails twice over.  Eight length octets spelling [2^63]
    wrap the 64-bit [int]: the length comes back negative, below the cursor
    (four octets spelling [2^31] do the same to a 32-bit [int]).  And a
    buffer shorter than the octets it declares ends in a panic, with no pair
    returned. *)
Lemma parseLength_length_below_cursor :
  parseLength Int64 (bytes_of [0x04; 0x88; 0x80; 0; 0; 0; 0; 0; 0; 0])
  = Return (-9223372036854775798, 10)
  /\ ~ (1 <= 10 <= -9223372036854775798)
  /\ parseLength Int32 (bytes_of [0x04; 0x84; 0x80; 0; 0; 0]) = Return (-2147483642, 6)
  /\ (forall a, parseLength a (bytes_of [0x04; 0x82; 0x01]) = Panic).
Proof.
  split; [reflexivity|]. split; [lia|]. split; [reflexivity|].
  intros []; reflexivity.
Qed.

(** * The length codec, there and back *)

Lemma to_int_zero (a : int_size) : to_int a 0 = 0.
Proof. destruct a; reflexivity. Qed.

(** On a whole field -- a tag byte, the length octets, the payload --
    [parseLength] finds what [marshalLength] wrote, for lengths up to 255. *)
Lemma parseLength_marshalLength (a : int_size) (n : Z) (tag : byte)
    (payload : list byte) :
  0 <= n <= 255 -> len payload = n ->
  exists hdr,
    marshalLength n = (hdr, None)
    /\ parseLength a (tag :: hdr ++ payload)
       = Return (1 + len hdr + n, if n =? 0 then 1 else 1 + len hdr).
Proof.
  intros Hn Hpay.
  pose proof (max_int_lower a) as Hmax. pose proof (min_int_upper a) as Hmin.
  destruct (Z.ltb_spec n 127) as [Hshort|Hlong].
  - exists [byte_of n]. split; [apply marshalLength_short; lia|].
    unfold parseLength. cbn [app]. rewrite !len_cons, Hpay.
    destruct (Z.eqb_spec n 0) as [->|Hnz].
    + reflexivity.
    + destruct (Z.leb_spec (n + 1 + 1) 2); [lia|].
      change (index (tag :: byte_of n :: payload) 1) with (Return (byte_of n)).
      cbn [bind]. rewrite byte_of_small by lia.
      destruct (Z.leb_spec n 127); [|lia].
      change (len (@nil byte)) with 0. f_equal; f_equal; lia.
  - exists [x81; byte_of n]. split; [apply marshalLength_one_octet; lia|].
    unfold parseLength. cbn [app]. rewrite !len_cons, Hpay.
    destruct (Z.leb_spec (n + 1 + 1 + 1) 2); [lia|].
    destruct (Z.eqb_spec n 0); [lia|].
    change (index (tag :: x81 :: byte_of n :: payload) 1) with (Return x81).
    cbn [bind]. change (u8 x81 <=? 127) with false. cbv iota.
    change (Z.to_nat (Z.land (u8 x81) 127)) with 1%nat.
    change (Z.land (u8 x81) 127) with 1.
    cbn [parseLength_loop].
    change (index (tag :: x81 :: byte_of n :: payload) (2 + 0)) with (Return (byte_of n)).
    cbn [bind]. rewrite Z.shiftl_0_l, to_int_zero, Z.add_0_l.
    rewrite byte_of_small by lia.
    rewrite (to_int_small a n) by lia.
    rewrite to_int_small by lia.
    change (len (@nil byte)) with 0. f_equal; f_equal; lia.
Qed.

(** C1, as amended: for every n from 0 to 255 and every payload of n bytes
    (zero bytes among them), [parseLength] on a tag byte, then
    [marshalLength n], then the payload returns the size of the whole field
    -- so the decoded length less the tag and the length octets is n -- and,
    for n at least 1, the cursor at the first payload byte; for n = 0 the
    cursor is 1. *)
Theorem length_codec_round_trip_with_tag (a : int_size) (n : Z) (tag : byte) :
  0 <= n <= 255 ->
  exists hdr length cursor,
    marshalLength n = (hdr, None)
    /\ parseLength a (tag :: hdr ++ repeat x00 (Z.to_nat n)) = Return (length, cursor)
    /\ length - (1 + len hdr) = n
    /\ (1 <= n -> cursor = 1 + len hdr)
    /\ (n = 0 -> cursor = 1).
Proof.
  intros Hn.
  destruct (parseLength_marshalLength a n tag (repeat x00 (Z.to_nat n)) Hn)
    as (hdr & Hm & Hp).
  { unfold len. rewrite repeat_length. lia. }
  exists hdr, (1 + len hdr + n), (if n =? 0 then 1 else 1 + len hdr).
  split; [exact Hm|]. split; [exact Hp|]. split; [lia|].
  split; intros H; destruct (Z.eqb_spec n 0); lia.
Qed.

Lemma length_codec_round_trip_with_tag_witness :
  exists hdr length cursor,
    marshalLength 200 = (hdr, None)
    /\ parseLength Int64 (x04 :: hdr ++ repeat x00 (Z.to_nat 200)) = Return (length, cursor)
    /\ length - (1 + len hdr) = 200
    /\ (1 <= 200 -> cursor = 1 + len hdr)
    /\ (200 = 0 -> cursor = 1).
Proof.
  apply (length_codec_round_trip_with_tag Int64 200 x04). lia.
Defined.

(** C1, read to the letter, fails at n = 2: without a tag byte in front
    [parseLength] takes the length octet for the tag and the first payload
    byte for the length, and returns length 2 and cursor 2. *)
Lemma length_round_trip_literal_fails : ~ length_round_trip_literal Int64 2.
Proof.
  intros (hdr & length & cursor & Hm & Hp & Hl & Hc).
  vm_compute in Hm. injection Hm as <-.
  vm_compute in Hp. injection Hp as <- <-.
  vm_compute in Hc. discriminate.
Qed.

(** With the tag in front the round trip still stops at 256, where
    [marshalLength] goes wrong: the field is decoded as 2 bytes long. *)
Lemma length_round_trip_stops_at_256 :
  parseLength Int64 (x04 :: fst (marshalLength 256) ++ repeat x00 256) = Return (2, 2).
Proof. vm_compute. reflexivity. Qed.

(** * The base-128 encoder *)

Lemma land_7f (b : byte) : Z.land (u8 b) 0x7f = u8 b mod 128.
Proof. destruct b; reflexivity. Qed.

Lemma land_80 (b : byte) : Z.land (u8 b) 0x80 = if u8 b <? 128 then 0 else 128.
Proof. destruct b; reflexivity. Qed.

Lemma base128_group_byte (x : Z) (last : bool) :
  byte_of (if negb last
           then Z.lor (Z.land (u8 (byte_of x)) 0x7f) 0x80
           else Z.land (u8 (byte_of x)) 0x7f)
  = byte_of (x mod 128 + (if last then 0 else 128)).
Proof.
  rewrite land_7f, u8_byte_of.
  assert (Hm : (x mod 256) mod 128 = x mod 128).
  { apply Z.mod_mod_divide. exists 2. reflexivity. }
  rewrite Hm.
  assert (Hg : 0 <= x mod 128 < 128) by (apply Z.mod_pos_bound; lia).
  destruct last; cbn [negb].
  - f_equal. lia.
  - f_equal. rewrite Z.lor_comm, (Z.add_comm (x mod 128)).
    apply (lor_low_bits 128 (x mod 128) 7); [lia|reflexivity|].
    change (2 ^ 7) with 128. lia.
Qed.

Lemma marshalBase128Int_emit_groups (n : Z) (todo : nat) (out : list byte) :
  marshalBase128Int_emit out n todo = out ++ base128_groups n todo.
Proof.
  revert out. induction todo as [|i IH]; intros out.
  - cbn. symmetry. apply app_nil_r.
  - cbn [marshalBase128Int_emit base128_groups].
    rewrite IH, <- app_assoc. cbn [app]. f_equal. f_equal.
    rewrite (Z.mul_comm (Z.of_nat i) 7).
    apply (base128_group_byte (Z.shiftr n (7 * Z.of_nat i)) (Nat.eqb i 0)).
Qed.

Lemma marshalBase128Int_appends (out : list byte) (n : Z) :
  marshalBase128Int out n = (out ++ base128_bytes n, None).
Proof.
  unfold base128_bytes, marshalBase128Int.
  destruct (n =? 0); [reflexivity|].
  cbn [fst]. rewrite (marshalBase128Int_emit_groups n _ out).
  rewrite (marshalBase128Int_emit_groups n _ []). reflexivity.
Qed.

(** The first loop counts the 7-bit groups of [i]: none for 0, else the
    least [k] with [i < 2^(7k)]; [7 * fuel] bits of fuel are enough. *)
Lemma base128_count_groups (fuel : nat) :
  forall i l0, 0 <= i < 2 ^ (7 * Z.of_nat fuel) ->
    exists k : nat,
      base128_count fuel i l0 = l0 + Z.of_nat k
      /\ i < 2 ^ (7 * Z.of_nat k)
      /\ (i = 0 -> k = 0%nat)
      /\ (0 < i -> (1 <= k)%nat /\ 2 ^ (7 * (Z.of_nat k - 1)) <= i).
Proof.
  induction fuel as [|fuel IH]; intros i l0 Hi.
  - change (2 ^ (7 * Z.of_nat 0)) with 1 in Hi.
    exists 0%nat. cbn. repeat split; try lia.
  - cbn [base128_count].
    destruct (Z.ltb_spec 0 i) as [Hpos|Hz].
    + rewrite Z.shiftr_div_pow2 by lia. change (2 ^ 7) with 128.
      assert (Hq : 0 <= i / 128 < 2 ^ (7 * Z.of_nat fuel)).
      { split; [apply Z.div_pos; lia|].
        apply Z.div_lt_upper_bound; [lia|].
        replace (7 * Z.of_nat (S fuel)) with (7 + 7 * Z.of_nat fuel) in Hi by lia.
        rewrite Z.pow_add_r in Hi by lia. change (2 ^ 7) with 128 in Hi. lia. }
      destruct (IH (i / 128) (l0 + 1) Hq) as (k & Hc & Hlt & Hzero & Hposk).
      exists (S k). rewrite Hc.
      assert (Hpow : 2 ^ (7 * Z.of_nat (S k)) = 128 * 2 ^ (7 * Z.of_nat k)).
      { replace (7 * Z.of_nat (S k)) with (7 + 7 * Z.of_nat k) by lia.
        rewrite Z.pow_add_r by lia. reflexivity. }
      pose proof (Z.div_mod i 128 ltac:(lia)) as Hdm.
      pose proof (Z.mod_pos_bound i 128 ltac:(lia)) as Hmb.
      repeat split; try lia.
      destruct (Z.eq_dec (i / 128) 0) as [E|E].
      * rewrite (Hzero E). cbn. lia.
      * destruct Hposk as [Hk1 Hlow]; [lia|].
        replace (7 * (Z.of_nat (S k) - 1)) with (7 + 7 * (Z.of_nat k - 1)) by lia.
        rewrite Z.pow_add_r by lia. change (2 ^ 7) with 128. lia.
    + exists 0%nat. assert (i = 0) as -> by lia. cbn. repeat split; lia.
Qed.

(** What [marshalBase128Int] adds for a non-negative [int64]: the byte 0 for
    zero, else the 7-bit groups, as many as [n] needs. *)
Lemma base128_bytes_groups (n : Z) :
  0 <= n < 2 ^ 63 ->
  exists k : nat,
    base128_bytes n = base128_groups n k
    /\ (1 <= k)%nat /\ n < 2 ^ (7 * Z.of_nat k)
    /\ (0 < n -> 2 ^ (7 * (Z.of_nat k - 1)) <= n).
Proof.
  intros Hn. unfold base128_bytes, marshalBase128Int.
  destruct (Z.eqb_spec n 0) as [->|Hnz].
  - exists 1%nat. repeat split; try lia.
  - destruct (base128_count_groups 10 n 0) as (k & Hc & Hlt & _ & Hpos).
    { split; [lia|]. apply Z.lt_trans with (2 ^ 63); [lia|]. reflexivity. }
    destruct Hpos as [Hk Hlow]; [lia|].
    exists k. rewrite Hc. cbn [fst]. rewrite marshalBase128Int_emit_groups.
    rewrite Z.add_0_l, Nat2Z.id. cbn [app]. repeat split; try lia.
Qed.

(** Negative components add nothing at all. *)
Lemma base128_bytes_negative (n : Z) : n < 0 -> base128_bytes n = [].
Proof.
  intros Hn. unfold base128_bytes, marshalBase128Int.
  destruct (Z.eqb_spec n 0); [lia|].
  cbn [base128_count]. destruct (Z.ltb_spec 0 n); [lia|]. reflexivity.
Qed.

(** * The object identifier encoder *)

Lemma byte_of_eqm (x y : Z) : x mod 256 = y mod 256 -> byte_of x = byte_of y.
Proof. intros H. unfold byte_of. rewrite H. reflexivity. Qed.

Lemma to_int_mod_256 (a : int_size) (x : Z) : to_int a x mod 256 = x mod 256.
Proof.
  unfold to_int.
  assert (Hd : (256 | 2 ^ int_bits a)).
  { destruct a; cbn [int_bits]; [exists (2 ^ 24)|exists (2 ^ 56)]; reflexivity. }
  rewrite <- (Z.mod_mod_divide (wrap_signed (int_bits a) x) _ _ Hd).
  rewrite wrap_signed_mod by (destruct a; cbn; lia).
  apply Z.mod_mod_divide. exact Hd.
Qed.

Lemma first_byte_of_oid (a : int_size) (s0 s1 : Z) :
  byte_of (to_int a (to_int a (s0 * 40) + s1)) = byte_of (40 * s0 + s1).
Proof.
  apply byte_of_eqm. rewrite to_int_mod_256.
  rewrite <- Zplus_mod_idemp_l, to_int_mod_256, Zplus_mod_idemp_l.
  f_equal. lia.
Qed.

Lemma marshalObjectIdentifier_loop_appends (rest : list Z) (out : list byte) :
  marshalObjectIdentifier_loop out rest
  = (out ++ flat_map (fun n => base128_bytes (to_int64 n)) rest, None).
Proof.
  revert out. induction rest as [|n rest IH]; intros out.
  - cbn. rewrite app_nil_r. reflexivity.
  - cbn [marshalObjectIdentifier_loop flat_map].
    rewrite marshalBase128Int_appends, IH, <- app_assoc. reflexivity.
Qed.

Lemma marshalObjectIdentifier_cases (a : int_size) (seq : list Z) :
  (len seq < 2 \/ 6 < nth 0 seq 0 \/ 40 <= nth 1 seq 0) /\
  marshalObjectIdentifier a seq = ([], Some ErrInvalidOID)
  \/
  ~ (len seq < 2 \/ 6 < nth 0 seq 0 \/ 40 <= nth 1 seq 0) /\
  marshalObjectIdentifier a seq
  = (byte_of (40 * nth 0 seq 0 + nth 1 seq 0)
       :: flat_map (fun n => base128_bytes (to_int64 n)) (skipn 2 seq), None).
Proof.
  unfold marshalObjectIdentifier.
  destruct (Z.ltb_spec (len seq) 2); cbn [orb]; [left; split; [lia|reflexivity]|].
  destruct (Z.ltb_spec 6 (nth 0 seq 0)); cbn [orb]; [left; split; [lia|reflexivity]|].
  destruct (Z.leb_spec 40 (nth 1 seq 0)); [left; split; [lia|reflexivity]|].
  right. split; [lia|].
  rewrite marshalObjectIdentifier_loop_appends, first_byte_of_oid. reflexivity.
Qed.

(** For a non-negative [int64] the encoder writes the encoding of the
    specification: one zero byte for zero, else exactly the groups the number
    has. *)
Lemma base128_bytes_encoding (n : Z) :
  0 <= n < 2 ^ 63 -> base128_bytes n = base128_encoding n.
Proof.
  intros Hn. unfold base128_encoding.
  destruct (Z.eqb_spec n 0) as [->|Hnz]; [reflexivity|].
  destruct (base128_bytes_groups n Hn) as (k & E & Hk & Hlt & Hlow).
  specialize (Hlow ltac:(lia)). rewrite E. f_equal.
  assert (Hlo : 7 * (Z.of_nat k - 1) <= Z.log2 n) by (apply Z.log2_le_pow2; lia).
  assert (Hhi : Z.log2 n < 7 * Z.of_nat k) by (apply Z.log2_lt_pow2; lia).
  assert (Hq : Z.log2 n / 7 = Z.of_nat k - 1).
  { symmetry.
    apply (Z.div_unique (Z.log2 n) 7 (Z.of_nat k - 1) (Z.log2 n - 7 * (Z.of_nat k - 1))); lia. }
  rewrite Hq. lia.
Qed.

(** C6, as amended: [marshalObjectIdentifier] fails exactly when the
    sequence has fewer than two components, or [seq[0] > 6], or
    [seq[1] >= 40].  When it succeeds its output is one byte, the low eight
    bits of [40*seq[0]+seq[1]] -- the number itself when it lies within
    0..255 -- followed by what [marshalBase128Int] writes for each further
    component, in order.  For a non-negative component that is its base-128
    encoding as the specification words it: a single zero byte for zero, else
    its 7-bit groups, as many as it has, most significant first, every group
    but the last with the top bit set; for a negative component it is
    nothing.  So with no negative component the output is the first byte
    followed by the encodings of the further components. *)
Theorem marshalObjectIdentifier_spec (a : int_size) (seq : list Z) :
  (snd (marshalObjectIdentifier a seq) <> None
   <-> (len seq < 2 \/ 6 < nth 0 seq 0 \/ 40 <= nth 1 seq 0))
  /\ (snd (marshalObjectIdentifier a seq) <> None ->
      marshalObjectIdentifier a seq = ([], Some ErrInvalidOID))
  /\ (snd (marshalObjectIdentifier a seq) = None ->
      marshalObjectIdentifier a seq
      = (byte_of (40 * nth 0 seq 0 + nth 1 seq 0)
           :: flat_map (fun n => base128_bytes (to_int64 n)) (skipn 2 seq), None)
      /\ (0 <= 40 * nth 0 seq 0 + nth 1 seq 0 <= 255 ->
          u8 (byte_of (40 * nth 0 seq 0 + nth 1 seq 0)) = 40 * nth 0 seq 0 + nth 1 seq 0)
      /\ Forall (fun n =>
                   (0 <= n < 2 ^ 63 ->
                    base128_bytes (to_int64 n) = base128_encoding n
                    /\ (n = 0 -> base128_bytes (to_int64 n) = [x00])
                    /\ exists k : nat,
                         base128_bytes (to_int64 n) = base128_groups n k
                         /\ (1 <= k)%nat /\ n < 2 ^ (7 * Z.of_nat k)
                         /\ (0 < n -> 2 ^ (7 * (Z.of_nat k - 1)) <= n)
                         /\ (n = 0 -> k = 1%nat))
                   /\ (- 2 ^ 63 <= n < 0 -> base128_bytes (to_int64 n) = []))
                (skipn 2 seq)
      /\ (Forall (fun n => 0 <= n < 2 ^ 63) (skipn 2 seq) ->
          marshalObjectIdentifier a seq
          = (byte_of (40 * nth 0 seq 0 + nth 1 seq 0)
               :: flat_map base128_encoding (skipn 2 seq), None))).
Proof.
  assert (Hid : forall n, - 2 ^ 63 <= n < 2 ^ 63 -> to_int64 n = n).
  { intros n Hn. unfold to_int64. apply wrap_signed_small; [lia|].
    change (2 ^ (64 - 1)) with (2 ^ 63). exact Hn. }
  destruct (marshalObjectIdentifier_cases a seq) as [[Hc E]|[Hc E]]; rewrite E; cbn [snd].
  - split; [split; [intros _; exact Hc|discriminate]|].
    split; [reflexivity|discriminate].
  - split; [split; [congruence|intros H; contradiction]|].
    split; [congruence|]. intros _.
    split; [reflexivity|]. split; [intros H; apply byte_of_small; lia|].
    split.
    + apply Forall_forall. intros n _. split; intros Hn.
      * rewrite Hid by lia.
        split; [apply base128_bytes_encoding; exact Hn|].
        split; [intros ->; reflexivity|].
        destruct (Z.eq_dec n 0) as [->|Hnz].
        -- exists 1%nat. repeat split; try lia.
        -- destruct (base128_bytes_groups n Hn) as (k & Ek & Hk & Hlt & Hlow).
           exists k. repeat split; try assumption. intros H0. lia.
      * rewrite Hid by lia. apply base128_bytes_negative. lia.
    + intros Hall. f_equal. f_equal. clear E Hc.
      induction Hall as [|n rest Hn _ IH]; [reflexivity|].
      cbn beta in Hn. cbn [flat_map]. rewrite IH, Hid by lia.
      rewrite base128_bytes_encoding by exact Hn. reflexivity.
Qed.

Lemma marshalObjectIdentifier_spec_witness :
  snd (marshalObjectIdentifier Int64 [1; 3; 6; 1; 4; 1; 2680; 0]) = None /\
  Forall (fun n => 0 <= n < 2 ^ 63) (skipn 2 [1; 3; 6; 1; 4; 1; 2680; 0]) /\
  marshalObjectIdentifier Int64 [1; 3; 6; 1; 4; 1; 2680; 0]
  = (bytes_of [0x2b; 6; 1; 4; 1; 0x94; 0x78; 0], None).
Proof.
  assert (H : snd (marshalObjectIdentifier Int64 [1; 3; 6; 1; 4; 1; 2680; 0]) = None)
    by reflexivity.
  assert (Hall : Forall (fun n => 0 <= n < 2 ^ 63) (skipn 2 [1; 3; 6; 1; 4; 1; 2680; 0])).
  { cbn [skipn]. repeat constructor; vm_compute; congruence. }
  split; [exact H|]. split; [exact Hall|].
  destruct (marshalObjectIdentifier_spec Int64 [1; 3; 6; 1; 4; 1; 2680; 0]) as (_ & _ & Hs).
  destruct (Hs H) as (_ & _ & _ & E). rewrite (E Hall). reflexivity.
Defined.

(** C6, as stated, fails where [40*seq[0]+seq[1]] exceeds a byte: the
    sequence 6.16 passes the checks, and the byte written for 256 is 0. *)
Lemma marshalObjectIdentifier_first_byte_wraps :
  marshalObjectIdentifier Int64 [6; 16] = ([x00], None)
  /\ u8 x00 <> 40 * 6 + 16.
Proof.
  split; [reflexivity|]. vm_compute. discriminate.
Qed.

(** A negative component is passed over in silence. *)
Lemma marshalObjectIdentifier_skips_negative :
  marshalObjectIdentifier Int64 [1; 3; -5] = (bytes_of [0x2b], None).
Proof. reflexivity. Qed.

(** * The base-128 decoder *)

Lemma index_in_range {A : Type} (l : list A) (i : Z) :
  0 <= i < len l -> exists x, index l i = Return x.
Proof.
  intros H. unfold index, len in *.
  destruct (Z.ltb_spec i 0); [lia|].
  destruct (nth_error_in_range l (Z.to_nat i)) as [x Hx]; [lia|].
  rewrite Hx. eauto.
Qed.

(** [parseBase128Int] always returns, and a success has moved the offset
    forward, within the buffer. *)
Lemma parseBase128Int_loop_progress (a : int_size) (bytes : list byte) (budget : nat) :
  forall ret offset, 0 <= offset ->
    exists ret' offset' err,
      parseBase128Int_loop a bytes budget ret offset = Return (ret', offset', err)
      /\ (err = None -> offset < offset' <= len bytes).
Proof.
  induction budget as [|budget IH]; intros ret offset Hoff; cbn [parseBase128Int_loop].
  - destruct (Z.ltb_spec offset (len bytes)); eexists _, _, _; (split; [reflexivity|discriminate]).
  - destruct (Z.ltb_spec offset (len bytes)) as [Hlt|Hge].
    + destruct (index_in_range bytes offset) as [b Hb]; [lia|].
      rewrite Hb. cbn [bind].
      destruct (Z.land (u8 b) 128 =? 0).
      * eexists _, _, _. split; [reflexivity|]. intros _. lia.
      * destruct (IH (Z.lor (to_int a (Z.shiftl ret 7)) (Z.land (u8 b) 127)) (offset + 1))
          as (ret' & offset' & err & E & Hp); [lia|].
        rewrite E. eexists _, _, _. split; [reflexivity|]. intros He.
        specialize (Hp He). lia.
    + eexists _, _, _. split; [reflexivity|discriminate].
Qed.

(** The counter of [parseObjectIdentifier_loop] never runs out, and nothing
    in the loop panics. *)
Lemma parseObjectIdentifier_loop_fuel (a : int_size) (bytes : list byte) (fuel : nat) :
  forall s offset, 0 <= offset -> len bytes - offset <= Z.of_nat fuel ->
    exists r, parseObjectIdentifier_loop a bytes fuel s offset = Return r.
Proof.
  induction fuel as [|fuel IH]; intros s offset Hoff Hfuel; cbn [parseObjectIdentifier_loop].
  - destruct (Z.ltb_spec offset (len bytes)); [lia|eauto].
  - destruct (Z.ltb_spec offset (len bytes)) as [Hlt|Hge]; [|eauto].
    unfold parseBase128Int.
    destruct (parseBase128Int_loop_progress a bytes 5 0 offset Hoff)
      as (v & offset' & err & E & Hp).
    rewrite E. cbn [bind].
    destruct err as [e|]; [eauto|].
    specialize (Hp eq_refl). apply IH; lia.
Qed.

Lemma parseObjectIdentifier_total (a : int_size) (bytes : list byte) :
  exists r, parseObjectIdentifier a bytes = Return r.
Proof.
  unfold parseObjectIdentifier. destruct bytes as [|b0 rest]; [eauto|].
  apply parseObjectIdentifier_loop_fuel; [lia|]. unfold len. lia.
Qed.

Lemma pow2_7_succ (k : nat) : 2 ^ (7 * Z.of_nat (S k)) = 128 * 2 ^ (7 * Z.of_nat k).
Proof.
  replace (7 * Z.of_nat (S k)) with (7 + 7 * Z.of_nat k) by lia.
  rewrite Z.pow_add_r by lia. reflexivity.
Qed.

Lemma pow2_7_pos (k : nat) : 0 < 2 ^ (7 * Z.of_nat k).
Proof. apply Z.pow_pos_nonneg; lia. Qed.

(** Reading back [todo] groups of [n]: the accumulator takes in the low
    [7 * todo] bits of [n]. *)
Lemma parseBase128Int_loop_groups (a : int_size) (n : Z) (todo : nat) :
  forall (budget : nat) (ret : Z) (pre post : list byte),
    (1 <= todo <= budget)%nat -> 0 <= n -> 0 <= ret ->
    ret * 2 ^ (7 * Z.of_nat todo) + n mod 2 ^ (7 * Z.of_nat todo) <= max_int a ->
    parseBase128Int_loop a (pre ++ base128_groups n todo ++ post) budget ret (len pre)
    = Return (ret * 2 ^ (7 * Z.of_nat todo) + n mod 2 ^ (7 * Z.of_nat todo),
              len pre + Z.of_nat todo, None).
Proof.
  induction todo as [|i IH]; intros budget ret pre post Hb Hn Hret Hmax; [lia|].
  destruct budget as [|budget]; [lia|].
  cbn [parseBase128Int_loop base128_groups].
  set (g := Z.shiftr n (7 * Z.of_nat i) mod 128).
  set (flag := if Nat.eqb i 0 then 0 else 128).
  set (bytes := pre ++ (byte_of (g + flag) :: base128_groups n i) ++ post).
  assert (Hg : 0 <= g < 128) by (apply Z.mod_pos_bound; lia).
  assert (Hflag : flag = 0 \/ flag = 128) by (unfold flag; destruct (Nat.eqb i 0); auto).
  assert (Hlen : len pre < len bytes).
  { unfold bytes. rewrite len_app. cbn [app]. rewrite len_cons.
    pose proof (len_nonneg (base128_groups n i ++ post)). lia. }
  destruct (Z.ltb_spec (len pre) (len bytes)) as [_|]; [|lia].
  unfold bytes at 1. cbn [app]. rewrite index_app_len. cbn [bind].
  rewrite land_7f, land_80, byte_of_small by lia.
  pose proof (pow2_7_pos i) as Hpi. rewrite pow2_7_succ in Hmax |- *.
  pose proof (Z.mod_pos_bound n (2 ^ (7 * Z.of_nat i)) Hpi) as Hlow.
  assert (Hsplit : n mod (128 * 2 ^ (7 * Z.of_nat i))
                   = g * 2 ^ (7 * Z.of_nat i) + n mod 2 ^ (7 * Z.of_nat i)).
  { rewrite (Z.mul_comm 128). rewrite Z.rem_mul_r by lia.
    unfold g. rewrite Z.shiftr_div_pow2 by lia. ring. }
  rewrite Hsplit in Hmax |- *.
  assert (Hgm : (g + flag) mod 128 = g).
  { destruct Hflag as [-> | ->].
    - rewrite Z.add_0_r. apply Z.mod_small. exact Hg.
    - replace (g + 128) with (g + 1 * 128) by lia. rewrite Z.mod_add by lia.
      apply Z.mod_small. exact Hg. }
  rewrite Hgm.
  pose proof (min_int_upper a) as Hmin.
  assert (Hstep : ret * 128 + g <= max_int a) by nia.
  rewrite Z.shiftl_mul_pow2 by lia. change (2 ^ 7) with 128.
  rewrite (to_int_small a (ret * 128)) by lia.
  rewrite (lor_low_bits (ret * 128) g 7);
    [|lia|apply Z.mod_mul; lia|change (2 ^ 7) with 128; lia].
  unfold flag in *. destruct i as [|i'].
  - (* the last group: top bit clear *)
    cbn [Nat.eqb] in *. rewrite Z.add_0_r.
    destruct (Z.ltb_spec g 128) as [_|]; [|lia].
    change (0 =? 0) with true. cbv iota.
    change (7 * Z.of_nat 0) with 0 in *. change (2 ^ 0) with 1 in *.
    rewrite Z.mod_1_r in *. f_equal. f_equal. f_equal; lia.
  - cbn [Nat.eqb] in *.
    destruct (Z.ltb_spec (g + 128) 128) as [|_]; [lia|].
    change (128 =? 0) with false. cbv iota.
    pose proof (IH budget (ret * 128 + g) (pre ++ [byte_of (g + 128)]) post) as IH'.
    rewrite len_app in IH'. change (len [byte_of (g + 128)]) with 1 in IH'.
    unfold bytes.
    replace (pre ++ (byte_of (g + 128) :: base128_groups n (S i')) ++ post)
      with ((pre ++ [byte_of (g + 128)]) ++ base128_groups n (S i') ++ post)
      by (rewrite <- app_assoc; reflexivity).
    rewrite IH'; [|lia|lia|lia|nia].
    f_equal. f_equal. f_equal; [ring|lia].
Qed.

(** One whole component is read back, provided its value takes at most five
    groups and fits [int]. *)
Lemma parseBase128Int_base128_bytes (a : int_size) (n : Z) (pre post : list byte) :
  0 <= n < 2 ^ 35 -> n <= max_int a ->
  parseBase128Int a (pre ++ base128_bytes n ++ post) (len pre)
  = Return (n, len pre + len (base128_bytes n), None)
  /\ 1 <= len (base128_bytes n).
Proof.
  intros Hn Hmax.
  destruct (base128_bytes_groups n) as (k & E & Hk1 & Hlt & Hlow).
  { split; [lia|]. apply Z.lt_trans with (2 ^ 35); [lia|reflexivity]. }
  assert (Hlen : len (base128_groups n k) = Z.of_nat k).
  { clear. unfold len. induction k as [|k IH]; [reflexivity|].
    cbn [base128_groups List.length]. rewrite Nat2Z.inj_succ. lia. }
  assert (Hk5 : (k <= 5)%nat).
  { destruct (Z.eq_dec n 0) as [->|Hnz].
    - unfold base128_bytes in E. cbn in E. destruct k as [|[|k]]; try lia.
      cbn in E. discriminate.
    - specialize (Hlow ltac:(lia)).
      assert (H : 2 ^ (7 * (Z.of_nat k - 1)) < 2 ^ 35) by lia.
      apply Z.pow_lt_mono_r_iff in H; lia. }
  rewrite E, Hlen. split; [|lia].
  unfold parseBase128Int.
  rewrite (parseBase128Int_loop_groups a n k 5 0 pre post); try lia.
  - rewrite Z.mul_0_l, Z.add_0_l, Z.mod_small by lia. reflexivity.
  - rewrite Z.mul_0_l, Z.add_0_l, Z.mod_small by lia. exact Hmax.
Qed.

(** * The object identifier decoder *)

Lemma parseObjectIdentifier_loop_components (a : int_size) (rest : list Z) :
  forall (fuel : nat) (s : list Z) (pre : list byte),
    Forall (fun n => 0 <= n < 2 ^ 35 /\ n <= max_int a) rest ->
    len (flat_map base128_bytes rest) <= Z.of_nat fuel ->
    parseObjectIdentifier_loop a (pre ++ flat_map base128_bytes rest) fuel s (len pre)
    = Return (s ++ rest, None).
Proof.
  induction rest as [|n rest IH]; intros fuel s pre Hall Hfuel.
  - cbn [flat_map]. rewrite !app_nil_r.
    destruct fuel; cbn [parseObjectIdentifier_loop];
      rewrite Z.ltb_irrefl; reflexivity.
  - inversion Hall as [|? ? [Hn Hmax] Hall']; subst.
    cbn [flat_map] in *. rewrite len_app in Hfuel.
    destruct (parseBase128Int_base128_bytes a n pre (flat_map base128_bytes rest) Hn Hmax)
      as [Hparse Hpos].
    pose proof (len_nonneg (flat_map base128_bytes rest)) as Hnn.
    destruct fuel as [|fuel]; [lia|].
    cbn [parseObjectIdentifier_loop].
    assert (Hlt : len pre < len (pre ++ base128_bytes n ++ flat_map base128_bytes rest)).
    { rewrite !len_app. lia. }
    destruct (Z.ltb_spec (len pre)
                (len (pre ++ base128_bytes n ++ flat_map base128_bytes rest))) as [_|]; [|lia].
    rewrite Hparse. cbn [bind].
    rewrite <- len_app.
    replace (pre ++ base128_bytes n ++ flat_map base128_bytes rest)
      with ((pre ++ base128_bytes n) ++ flat_map base128_bytes rest)
      by (rewrite <- app_assoc; reflexivity).
    rewrite IH; [|exact Hall'|lia].
    rewrite <- app_assoc. reflexivity.
Qed.

(** * Decimal numbers as strings *)

Lemma str_app_assoc (s t u : string) : ((s ++ t) ++ u = s ++ (t ++ u))%string.
Proof.
  induction s as [|c s IH]; [reflexivity|]. cbn. rewrite IH. reflexivity.
Qed.

Lemma str_app_nil_r (s : string) : (s ++ EmptyString = s)%string.
Proof.
  induction s as [|c s IH]; [reflexivity|]. cbn. rewrite IH. reflexivity.
Qed.

Lemma digit_char_ok (d : Z) :
  0 <= d < 10 -> is_digit (digit_char d) = true /\ digit_value (digit_char d) = d.
Proof.
  intros H.
  assert (E : d = 0 \/ d = 1 \/ d = 2 \/ d = 3 \/ d = 4 \/ d = 5 \/ d = 6 \/ d = 7
              \/ d = 8 \/ d = 9) by lia.
  destruct E as [->|[->|[->|[->|[->|[->|[->|[->|[->| ->]]]]]]]]]; split; reflexivity.
Qed.

Lemma is_digit_not_dot (c : ascii) : is_digit c = true -> is_dot c = false.
Proof.
  intros H. unfold is_dot. destruct (Ascii.eqb_spec c "."%char) as [->|]; [|reflexivity].
  discriminate H.
Qed.

Lemma all_digits_no_dots (s : string) : all_digits s = true -> no_dots s = true.
Proof.
  induction s as [|c s IH]; [reflexivity|]. cbn. intros H.
  apply andb_true_iff in H. destruct H as [Hc Hs].
  rewrite (is_digit_not_dot c Hc), (IH Hs). reflexivity.
Qed.

Lemma all_digits_app (s t : string) :
  all_digits (s ++ t) = all_digits s && all_digits t.
Proof.
  induction s as [|c s IH]; [reflexivity|]. cbn. rewrite IH. apply andb_assoc.
Qed.

Lemma parse_digits_app (s t : string) (acc : Z) :
  parse_digits acc (s ++ t)
  = match parse_digits acc s with
    | Some v => parse_digits v t
    | None => None
    end.
Proof.
  revert acc. induction s as [|c s IH]; intros acc; [reflexivity|].
  cbn. destruct (is_digit c); [apply IH|reflexivity].
Qed.

Lemma digits_of_app (fuel : nat) (n : Z) (acc : string) :
  digits_of fuel n acc = (digits_of fuel n EmptyString ++ acc)%string.
Proof.
  revert n acc. induction fuel as [|fuel IH]; intros n acc; [reflexivity|].
  cbn [digits_of]. destruct (n <? 10); [reflexivity|].
  rewrite (IH (n / 10) (String _ acc)), (IH (n / 10) (String _ EmptyString)).
  rewrite str_app_assoc. reflexivity.
Qed.

Lemma digits_of_value (fuel : nat) (n : Z) :
  (1 <= fuel)%nat -> 0 <= n < 10 ^ Z.of_nat fuel ->
  all_digits (digits_of fuel n EmptyString) = true
  /\ digits_of fuel n EmptyString <> EmptyString
  /\ parse_digits 0 (digits_of fuel n EmptyString) = Some n.
Proof.
  revert n. induction fuel as [|fuel IH]; intros n Hf Hn; [lia|].
  cbn [digits_of].
  pose proof (Z.mod_pos_bound n 10 ltac:(lia)) as Hd.
  destruct (digit_char_ok (n mod 10) Hd) as [Hdig Hval].
  destruct (Z.ltb_spec n 10) as [Hsmall|Hbig].
  - cbn [all_digits parse_digits]. rewrite Hdig. cbn [andb parse_digits].
    rewrite Hval. split; [reflexivity|]. split; [discriminate|].
    f_equal. rewrite Z.mod_small; lia.
  - rewrite digits_of_app.
    rewrite Nat2Z.inj_succ, Z.pow_succ_r in Hn by lia.
    assert (Hfuel : (1 <= fuel)%nat).
    { destruct fuel; [|lia]. change (10 ^ Z.of_nat 0) with 1 in Hn. lia. }
    destruct (IH (n / 10) Hfuel) as (Hall & Hne & Hparse).
    { split; [apply Z.div_pos; lia|]. apply Z.div_lt_upper_bound; lia. }
    rewrite all_digits_app, parse_digits_app, Hall, Hparse.
    cbn [all_digits parse_digits]. rewrite Hdig. cbn [andb parse_digits].
    rewrite Hval.
    split; [reflexivity|]. split.
    + destruct (digits_of fuel (n / 10) EmptyString); [congruence|discriminate].
    + f_equal. pose proof (Z.div_mod n 10 ltac:(lia)). lia.
Qed.

(** [%d] of a non-negative number: its digits, at least one, which spell the
    number. *)
Lemma itoa_nonneg (n : Z) :
  0 <= n ->
  all_digits (itoa n) = true /\ itoa n <> EmptyString
  /\ parse_digits 0 (itoa n) = Some n.
Proof.
  intros Hn. unfold itoa. destruct (Z.ltb_spec n 0); [lia|].
  apply digits_of_value; [lia|]. split; [lia|].
  rewrite Nat2Z.inj_succ, Z2Nat.id by apply Z.log2_nonneg.
  destruct (Z.eq_dec n 0) as [->|Hnz]; [reflexivity|].
  pose proof (Z.log2_spec n ltac:(lia)) as [_ Hlog].
  apply Z.lt_le_trans with (2 ^ Z.succ (Z.log2 n)); [exact Hlog|].
  apply Z.pow_le_mono_l. lia.
Qed.

Lemma Atoi_digits (a : int_size) (s : string) (v : Z) :
  s <> EmptyString -> all_digits s = true -> parse_digits 0 s = Some v ->
  0 <= v <= max_int a ->
  Atoi a s = (v, None).
Proof.
  intros Hne Hall Hparse Hv.
  destruct s as [|c r]; [congruence|].
  cbn [all_digits] in Hall. apply andb_true_iff in Hall. destruct Hall as [Hc _].
  pose proof (min_int_upper a) as Hmin.
  unfold Atoi.
  destruct c as [[] [] [] [] [] [] [] []]; try discriminate Hc;
    cbv beta iota; rewrite Hparse;
    (destruct (Z.ltb_spec v (min_int a)); [lia|]);
    (destruct (Z.ltb_spec (max_int a) v); [lia|]); reflexivity.
Qed.

Lemma marshalOID_atoi_itoa (a : int_size) (seq : list Z) :
  Forall (fun n => 0 <= n <= max_int a) seq ->
  marshalOID_atoi a (map itoa seq) = (seq, None).
Proof.
  induction 1 as [|n seq Hn _ IH]; [reflexivity|].
  cbn [map marshalOID_atoi].
  destruct (itoa_nonneg n) as (Hall & Hne & Hparse); [lia|].
  rewrite (Atoi_digits a (itoa n) n Hne Hall Hparse Hn), IH. reflexivity.
Qed.

(** * Trimming and splitting *)

Lemma Split_dot_no_dots (s : string) : no_dots s = true -> Split_dot s = [s].
Proof.
  induction s as [|c s IH]; [reflexivity|]. cbn. intros H.
  apply andb_true_iff in H. destruct H as [Hc Hs].
  destruct (is_dot c); [discriminate|]. rewrite (IH Hs). reflexivity.
Qed.

Lemma Split_dot_app (s t : string) :
  no_dots s = true ->
  Split_dot (s ++ String "."%char t) = s :: Split_dot t.
Proof.
  induction s as [|c s IH]; [reflexivity|]. cbn. intros H.
  apply andb_true_iff in H. destruct H as [Hc Hs].
  destruct (is_dot c); [discriminate|]. rewrite (IH Hs). reflexivity.
Qed.

Lemma TrimRight_dot_keeps (s : string) (c : ascii) :
  is_dot c = false ->
  TrimRight_dot (s ++ String c EmptyString) = (s ++ String c EmptyString)%string.
Proof.
  intros Hc. induction s as [|x s IH].
  - cbn. rewrite Hc. reflexivity.
  - cbn [append TrimRight_dot]. rewrite IH.
    destruct s; reflexivity.
Qed.

Lemma all_digits_last (s : string) :
  s <> EmptyString -> all_digits s = true ->
  exists s' c, s = (s' ++ String c EmptyString)%string /\ is_dot c = false.
Proof.
  induction s as [|x s IH]; [congruence|]. intros _ H.
  cbn in H. apply andb_true_iff in H. destruct H as [Hx Hs].
  destruct s as [|y s].
  - exists EmptyString, x. split; [reflexivity|]. apply is_digit_not_dot, Hx.
  - destruct (IH ltac:(discriminate) Hs) as (s' & c & E & Hc).
    exists (String x s'), c. rewrite E. split; [reflexivity|exact Hc].
Qed.

Lemma dotted_cons2 (n m : Z) (rest : list Z) :
  dotted (n :: m :: rest) = (itoa n ++ String "."%char (dotted (m :: rest)))%string.
Proof. reflexivity. Qed.

(** The rendering of non-negative components: it splits back into the
    numbers, starts with a digit and ends with one. *)
Lemma dotted_shape (seq : list Z) :
  seq <> [] -> Forall (fun n => 0 <= n) seq ->
  Split_dot (dotted seq) = map itoa seq
  /\ (exists c r, dotted seq = String c r /\ is_dot c = false)
  /\ (exists s' c, dotted seq = (s' ++ String c EmptyString)%string /\ is_dot c = false).
Proof.
  induction seq as [|n seq IH]; [congruence|]. intros _ Hall.
  inversion Hall as [|? ? Hn Hall']; subst.
  destruct (itoa_nonneg n Hn) as (Hdig & Hne & _).
  assert (Hfirst : exists c r, itoa n = String c r /\ is_dot c = false).
  { destruct (itoa n) as [|c r]; [congruence|].
    exists c, r. split; [reflexivity|].
    cbn in Hdig. apply andb_true_iff in Hdig. apply is_digit_not_dot, Hdig. }
  destruct seq as [|m rest].
  - cbn [dotted map]. split; [apply Split_dot_no_dots, all_digits_no_dots, Hdig|].
    split; [exact Hfirst|]. apply all_digits_last; assumption.
  - rewrite dotted_cons2.
    destruct (IH ltac:(discriminate) Hall') as (Hsplit & _ & (s' & c & E & Hc)).
    split; [|split].
    + rewrite Split_dot_app by (apply all_digits_no_dots, Hdig).
      rewrite Hsplit. reflexivity.
    + destruct Hfirst as (c0 & r0 & E0 & Hc0). rewrite E0.
      exists c0. eexists. split; [reflexivity|exact Hc0].
    + exists (itoa n ++ String "."%char s')%string, c. split; [|exact Hc].
      rewrite E, str_app_assoc. reflexivity.
Qed.

Lemma Trim_dot_dotted (seq : list Z) :
  seq <> [] -> Forall (fun n => 0 <= n) seq -> Trim_dot (dotted seq) = dotted seq.
Proof.
  intros Hne Hall.
  destruct (dotted_shape seq Hne Hall) as (_ & (c & r & E & Hc) & (s' & c' & E' & Hc')).
  unfold Trim_dot.
  assert (Hleft : TrimLeft_dot (dotted seq) = dotted seq).
  { rewrite E. cbn. rewrite Hc. reflexivity. }
  rewrite Hleft, E'. apply TrimRight_dot_keeps, Hc'.
Qed.

Lemma oidToString_loop_dotted (rest : list Z) :
  forall (ret : string) (n : Z),
    oidToString_loop ret (n :: rest)
    = (ret ++ String "."%char (dotted (n :: rest)))%string.
Proof.
  induction rest as [|m rest IH]; intros ret n.
  - reflexivity.
  - cbn [oidToString_loop]. cbn [oidToString_loop] in IH. rewrite IH.
    rewrite dotted_cons2, str_app_assoc. reflexivity.
Qed.

Lemma oidToString_dotted (seq : list Z) :
  seq <> [] -> oidToString seq = Return (dotted seq).
Proof.
  destruct seq as [|n rest]; [congruence|]. intros _.
  unfold oidToString. rewrite oidToString_loop_dotted. reflexivity.
Qed.

(** * The object identifier round trip *)

Lemma first_byte_splits (s0 s1 : Z) :
  0 <= s0 -> 0 <= s1 < 40 -> 40 * s0 + s1 <= 255 ->
  u8 (byte_of (40 * s0 + s1)) / 40 = s0 /\ u8 (byte_of (40 * s0 + s1)) mod 40 = s1.
Proof.
  intros H0 H1 H. rewrite byte_of_small by lia.
  replace (40 * s0 + s1) with (s1 + s0 * 40) by lia.
  rewrite Z.div_add, Z.mod_add by lia.
  rewrite Z.div_small, Z.mod_small by lia. lia.
Qed.

(** C5, as amended: for every sequence whose two leading components fit the
    first byte ([0 <= seq[0]], [0 <= seq[1] < 40], [40*seq[0]+seq[1] <= 255])
    and whose further components are non-negative, below [2^35] and within
    [int], the canonical string [s] of the sequence survives the round trip:
    [marshalOID] encodes it, [parseObjectIdentifier] reads the sequence
    back, and [oidToString] renders [s] again. *)
Theorem oid_round_trip_canonical (a : int_size) (seq : list Z) :
  round_trip_oid a seq ->
  exists bytes,
    marshalOID a (dotted seq) = (bytes, None)
    /\ parseObjectIdentifier a bytes = Return (seq, None)
    /\ oidToString seq = Return (dotted seq)
    /\ oid_round_trip a (dotted seq) = Return (Some (dotted seq)).
Proof.
  intros (s0 & s1 & rest & -> & H0 & H1 & Hbyte & Hrest).
  set (seq := s0 :: s1 :: rest).
  pose proof (max_int_lower a) as Hmax.
  assert (Hne : seq <> []) by discriminate.
  assert (Hnonneg : Forall (fun n => 0 <= n) seq).
  { repeat constructor; try lia.
    eapply Forall_impl; [|exact Hrest]. cbn. intros n Hn. lia. }
  assert (Hint : Forall (fun n => 0 <= n <= max_int a) seq).
  { repeat constructor; try lia.
    eapply Forall_impl; [|exact Hrest]. cbn. intros n Hn. lia. }
  assert (Henc : flat_map (fun n => base128_bytes (to_int64 n)) rest
                 = flat_map base128_bytes rest).
  { clear -Hrest. induction Hrest as [|n rest [Hn _] _ IH]; [reflexivity|].
    cbn [flat_map]. rewrite IH. f_equal. f_equal.
    unfold to_int64. apply wrap_signed_small; [lia|].
    change (2 ^ (64 - 1)) with (2 ^ 63).
    assert (2 ^ 35 < 2 ^ 63) by reflexivity. lia. }
  set (bytes := byte_of (40 * s0 + s1) :: flat_map base128_bytes rest).
  assert (Hmarshal : marshalOID a (dotted seq) = (bytes, None)).
  { unfold marshalOID.
    rewrite (Trim_dot_dotted seq Hne Hnonneg).
    destruct (dotted_shape seq Hne Hnonneg) as (Hsplit & _). rewrite Hsplit.
    rewrite (marshalOID_atoi_itoa a seq Hint).
    destruct (marshalObjectIdentifier_cases a seq) as [[Hc _]|[_ E]].
    - exfalso. unfold seq in Hc. rewrite !len_cons in Hc. cbn [nth] in Hc.
      pose proof (len_nonneg rest). lia.
    - rewrite E. unfold seq. cbn [nth skipn]. rewrite Henc. reflexivity. }
  assert (Hparse : parseObjectIdentifier a bytes = Return (seq, None)).
  { unfold bytes, parseObjectIdentifier.
    destruct (first_byte_splits s0 s1 H0 H1 Hbyte) as [-> ->].
    apply (parseObjectIdentifier_loop_components a rest _ [s0; s1]
             [byte_of (40 * s0 + s1)] Hrest).
    unfold len. cbn [List.length]. lia. }
  assert (Hstr : oidToString seq = Return (dotted seq)) by (apply oidToString_dotted, Hne).
  exists bytes. repeat split; try assumption.
  unfold oid_round_trip. rewrite Hmarshal, Hparse. cbn [bind]. rewrite Hstr. reflexivity.
Qed.

Lemma oid_round_trip_canonical_witness :
  round_trip_oid Int64 [1; 3; 6; 1; 4; 1; 2680; 1; 2; 7; 3; 2; 0] /\
  oid_round_trip Int64 "1.3.6.1.4.1.2680.1.2.7.3.2.0"
  = Return (Some "1.3.6.1.4.1.2680.1.2.7.3.2.0"%string).
Proof.
  assert (H : round_trip_oid Int64 [1; 3; 6; 1; 4; 1; 2680; 1; 2; 7; 3; 2; 0]).
  { exists 1, 3, [6; 1; 4; 1; 2680; 1; 2; 7; 3; 2; 0].
    split; [reflexivity|]. split; [lia|]. split; [lia|]. split; [lia|].
    repeat constructor; vm_compute; congruence. }
  split; [exact H|].
  destruct (oid_round_trip_canonical Int64 _ H) as (bytes & _ & _ & _ & E).
  exact E.
Defined.

(** C5, as stated, fails on strings [marshalOID] accepts.  With a 64-bit
    [int], 1.3.34359738368 is encoded in six groups and the decoder, which
    stops after five, rejects the bytes.  And 6.16 passes the checks of the
    encoder, is written as the byte 0 and comes back as 0.0. *)
Lemma oid_round_trip_breaks :
  snd (marshalOID Int64 "1.3.34359738368") = None
  /\ bind (parseObjectIdentifier Int64 (fst (marshalOID Int64 "1.3.34359738368")))
          (fun r => Return (snd r))
     = Return (Some ErrBase128TooLarge)
  /\ oid_round_trip Int64 "1.3.34359738368" = Return None
  /\ oid_round_trip Int64 "6.16" = Return (Some "0.0"%string).
Proof.
  repeat split; vm_compute; reflexivity.
Qed.

(** * More on the integer decoders *)

(** X1: [parseInt64] reads up to eight bytes as a big-endian two's-complement
    number, whatever their count, and rejects anything longer. *)
Theorem parseInt64_decodes_twos_complement (b : list byte) :
  (len b <= 8 -> parseInt64 b = (twos_complement b, None))
  /\ (8 < len b -> parseInt64 b = (0, Some ErrIntegerTooLarge)).
Proof.
  split; intros H.
  - apply parseInt64_value. exact H.
  - unfold parseInt64. destruct (Z.ltb_spec 8 (len b)); [reflexivity|lia].
Qed.

Lemma parseInt64_decodes_twos_complement_witness :
  parseInt64 (bytes_of [0xff; 0x7f]) = (-129, None)
  /\ parseInt64 (bytes_of [1; 2; 3; 4; 5; 6; 7; 8; 9]) = (0, Some ErrIntegerTooLarge).
Proof.
  split.
  - rewrite (proj1 (parseInt64_decodes_twos_complement (bytes_of [0xff; 0x7f])));
      [reflexivity|vm_compute; discriminate].
  - apply (proj2 (parseInt64_decodes_twos_complement (bytes_of [1; 2; 3; 4; 5; 6; 7; 8; 9]))).
    reflexivity.
Defined.

(** X2: A leading zero byte makes the rest unsigned: up to seven bytes behind it
    are returned as their plain big-endian value, never negative. *)
Theorem parseInt64_leading_zero_is_unsigned (b : list byte) :
  len b <= 7 ->
  parseInt64 (x00 :: b) = (be_value b, None) /\ 0 <= be_value b.
Proof.
  intros H. pose proof (be_value_range b) as Hr. pose proof (len_nonneg b) as Hn.
  split; [|lia].
  rewrite parseInt64_value by (rewrite len_cons; lia).
  f_equal. unfold twos_complement. rewrite be_value_cons, len_cons.
  change (u8 x00) with 0. rewrite Z.mul_0_l, Z.add_0_l.
  destruct (Z.ltb_spec 0 (len b + 1)); [|lia]. cbn [andb].
  replace (8 * (len b + 1) - 1) with (7 + 8 * len b) by lia.
  rewrite Z.pow_add_r by lia.
  replace (256 ^ len b) with (2 ^ (8 * len b)) in Hr
    by (rewrite Z.pow_mul_r by lia; reflexivity).
  destruct (Z.leb_spec (2 ^ 7 * 2 ^ (8 * len b)) (be_value b)); [|reflexivity].
  change (2 ^ 7) with 128 in *. nia.
Qed.

Lemma parseInt64_leading_zero_is_unsigned_witness :
  parseInt64 (bytes_of [0x00; 0xff; 0xff]) = (65535, None).
Proof.
  destruct (parseInt64_leading_zero_is_unsigned (bytes_of [0xff; 0xff])) as [H _].
  - vm_compute. discriminate.
  - exact H.
Defined.

Lemma parseUint64_step (r : Z) (x : byte) :
  Z.lor (to_uint64 (Z.shiftl r 8)) (u8 x) = to_uint64 (r * 256 + u8 x).
Proof.
  pose proof (u8_range x) as Hx.
  rewrite Z.shiftl_mul_pow2 by lia. change (2 ^ 8) with 256.
  unfold to_uint64, wrap_unsigned.
  assert (Hm : ((r * 256) mod 2 ^ 64) mod 256 = 0).
  { rewrite Z.mod_mod_divide by (exists (2 ^ 56); reflexivity). apply Z.mod_mul. lia. }
  pose proof (Z.mod_pos_bound (r * 256) (2 ^ 64) ltac:(lia)) as Hr.
  rewrite (lor_low_bits _ _ 8) by (try assumption; lia).
  assert (Hle : (r * 256) mod 2 ^ 64 <= 2 ^ 64 - 256).
  { apply Z.mod_divide in Hm; [|lia]. destruct Hm as [q Hq].
    rewrite Hq in *. change (2 ^ 64) with (2 ^ 56 * 256) in *. nia. }
  rewrite <- (Z.mod_small ((r * 256) mod 2 ^ 64 + u8 x) (2 ^ 64)) by lia.
  apply Zplus_mod_idemp_l.
Qed.

Lemma parseUint64_loop_value (l : list byte) (r : Z) :
  to_uint64 r = r ->
  parseUint64_loop r l = to_uint64 (fold_left (fun acc x => acc * 256 + u8 x) l r).
Proof.
  revert r. induction l as [|x l IH]; intros r Hr.
  - cbn. symmetry. exact Hr.
  - cbn [parseUint64_loop fold_left]. rewrite parseUint64_step.
    rewrite IH.
    + rewrite be_fold_shift. rewrite (be_fold_shift l (r * 256 + u8 x)).
      unfold to_uint64, wrap_unsigned.
      rewrite <- Zplus_mod_idemp_l, Zmult_mod_idemp_l, Zplus_mod_idemp_l. reflexivity.
    + unfold to_uint64, wrap_unsigned. apply Z.mod_mod. lia.
Qed.

Lemma be_value_below_pow2 (b : list byte) : 0 <= be_value b < 2 ^ (8 * len b).
Proof.
  pose proof (be_value_range b) as H. pose proof (len_nonneg b).
  rewrite Z.pow_mul_r by lia. exact H.
Qed.

Lemma parseUint64_value (b : list byte) :
  len b <= 8 -> parseUint64 b = (be_value b, None).
Proof.
  intros H. unfold parseUint64.
  destruct (Z.ltb_spec 8 (len b)); [lia|].
  rewrite parseUint64_loop_value by reflexivity. f_equal.
  fold (be_value b). unfold to_uint64, wrap_unsigned.
  pose proof (be_value_below_pow2 b) as Hr. pose proof (len_nonneg b).
  assert (2 ^ (8 * len b) <= 2 ^ 64) by (apply Z.pow_le_mono_r; lia).
  apply Z.mod_small. lia.
Qed.

(** X3: [parseUint64] reads up to eight bytes as a big-endian unsigned number
    and rejects anything longer. *)
Theorem parseUint64_decodes_big_endian (b : list byte) :
  (len b <= 8 -> parseUint64 b = (be_value b, None))
  /\ (8 < len b -> parseUint64 b = (0, Some ErrIntegerTooLarge)).
Proof.
  split; intros H.
  - apply parseUint64_value. exact H.
  - unfold parseUint64. destruct (Z.ltb_spec 8 (len b)); [reflexivity|lia].
Qed.

Lemma parseUint64_decodes_big_endian_witness :
  parseUint64 (bytes_of [0xff; 0x7f]) = (65407, None)
  /\ parseUint64 (bytes_of [1; 2; 3; 4; 5; 6; 7; 8; 9]) = (0, Some ErrIntegerTooLarge).
Proof.
  split.
  - rewrite (proj1 (parseUint64_decodes_big_endian (bytes_of [0xff; 0x7f])));
      [reflexivity|vm_compute; discriminate].
  - apply (proj2 (parseUint64_decodes_big_endian (bytes_of [1; 2; 3; 4; 5; 6; 7; 8; 9]))).
    reflexivity.
Defined.

Lemma parseUint_value (a : int_size) (b : list byte) :
  len b <= 8 ->
  parseUint a b =
    if be_value b <? 2 ^ int_bits a then (be_value b, None)
    else (0, Some ErrIntegerTooLarge).
Proof.
  intros H. unfold parseUint. rewrite (parseUint64_value b H).
  pose proof (be_value_below_pow2 b) as Hr. pose proof (len_nonneg b).
  assert (H64 : 2 ^ (8 * len b) <= 2 ^ 64) by (apply Z.pow_le_mono_r; lia).
  assert (Hw : 0 < 2 ^ int_bits a <= 2 ^ 64) by (destruct a; cbn; lia).
  unfold to_uint64, to_uint, wrap_unsigned.
  pose proof (Z.mod_pos_bound (be_value b) (2 ^ int_bits a) ltac:(lia)) as Hm.
  rewrite (Z.mod_small (be_value b mod 2 ^ int_bits a) (2 ^ 64)) by lia.
  destruct (Z.ltb_spec (be_value b) (2 ^ int_bits a)) as [Hfit|Hbig].
  - rewrite Z.mod_small by lia. rewrite Z.eqb_refl. reflexivity.
  - destruct (Z.eqb_spec (be_value b) (be_value b mod 2 ^ int_bits a)); [lia|reflexivity].
Qed.

(** X4: [parseUint] returns the big-endian unsigned value of up to eight bytes
    when it fits the platform's [uint], and fails with "integer too large"
    when it does not or when there are more than eight bytes. *)
Theorem parseUint_fails_iff_value_exceeds_uint (a : int_size) (b : list byte) :
  (len b <= 8 -> be_value b < 2 ^ int_bits a -> parseUint a b = (be_value b, None))
  /\ (len b <= 8 -> 2 ^ int_bits a <= be_value b ->
      parseUint a b = (0, Some ErrIntegerTooLarge))
  /\ (8 < len b -> parseUint a b = (0, Some ErrIntegerTooLarge)).
Proof.
  split; [|split].
  - intros H Hfit. rewrite (parseUint_value a b H).
    destruct (Z.ltb_spec (be_value b) (2 ^ int_bits a)); [reflexivity|lia].
  - intros H Hbig. rewrite (parseUint_value a b H).
    destruct (Z.ltb_spec (be_value b) (2 ^ int_bits a)); [lia|reflexivity].
  - intros H. unfold parseUint, parseUint64.
    destruct (Z.ltb_spec 8 (len b)); [reflexivity|lia].
Qed.

Lemma parseUint_fails_iff_value_exceeds_uint_witness :
  parseUint Int32 (bytes_of [0xff; 0xff; 0xff; 0xff]) = (4294967295, None)
  /\ parseUint Int32 (bytes_of [1; 0; 0; 0; 0]) = (0, Some ErrIntegerTooLarge)
  /\ parseUint Int64 (bytes_of [1; 2; 3; 4; 5; 6; 7; 8; 9]) = (0, Some ErrIntegerTooLarge).
Proof.
  split; [|split].
  - rewrite (proj1 (parseUint_fails_iff_value_exceeds_uint Int32
                      (bytes_of [0xff; 0xff; 0xff; 0xff])));
      [reflexivity|vm_compute; discriminate|vm_compute; reflexivity].
  - apply (proj1 (proj2 (parseUint_fails_iff_value_exceeds_uint Int32
                           (bytes_of [1; 0; 0; 0; 0]))));
      vm_compute; discriminate.
  - apply (proj2 (proj2 (parseUint_fails_iff_value_exceeds_uint Int64
                           (bytes_of [1; 2; 3; 4; 5; 6; 7; 8; 9])))).
    reflexivity.
Defined.

(** X5: [parseUint16] loses the first byte: shifted left by eight within a
    [uint8] it is zero, so a slice of two or more bytes gives just the value
    of its second byte, and a shorter slice panics. *)
Theorem parseUint16_returns_second_byte (content : list byte) :
  (forall c0 c1 rest, content = c0 :: c1 :: rest -> parseUint16 content = Return (u8 c1))
  /\ (len content < 2 -> parseUint16 content = Panic).
Proof.
  split.
  - intros c0 c1 rest ->. unfold parseUint16.
    change (index (c0 :: c1 :: rest) 1) with (Return c1).
    change (index (c0 :: c1 :: rest) 0) with (Return c0).
    cbn [bind]. unfold shl_byte. change (8 <=? 8) with true. cbv iota.
    change (u8 x00) with 0. rewrite Z.lor_0_r, byte_of_u8. reflexivity.
  - intros H. destruct content as [|c0 [|c1 rest]]; try reflexivity.
    rewrite !len_cons in H. pose proof (len_nonneg rest). lia.
Qed.

Lemma parseUint16_returns_second_byte_witness :
  parseUint16 (bytes_of [0x12; 0x34]) = Return 0x34
  /\ parseUint16 (bytes_of [0x12]) = Panic.
Proof.
  split.
  - apply (proj1 (parseUint16_returns_second_byte (bytes_of [0x12; 0x34]))
             (byte_of 0x12) (byte_of 0x34) []).
    reflexivity.
  - apply (proj2 (parseUint16_returns_second_byte (bytes_of [0x12]))).
    vm_compute. reflexivity.
Defined.

(** X6: Over the whole [uint64] range [uint64ToBigInt] returns its argument. *)
Theorem uint64ToBigInt_is_exact (n : Z) :
  0 <= n < 2 ^ 64 -> uint64ToBigInt n = n.
Proof.
  intros Hn. unfold uint64ToBigInt, MaxInt64.
  destruct (Z.leb_spec n (2 ^ 63 - 1)).
  - unfold to_int64. apply wrap_signed_small; [lia|].
    change (2 ^ (64 - 1)) with (2 ^ 63). lia.
  - unfold to_int64, to_uint64, wrap_signed, wrap_unsigned.
    change (2 ^ (64 - 1)) with (2 ^ 63).
    rewrite (Z.mod_small (n - (2 ^ 63 - 1))) by lia.
    rewrite (Z.mod_small (n - (2 ^ 63 - 1) - 1)) by lia.
    rewrite Z.mod_small by lia.
    change uint64ToBigIntDelta with (2 ^ 63). lia.
Qed.

Lemma uint64ToBigInt_is_exact_witness :
  uint64ToBigInt 12345678901234567890 = 12345678901234567890.
Proof.
  apply (uint64ToBigInt_is_exact 12345678901234567890). lia.
Defined.

(** * More on the base-128 codec *)

Lemma base128_groups_shape (n : Z) (k : nat) :
  (1 <= k)%nat ->
  exists front last,
    base128_groups n k = front ++ [last]
    /\ forallb continues front = true /\ continues last = false
    /\ len front = Z.of_nat k - 1.
Proof.
  induction k as [|i IH]; [lia|]. intros _.
  cbn [base128_groups].
  set (g := Z.shiftr n (7 * Z.of_nat i) mod 128).
  assert (Hg : 0 <= g < 128) by (apply Z.mod_pos_bound; lia).
  destruct i as [|i'].
  - exists [], (byte_of (g + 0)). cbn [Nat.eqb base128_groups app forallb].
    repeat split. unfold continues. rewrite byte_of_small by lia.
    destruct (Z.leb_spec 128 (g + 0)); [lia|reflexivity].
  - destruct (IH ltac:(lia)) as (front & last & E & Hf & Hl & Hlen).
    exists (byte_of (g + 128) :: front), last.
    cbn [Nat.eqb]. rewrite E. cbn [app forallb]. rewrite Hf, Hl, len_cons.
    repeat split; [|lia].
    unfold continues. rewrite byte_of_small by lia.
    destruct (Z.leb_spec 128 (g + 128)); [reflexivity|lia].
Qed.

(** X7: What [marshalBase128Int] adds to the buffer delimits itself: for a
    non-negative [int64] it is one to nine bytes, every one but the last
    with its top bit set and the last with it clear; for a negative number
    it is nothing, and no error is reported either way. *)
Theorem marshalBase128Int_self_delimiting (out : list byte) (n : Z) :
  (0 <= n < 2 ^ 63 ->
   exists front last,
     marshalBase128Int out n = (out ++ front ++ [last], None)
     /\ forallb continues front = true /\ continues last = false
     /\ len front <= 8)
  /\ (n < 0 -> marshalBase128Int out n = (out, None)).
Proof.
  split; intros Hn.
  - rewrite marshalBase128Int_appends.
    destruct (Z.eq_dec n 0) as [->|Hnz].
    + exists [], x00. repeat split. cbn. lia.
    + destruct (base128_bytes_groups n Hn) as (k & E & Hk & _ & Hlow).
      specialize (Hlow ltac:(lia)).
      destruct (base128_groups_shape n k Hk) as (front & last & Es & Hf & Hl & Hlen).
      exists front, last. rewrite E, Es. repeat split; try assumption.
      assert (H : 2 ^ (7 * (Z.of_nat k - 1)) < 2 ^ 63) by lia.
      apply Z.pow_lt_mono_r_iff in H; lia.
  - rewrite marshalBase128Int_appends, base128_bytes_negative by exact Hn.
    rewrite app_nil_r. reflexivity.
Qed.

Lemma marshalBase128Int_self_delimiting_witness :
  exists front last,
    marshalBase128Int [x2b] 2680 = ([x2b] ++ front ++ [last], None)
    /\ forallb continues front = true /\ continues last = false
    /\ len front <= 8.
Proof.
  apply (proj1 (marshalBase128Int_self_delimiting [x2b] 2680)). lia.
Defined.

(** X8: What the encoder writes the decoder reads back: a value below [2^35]
    that fits [int], written behind any buffer content and followed by any
    bytes, is returned with the offset just past its encoding. *)
Theorem base128_round_trip (a : int_size) (out post : list byte) (n : Z) :
  0 <= n < 2 ^ 35 -> n <= max_int a ->
  exists out',
    marshalBase128Int out n = (out', None)
    /\ parseBase128Int a (out' ++ post) (len out) = Return (n, len out', None).
Proof.
  intros Hn Hmax. exists (out ++ base128_bytes n).
  split; [apply marshalBase128Int_appends|].
  rewrite <- app_assoc, len_app.
  apply parseBase128Int_base128_bytes; assumption.
Qed.

Lemma base128_round_trip_witness :
  exists out',
    marshalBase128Int [x2b] 2680 = (out', None)
    /\ parseBase128Int Int32 (out' ++ [x01]) (len [x2b]) = Return (2680, len out', None).
Proof.
  apply (base128_round_trip Int32 [x2b] [x01] 2680).
  - lia.
  - vm_compute. discriminate.
Defined.

Lemma parseBase128Int_loop_bounds (a : int_size) (bytes : list byte) (budget : nat) :
  forall ret offset, 0 <= offset ->
    exists ret' offset' err,
      parseBase128Int_loop a bytes budget ret offset = Return (ret', offset', err)
      /\ offset <= offset' <= offset + Z.of_nat budget
      /\ (err = None -> offset < offset' <= len bytes)
      /\ (err = Some ErrBase128TooLarge ->
          offset' = offset + Z.of_nat budget /\ offset' < len bytes)
      /\ (err = Some ErrBase128Truncated -> len bytes <= offset')
      /\ (err = None \/ err = Some ErrBase128TooLarge \/ err = Some ErrBase128Truncated).
Proof.
  induction budget as [|budget IH]; intros ret offset Hoff; cbn [parseBase128Int_loop].
  - destruct (Z.ltb_spec offset (len bytes)); eexists _, _, _;
      (split; [reflexivity|]); repeat split; intros; try discriminate; try lia; auto.
  - destruct (Z.ltb_spec offset (len bytes)) as [Hlt|Hge].
    + destruct (index_in_range bytes offset) as [b Hb]; [lia|].
      rewrite Hb. cbn [bind].
      destruct (Z.land (u8 b) 128 =? 0).
      * eexists _, _, _. split; [reflexivity|].
        repeat split; intros; try discriminate; try lia; auto.
      * destruct (IH (Z.lor (to_int a (Z.shiftl ret 7)) (Z.land (u8 b) 127)) (offset + 1))
          as (ret' & offset' & err & E & Hb1 & Hok & Hbig & Htr & Hcases); [lia|].
        rewrite E. exists ret', offset', err. split; [reflexivity|].
        split; [lia|].
        split; [intros H; specialize (Hok H); lia|].
        split; [intros H; specialize (Hbig H); lia|].
        split; [exact Htr|exact Hcases].
    + eexists _, _, _. split; [reflexivity|].
      repeat split; intros; try discriminate; try lia; auto.
Qed.

(** X9: [parseBase128Int] never panics from a non-negative offset.  A success
    has consumed between one and five bytes of the buffer; "too large" is
    reported after exactly five bytes with more to come; "truncated" means
    the buffer ended first; and there is no other error. *)
Theorem parseBase128Int_outcomes (a : int_size) (bytes : list byte) (initOffset : Z) :
  0 <= initOffset ->
  exists ret offset err,
    parseBase128Int a bytes initOffset = Return (ret, offset, err)
    /\ initOffset <= offset <= initOffset + 5
    /\ (err = None -> initOffset < offset <= len bytes)
    /\ (err = Some ErrBase128TooLarge -> offset = initOffset + 5 /\ offset < len bytes)
    /\ (err = Some ErrBase128Truncated -> len bytes <= offset)
    /\ (err = None \/ err = Some ErrBase128TooLarge \/ err = Some ErrBase128Truncated).
Proof.
  intros H. unfold parseBase128Int.
  exact (parseBase128Int_loop_bounds a bytes 5 0 initOffset H).
Qed.

Lemma parseBase128Int_outcomes_witness :
  exists ret offset err,
    parseBase128Int Int64 (bytes_of [0x81; 0x82; 0x83]) 0 = Return (ret, offset, err)
    /\ 0 <= offset <= 0 + 5.
Proof.
  destruct (parseBase128Int_outcomes Int64 (bytes_of [0x81; 0x82; 0x83]) 0)
    as (ret & offset & err & E & Hb & _); [lia|].
  exists ret, offset, err. split; assumption.
Defined.

Lemma parseBase128Int_loop_too_many_groups (a : int_size) (n : Z) (budget : nat) :
  forall (todo : nat) (ret : Z) (pre post : list byte),
    (budget < todo)%nat ->
    exists ret',
      parseBase128Int_loop a (pre ++ base128_groups n todo ++ post) budget ret (len pre)
      = Return (ret', len pre + Z.of_nat budget, Some ErrBase128TooLarge).
Proof.
  induction budget as [|budget IH]; intros todo ret pre post Hlt;
    (destruct todo as [|i]; [lia|]); cbn [parseBase128Int_loop base128_groups].
  - set (bytes := pre ++ _).
    assert (Hlen : len pre < len bytes).
    { unfold bytes. rewrite len_app. cbn [app]. rewrite len_cons.
      pose proof (len_nonneg (base128_groups n i ++ post)). lia. }
    destruct (Z.ltb_spec (len pre) (len bytes)); [|lia].
    eexists. f_equal. f_equal. f_equal. lia.
  - set (g := Z.shiftr n (7 * Z.of_nat i) mod 128).
    assert (Hg : 0 <= g < 128) by (apply Z.mod_pos_bound; lia).
    destruct i as [|i']; [lia|]. cbn [Nat.eqb].
    set (bytes := pre ++ _).
    assert (Hlen : len pre < len bytes).
    { unfold bytes. rewrite len_app. cbn [app]. rewrite len_cons.
      pose proof (len_nonneg (base128_groups n (S i') ++ post)). lia. }
    destruct (Z.ltb_spec (len pre) (len bytes)); [|lia].
    unfold bytes. cbn [app]. rewrite index_app_len. cbn [bind].
    rewrite land_80, byte_of_small by lia.
    destruct (Z.ltb_spec (g + 128) 128); [lia|].
    change (128 =? 0) with false. cbv iota.
    replace (pre ++ byte_of (g + 128) :: base128_groups n (S i') ++ post)
      with ((pre ++ [byte_of (g + 128)]) ++ base128_groups n (S i') ++ post)
      by (rewrite <- app_assoc; reflexivity).
    replace (len pre + 1) with (len (pre ++ [byte_of (g + 128)]))
      by (rewrite len_app; reflexivity).
    destruct (IH (S i') (Z.lor (to_int a (Z.shiftl ret 7)) (Z.land (g + 128) 127))
                (pre ++ [byte_of (g + 128)]) post ltac:(lia)) as (ret' & E).
    rewrite E. exists ret'. f_equal. f_equal. f_equal.
    rewrite len_app. change (len [byte_of (g + 128)]) with 1. lia.
Qed.

(** X10: The encoder goes further than the decoder: from [2^35] on it writes six
    groups or more, and on those bytes the decoder gives up after five with
    "base 128 integer too large". *)
Theorem base128_decoder_rejects_large_encodings (a : int_size) (out post : list byte)
    (n : Z) :
  2 ^ 35 <= n < 2 ^ 63 ->
  exists out' ret,
    marshalBase128Int out n = (out', None)
    /\ parseBase128Int a (out' ++ post) (len out)
       = Return (ret, len out + 5, Some ErrBase128TooLarge).
Proof.
  intros Hn.
  assert (H35 : 0 < 2 ^ 35) by reflexivity.
  destruct (base128_bytes_groups n) as (k & E & _ & Hlt & _); [lia|].
  assert (Hk : (5 < k)%nat).
  { assert (H : 2 ^ 35 < 2 ^ (7 * Z.of_nat k)) by lia.
    apply Z.pow_lt_mono_r_iff in H; lia. }
  destruct (parseBase128Int_loop_too_many_groups a n 5 k 0 out post Hk) as (ret & Hp).
  exists (out ++ base128_bytes n), ret.
  split; [apply marshalBase128Int_appends|].
  rewrite <- app_assoc, E. exact Hp.
Qed.

Lemma base128_decoder_rejects_large_encodings_witness :
  exists out' ret,
    marshalBase128Int [] (2 ^ 35) = (out', None)
    /\ parseBase128Int Int64 (out' ++ []) (len (@nil byte))
       = Return (ret, len (@nil byte) + 5, Some ErrBase128TooLarge).
Proof.
  apply (base128_decoder_rejects_large_encodings Int64 [] [] (2 ^ 35)).
  split; [lia|reflexivity].
Defined.

(** * More on the object identifier codec *)

Lemma parseObjectIdentifier_loop_tail (a : int_size) (bytes : list byte) (fuel : nat) :
  forall s offset s',
    0 <= offset <= len bytes ->
    parseObjectIdentifier_loop a bytes fuel s offset = Return (s', None) ->
    exists tail, s' = s ++ tail /\ len tail <= len bytes - offset.
Proof.
  induction fuel as [|fuel IH]; intros s offset s' Hoff; cbn [parseObjectIdentifier_loop].
  - destruct (Z.ltb_spec offset (len bytes)); [discriminate|].
    intros E. injection E as <-. exists []. rewrite app_nil_r. split; [reflexivity|].
    change (len (@nil Z)) with 0. lia.
  - destruct (Z.ltb_spec offset (len bytes)) as [Hlt|Hge].
    + unfold parseBase128Int.
      destruct (parseBase128Int_loop_progress a bytes 5 0 offset ltac:(lia))
        as (v & offset' & err & E & Hp).
      rewrite E. cbn [bind]. destruct err as [e|]; [discriminate|].
      specialize (Hp eq_refl). intros Hloop.
      destruct (IH (s ++ [v]) offset' s' ltac:(lia) Hloop) as (tail & -> & Hlen).
      exists (v :: tail). rewrite <- app_assoc. split; [reflexivity|].
      rewrite len_cons. lia.
    + intros E. injection E as <-. exists []. rewrite app_nil_r. split; [reflexivity|].
      change (len (@nil Z)) with 0. lia.
Qed.

(** X11: [parseObjectIdentifier] always returns: it reports "zero length" on the
    empty input, and what it returns without error starts with the first
    byte split as [byte/40], in 0..6, and [byte%40], in 0..39, followed by
    at most one component for each further byte. *)
Theorem parseObjectIdentifier_result_shape (a : int_size) (bytes : list byte) :
  (bytes = [] -> parseObjectIdentifier a bytes = Return ([], Some ErrZeroLengthOID))
  /\ (exists r, parseObjectIdentifier a bytes = Return r)
  /\ (forall s, parseObjectIdentifier a bytes = Return (s, None) ->
      exists b0 rest tail,
        bytes = b0 :: rest
        /\ s = u8 b0 / 40 :: u8 b0 mod 40 :: tail
        /\ 0 <= u8 b0 / 40 <= 6 /\ 0 <= u8 b0 mod 40 < 40
        /\ len tail <= len rest).
Proof.
  split; [intros ->; reflexivity|]. split; [apply parseObjectIdentifier_total|].
  intros s Hs. destruct bytes as [|b0 rest]; [discriminate|].
  unfold parseObjectIdentifier in Hs.
  apply parseObjectIdentifier_loop_tail in Hs.
  2:{ rewrite len_cons. pose proof (len_nonneg rest). lia. }
  destruct Hs as (tail & -> & Hlen). rewrite len_cons in Hlen.
  exists b0, rest, tail. pose proof (u8_range b0) as Hb.
  split; [reflexivity|]. split; [reflexivity|].
  split; [|split; [apply Z.mod_pos_bound; lia|lia]].
  split; [apply Z.div_pos; lia|].
  apply Z.lt_succ_r. apply Z.div_lt_upper_bound; lia.
Qed.

Lemma parseObjectIdentifier_result_shape_witness :
  exists b0 rest tail,
    bytes_of [0x2b; 6; 1; 0x94; 0x78] = b0 :: rest
    /\ [1; 3; 6; 1; 2680] = u8 b0 / 40 :: u8 b0 mod 40 :: tail
    /\ 0 <= u8 b0 / 40 <= 6 /\ 0 <= u8 b0 mod 40 < 40
    /\ len tail <= len rest.
Proof.
  apply (proj2 (proj2 (parseObjectIdentifier_result_shape Int64
                         (bytes_of [0x2b; 6; 1; 0x94; 0x78])))).
  reflexivity.
Defined.

(** X12: [oidToString] panics on the empty sequence (it cuts the leading dot off
    an empty string); on any other sequence, negative components included,
    it returns the decimal numbers with single dots between them. *)
Theorem oidToString_joins_with_dots (seq : list Z) :
  (seq = [] -> oidToString seq = Panic)
  /\ (seq <> [] -> oidToString seq = Return (dotted seq)).
Proof.
  split; [intros ->; reflexivity|apply oidToString_dotted].
Qed.

Lemma oidToString_joins_with_dots_witness :
  oidToString [1; 3; -6; 0] = Return "1.3.-6.0"%string.
Proof.
  apply (proj2 (oidToString_joins_with_dots [1; 3; -6; 0])). discriminate.
Defined.

Lemma TrimRight_dot_trailing (t : string) :
  TrimRight_dot (t ++ String "."%char EmptyString) = TrimRight_dot t.
Proof.
  induction t as [|x t IH]; [reflexivity|].
  cbn [append TrimRight_dot]. rewrite IH. reflexivity.
Qed.

Lemma Trim_dot_trailing (s : string) :
  Trim_dot (s ++ String "."%char EmptyString) = Trim_dot s.
Proof.
  unfold Trim_dot. induction s as [|c s IH]; [reflexivity|].
  cbn [append TrimLeft_dot]. destruct (is_dot c); [exact IH|].
  apply (TrimRight_dot_trailing (String c s)).
Qed.

(** X13: Dots around the string do not count: [marshalOID] gives the same result
    with a dot put in front of its argument or behind it. *)
Theorem marshalOID_ignores_outer_dots (a : int_size) (s : string) :
  marshalOID a (String "."%char s) = marshalOID a s
  /\ marshalOID a (s ++ String "."%char EmptyString) = marshalOID a s.
Proof.
  split.
  - reflexivity.
  - unfold marshalOID. rewrite Trim_dot_trailing. reflexivity.
Qed.

(** X14: A canonical string that names fewer than two components, or a first
    component above 6, or a second one of 40 or more, is refused by
    [marshalOID] with "Unable to marshal OID: invalid object identifier". *)
Theorem marshalOID_rejects_invalid_root (a : int_size) (seq : list Z) :
  seq <> [] ->
  Forall (fun n => 0 <= n <= max_int a) seq ->
  len seq < 2 \/ 6 < nth 0 seq 0 \/ 40 <= nth 1 seq 0 ->
  marshalOID a (dotted seq) = ([], Some (ErrMarshalOID ErrInvalidOID)).
Proof.
  intros Hne Hint Hbad.
  assert (Hnonneg : Forall (fun n => 0 <= n) seq).
  { eapply Forall_impl; [|exact Hint]. cbn. intros n Hn. lia. }
  unfold marshalOID.
  rewrite (Trim_dot_dotted seq Hne Hnonneg).
  destruct (dotted_shape seq Hne Hnonneg) as (Hsplit & _). rewrite Hsplit.
  rewrite (marshalOID_atoi_itoa a seq Hint).
  destruct (marshalObjectIdentifier_cases a seq) as [[_ E]|[Hc _]]; [|contradiction].
  rewrite E. reflexivity.
Qed.

Lemma marshalOID_rejects_invalid_root_witness :
  marshalOID Int64 "1.40.5" = ([], Some (ErrMarshalOID ErrInvalidOID)).
Proof.
  apply (marshalOID_rejects_invalid_root Int64 [1; 40; 5]).
  - discriminate.
  - repeat constructor; vm_compute; congruence.
  - right. right. cbn. lia.
Defined.

(** * Whole fields with a short-form length *)

Lemma len_short_field (tag : byte) (value rest : list byte) :
  len (short_field tag value rest) = 2 + len value + len rest.
Proof.
  unfold short_field. rewrite !len_cons, len_app. lia.
Qed.

Lemma index_short_field_0 (tag : byte) (value rest : list byte) :
  index (short_field tag value rest) 0 = Return tag.
Proof. reflexivity. Qed.

Lemma index_short_field_1 (tag : byte) (value rest : list byte) :
  index (short_field tag value rest) 1 = Return (byte_of (len value)).
Proof. reflexivity. Qed.

Lemma parseLength_short_field (a : int_size) (tag : byte) (value rest : list byte) :
  len value <= 127 -> 1 <= len value \/ rest <> [] ->
  parseLength a (short_field tag value rest) = Return (len value + 2, 2).
Proof.
  intros Hle Hne. unfold parseLength.
  rewrite len_short_field, index_short_field_1. cbn [bind].
  pose proof (len_nonneg value) as Hv. pose proof (len_nonneg rest) as Hr.
  assert (Hrest : 1 <= len value \/ 1 <= len rest).
  { destruct Hne as [H|H]; [left; exact H|right].
    destruct rest; [congruence|]. rewrite len_cons. pose proof (len_nonneg rest). lia. }
  destruct (Z.leb_spec (2 + len value + len rest) 2); [lia|].
  rewrite byte_of_small by lia.
  destruct (Z.leb_spec (len value) 127); [reflexivity|lia].
Qed.

Lemma slice_short_field (tag : byte) (value rest : list byte) :
  slice (short_field tag value rest) 2 (len value + 2) = Return value.
Proof.
  unfold slice. rewrite len_short_field.
  pose proof (len_nonneg value) as Hv. pose proof (len_nonneg rest) as Hr.
  destruct (Z.leb_spec 0 2); [|lia].
  destruct (Z.leb_spec 2 (len value + 2)); [|lia].
  destruct (Z.leb_spec (len value + 2) (2 + len value + len rest)); [|lia].
  cbn [andb]. f_equal.
  replace (Z.to_nat (len value + 2 - 2)) with (List.length value) by (unfold len; lia).
  change (Z.to_nat 2) with 2%nat. unfold short_field. cbn [skipn].
  rewrite firstn_app, Nat.sub_diag, firstn_all. cbn [firstn]. apply app_nil_r.
Qed.

Lemma parseInt_value (a : int_size) (b : list byte) :
  len b <= 8 ->
  parseInt a b =
    if to_int a (twos_complement b) =? twos_complement b
    then (twos_complement b, None)
    else (0, Some ErrIntegerTooLarge).
Proof.
  intros Hlen. unfold parseInt. rewrite (parseInt64_value b Hlen).
  rewrite to_int64_to_int, Z.eqb_sym.
  destruct (Z.eqb_spec (to_int a (twos_complement b)) (twos_complement b)) as [E|E];
    cbn [negb]; [rewrite E|]; reflexivity.
Qed.

Lemma decodeValue_integer_value (a : int_size) (value rest : list byte) (msg : string) :
  1 <= len value <= 8 -> to_int a (twos_complement value) = twos_complement value ->
  decodeValue a (short_field Integer value rest) msg
  = Return (Some {| VType := Integer; Value := VInt (twos_complement value) |}, None).
Proof.
  intros Hlen Hfit. unfold decodeValue.
  rewrite index_short_field_0. cbn [bind]. change (Byte.eqb Integer Integer) with true.
  cbv iota. rewrite parseLength_short_field by lia. cbn [bind].
  rewrite slice_short_field. cbn [bind].
  rewrite parseInt_value by lia. rewrite Hfit, Z.eqb_refl. reflexivity.
Qed.

(** X15: An Integer field with a short-form length: one to eight value bytes
    whose two's-complement value fits [int] decode to that value; nine or
    more value bytes give the error that quotes the whole buffer, beside the
    zero-valued [Variable]. *)
Theorem decodeValue_integer_field (a : int_size) (value rest : list byte) (msg : string) :
  (1 <= len value <= 8 -> to_int a (twos_complement value) = twos_complement value ->
   decodeValue a (short_field Integer value rest) msg
   = Return (Some {| VType := Integer; Value := VInt (twos_complement value) |}, None))
  /\ (8 < len value <= 127 ->
      decodeValue a (short_field Integer value rest) msg
      = Return (Some new_Variable,
                Some (ErrDecodeBytes (short_field Integer value rest) ErrIntegerTooLarge))).
Proof.
  split.
  - apply decodeValue_integer_value.
  - intros Hlen. unfold decodeValue.
    rewrite index_short_field_0. cbn [bind]. change (Byte.eqb Integer Integer) with true.
    cbv iota. rewrite parseLength_short_field by lia. cbn [bind].
    rewrite slice_short_field. cbn [bind].
    unfold parseInt, parseInt64. destruct (Z.ltb_spec 8 (len value)); [reflexivity|lia].
Qed.

Lemma decodeValue_integer_field_witness :
  decodeValue Int64 (short_field Integer (bytes_of [0xff; 0x7f]) []) EmptyString
  = Return (Some {| VType := Integer; Value := VInt (-129) |}, None).
Proof.
  apply (proj1 (decodeValue_integer_field Int64 (bytes_of [0xff; 0x7f]) [] EmptyString)).
  - vm_compute. split; discriminate.
  - reflexivity.
Defined.

(** X16: The counter-like fields with one to eight value bytes: Counter32 and
    Gauge32 decode to the unsigned value when it fits [uint]; TimeTicks
    decodes to the two's-complement value when it fits [int]; Counter64
    decodes to the two's-complement value, so eight bytes with the top bit
    set come out negative. *)
Theorem decodeValue_counter_fields (a : int_size) (value rest : list byte) (msg : string) :
  1 <= len value <= 8 ->
  (be_value value < 2 ^ int_bits a ->
   decodeValue a (short_field Counter32 value rest) msg
   = Return (Some {| VType := Counter32; Value := VUint (be_value value) |}, None)
   /\ decodeValue a (short_field Gauge32 value rest) msg
      = Return (Some {| VType := Gauge32; Value := VUint (be_value value) |}, None))
  /\ (to_int a (twos_complement value) = twos_complement value ->
      decodeValue a (short_field TimeTicks value rest) msg
      = Return (Some {| VType := TimeTicks; Value := VInt (twos_complement value) |}, None))
  /\ decodeValue a (short_field Counter64 value rest) msg
     = Return (Some {| VType := Counter64; Value := VInt64 (twos_complement value) |}, None).
Proof.
  intros Hlen.
  assert (Hnum : forall tag parse wrap,
             decode_numeric a (short_field tag value rest) new_Variable parse tag wrap
             = match snd (parse value) with
               | Some _ => Return (Some new_Variable, None)
               | None => Return (Some {| VType := tag; Value := wrap (fst (parse value)) |}, None)
               end).
  { intros tag parse wrap. unfold decode_numeric.
    rewrite parseLength_short_field by lia. cbn [bind].
    rewrite slice_short_field. cbn [bind].
    destruct (parse value) as [ret [e|]]; reflexivity. }
  split; [|split].
  - intros Hfit.
    assert (Hp : parseUint a value = (be_value value, None)).
    { rewrite parseUint_value by lia.
      destruct (Z.ltb_spec (be_value value) (2 ^ int_bits a)); [reflexivity|lia]. }
    split; unfold decodeValue; rewrite index_short_field_0; cbn [bind];
      cbn -[decode_numeric parseUint short_field]; rewrite Hnum, Hp; reflexivity.
  - intros Hfit.
    assert (Hp : parseInt a value = (twos_complement value, None)).
    { rewrite parseInt_value by lia. rewrite Hfit, Z.eqb_refl. reflexivity. }
    unfold decodeValue; rewrite index_short_field_0; cbn [bind];
      cbn -[decode_numeric parseInt short_field]; rewrite Hnum, Hp; reflexivity.
  - unfold decodeValue; rewrite index_short_field_0; cbn [bind];
      cbn -[decode_numeric parseInt64 short_field];
      rewrite Hnum, parseInt64_value by lia; reflexivity.
Qed.

Lemma decodeValue_counter_fields_witness :
  decodeValue Int64
    (short_field Counter64 (bytes_of [0xff; 0xff; 0xff; 0xff; 0xff; 0xff; 0xff; 0xff]) [])
    EmptyString
  = Return (Some {| VType := Counter64; Value := VInt64 (-1) |}, None).
Proof.
  apply (decodeValue_counter_fields Int64
           (bytes_of [0xff; 0xff; 0xff; 0xff; 0xff; 0xff; 0xff; 0xff]) [] EmptyString).
  vm_compute. split; discriminate.
Defined.

(** X17: An OctetString field with a short-form length: the value is the empty
    string for no value bytes, the hex dump of the value bytes when the
    first of them is zero, and the value bytes as a string otherwise. *)
Theorem decodeValue_octet_string_field (a : int_size) (value rest : list byte)
    (msg : string) :
  len value <= 127 ->
  decodeValue a (short_field OctetString value rest) msg
  = Return (Some {| VType := OctetString;
                    Value := VString
                      match value with
                      | [] => EmptyString
                      | c :: _ => if u8 c =? 0 then hex_dump value
                                  else string_of_bytes value
                      end |}, None).
Proof.
  intros Hlen. unfold decodeValue.
  rewrite index_short_field_0. cbn [bind].
  change (Byte.eqb OctetString Integer) with false.
  change (Byte.eqb OctetString OctetString) with true. cbv iota.
  destruct value as [|c value'].
  - destruct rest as [|r rest'].
    + reflexivity.
    + rewrite parseLength_short_field by (try (right; discriminate); cbn; lia).
      cbn [bind]. change (len (@nil byte) + 2) with 2.
      change (index (short_field OctetString [] (r :: rest')) 2) with (Return r).
      cbn [bind]. change (2 =? 2) with true.
      destruct (u8 r =? 0); [reflexivity|].
      cbn [andb].
      change (slice (short_field OctetString [] (r :: rest')) 2 2)
        with (slice (short_field OctetString [] (r :: rest')) 2 (len (@nil byte) + 2)).
      rewrite slice_short_field. reflexivity.
  - pose proof (len_nonneg value') as Hv.
    assert (Hpos : 1 <= len (c :: value')) by (rewrite len_cons; lia).
    rewrite parseLength_short_field by (try left; assumption).
    cbn [bind].
    change (index (short_field OctetString (c :: value') rest) 2) with (Return c).
    cbn [bind]. rewrite slice_short_field.
    assert (Hne : (len (c :: value') + 2 =? 2) = false).
    { apply Z.eqb_neq. rewrite len_cons. pose proof (len_nonneg value'). lia. }
    rewrite Hne, andb_false_r.
    destruct (u8 c =? 0); reflexivity.
Qed.

Lemma decodeValue_octet_string_field_witness :
  decodeValue Int64 (short_field OctetString (bytes_of [0; 2; 255]) []) EmptyString
  = Return (Some {| VType := OctetString; Value := VString "00 02 ff" |}, None).
Proof.
  apply (decodeValue_octet_string_field Int64 (bytes_of [0; 2; 255]) [] EmptyString).
  vm_compute. discriminate.
Defined.

(** X18: An IpAddress field never panics: a buffer of fewer than six bytes gives
    "not enough data", a length byte other than 4 gives the length error,
    and otherwise the four bytes behind the length byte are rendered in
    decimal with dots between them, whatever follows. *)
Theorem decodeValue_ip_address (a : int_size) (tail : list byte) (msg : string) :
  (len tail < 5 ->
   decodeValue a (IpAddress :: tail) msg
   = Return (None, Some (ErrIpNotEnoughData (IpAddress :: tail))))
  /\ (forall l b1 b2 b3 b4 rest, tail = l :: b1 :: b2 :: b3 :: b4 :: rest ->
      decodeValue a (IpAddress :: tail) msg
      = if u8 l =? 4
        then Return (Some {| VType := IpAddress;
                             Value := VString (itoa (u8 b1) ++ "." ++ itoa (u8 b2) ++ "."
                                               ++ itoa (u8 b3) ++ "." ++ itoa (u8 b4)) |},
                     None)
        else Return (None, Some (ErrIpLength l))).
Proof.
  split.
  - intros H. unfold decodeValue.
    change (index (IpAddress :: tail) 0) with (Return IpAddress).
    cbn -[len]. rewrite len_cons.
    destruct (Z.ltb_spec (len tail + 1) 6); [reflexivity|lia].
  - intros l b1 b2 b3 b4 rest ->. unfold decodeValue.
    change (index (IpAddress :: l :: b1 :: b2 :: b3 :: b4 :: rest) 0) with (Return IpAddress).
    cbn -[len itoa append index ipv4_loop]. rewrite !len_cons.
    pose proof (len_nonneg rest).
    destruct (Z.ltb_spec (len rest + 1 + 1 + 1 + 1 + 1 + 1) 6); [lia|].
    change (index (IpAddress :: l :: b1 :: b2 :: b3 :: b4 :: rest) 1) with (Return l).
    cbn [bind]. destruct (u8 l =? 4); cbn [negb]; [|reflexivity].
    cbn [ipv4_loop].
    change (index (IpAddress :: l :: b1 :: b2 :: b3 :: b4 :: rest) 2) with (Return b1).
    change (index (IpAddress :: l :: b1 :: b2 :: b3 :: b4 :: rest) (2 + 1)) with (Return b2).
    change (index (IpAddress :: l :: b1 :: b2 :: b3 :: b4 :: rest) (2 + 1 + 1))
      with (Return b3).
    change (index (IpAddress :: l :: b1 :: b2 :: b3 :: b4 :: rest) (2 + 1 + 1 + 1))
      with (Return b4).
    cbn [bind append]. rewrite !str_app_assoc. reflexivity.
Qed.

Lemma decodeValue_ip_address_witness :
  decodeValue Int64 (IpAddress :: bytes_of [4; 192; 168; 0; 1]) EmptyString
  = Return (Some {| VType := IpAddress; Value := VString "192.168.0.1" |}, None).
Proof.
  rewrite (proj2 (decodeValue_ip_address Int64 (bytes_of [4; 192; 168; 0; 1]) EmptyString)
             (byte_of 4) (byte_of 192) (byte_of 168) (byte_of 0) (byte_of 1) [] eq_refl).
  reflexivity.
Defined.

(** * Tags without a value, and tags without a case *)

Ltac other_tag H :=
  match goal with
  | |- context [Byte.eqb ?t ?c] =>
      let E := fresh "E" in
      destruct (Byte.eqb t c) eqn:E;
      [apply Byte.byte_dec_bl in E; exfalso; apply H; rewrite E; cbn; tauto|]
  end.

(** X19: On a non-empty buffer [decodeValue] reads nothing but the tag when the
    tag is Null, NoSuchObject or NoSuchInstance: the result is that type with
    a nil value, whatever follows.  For a tag outside its eleven cases it
    returns the zero-valued [Variable] together with the "not implemented"
    error that carries the tag. *)
Theorem decodeValue_tag_only (a : int_size) (tag : byte) (rest : list byte) (msg : string) :
  (In tag [Null; NoSuchObject; NoSuchInstance] ->
   decodeValue a (tag :: rest) msg = Return (Some {| VType := tag; Value := VNil |}, None))
  /\ (~ In tag decoded_tags ->
      decodeValue a (tag :: rest) msg
      = Return (Some new_Variable, Some (ErrNotImplemented tag))).
Proof.
  split.
  - intros [<-|[<-|[<-|[]]]]; reflexivity.
  - intros H. unfold decodeValue.
    change (index (tag :: rest) 0) with (Return tag). cbn [bind].
    repeat other_tag H. reflexivity.
Qed.

Lemma decodeValue_tag_only_witness :
  decodeValue Int64 (bytes_of [0x44; 1; 2]) EmptyString
  = Return (Some new_Variable, Some (ErrNotImplemented (byte_of 0x44))).
Proof.
  apply (proj2 (decodeValue_tag_only Int64 (byte_of 0x44) (bytes_of [1; 2]) EmptyString)).
  cbn. intros H. repeat (destruct H as [H|H]; [discriminate H|]). exact H.
Defined.

(** * The raw field parser *)

(** X20: For a tag other than Integer, OctetString and ObjectIdentifier
    [parseRawField] consumes nothing and reports the unknown field type with
    the tag. *)
Theorem parseRawField_unknown_tag (a : int_size) (tag : byte) (rest : list byte)
    (msg : string) :
  ~ In tag raw_tags ->
  parseRawField a (tag :: rest) msg = Return (VNil, 0, Some (ErrUnknownFieldType tag)).
Proof.
  intros H. unfold parseRawField.
  change (index (tag :: rest) 0) with (Return tag). cbn [bind].
  repeat other_tag H. reflexivity.
Qed.

Lemma parseRawField_unknown_tag_witness :
  parseRawField Int64 (bytes_of [0x05; 0]) EmptyString
  = Return (VNil, 0, Some (ErrUnknownFieldType Null)).
Proof.
  apply (parseRawField_unknown_tag Int64 Null (bytes_of [0]) EmptyString).
  cbn. intros H. repeat (destruct H as [H|H]; [discriminate H|]). exact H.
Defined.

Lemma slice_short_field_raw (tag : byte) (value rest : list byte) :
  len value <= 255 ->
  slice (short_field tag value rest) 2 (2 + u8 (byte_of (len value))) = Return value.
Proof.
  intros H. pose proof (len_nonneg value).
  rewrite byte_of_small by lia. rewrite Z.add_comm. apply slice_short_field.
Qed.

(** X21: [parseRawField] reads an Integer field as unsigned: a single value byte
    comes back as its plain value, and any other count up to eight as the
    big-endian unsigned value when it fits [uint]; the field consumed is the
    two header bytes and the value.  The same single byte with its top bit
    set is negative to [decodeValue]. *)
Theorem parseRawField_integer_is_unsigned (a : int_size) (value rest : list byte)
    (msg : string) :
  (forall b, value = [b] ->
     parseRawField a (short_field Integer value rest) msg = Return (VInt (u8 b), 3, None)
     /\ (128 <= u8 b ->
         decodeValue a (short_field Integer value rest) msg
         = Return (Some {| VType := Integer; Value := VInt (u8 b - 256) |}, None)))
  /\ (len value <> 1 -> len value <= 8 -> be_value value < 2 ^ int_bits a ->
      parseRawField a (short_field Integer value rest) msg
      = Return (VUint (be_value value), 2 + len value, None)).
Proof.
  split.
  - intros b ->. split; [reflexivity|]. intros Hb.
    pose proof (u8_range b) as Hr.
    assert (Htc : twos_complement [b] = u8 b - 256).
    { unfold twos_complement. rewrite be_value_cons. cbn.
      rewrite Z.mul_1_r, Z.add_0_r.
      destruct (Z.leb_spec 128 (u8 b)); [reflexivity|lia]. }
    rewrite <- Htc.
    apply (decodeValue_integer_value a [b] rest msg).
    + cbn. lia.
    + rewrite Htc. apply to_int_small.
      pose proof (max_int_lower a). pose proof (min_int_upper a). lia.
  - intros Hne Hlen Hfit. unfold parseRawField.
    rewrite index_short_field_0. cbn [bind].
    change (Byte.eqb Integer Integer) with true. cbv iota.
    rewrite index_short_field_1. cbn [bind].
    pose proof (len_nonneg value) as Hv.
    rewrite slice_short_field_raw by lia.
    rewrite byte_of_small by lia.
    destruct (Z.eqb_spec (len value) 1); [lia|].
    cbn [bind]. rewrite parseUint_value by lia.
    destruct (Z.ltb_spec (be_value value) (2 ^ int_bits a)); [reflexivity|lia].
Qed.

Lemma parseRawField_integer_is_unsigned_witness :
  parseRawField Int64 (short_field Integer (bytes_of [0xff; 0x7f]) []) EmptyString
  = Return (VUint 65407, 4, None)
  /\ decodeValue Int64 (short_field Integer (bytes_of [0xff]) []) EmptyString
     = Return (Some {| VType := Integer; Value := VInt (-1) |}, None).
Proof.
  split.
  - apply (proj2 (parseRawField_integer_is_unsigned Int64 (bytes_of [0xff; 0x7f]) []
                    EmptyString)).
    + vm_compute. discriminate.
    + vm_compute. discriminate.
    + vm_compute. reflexivity.
  - apply (proj1 (parseRawField_integer_is_unsigned Int64 (bytes_of [0xff]) [] EmptyString)
             (byte_of 0xff) eq_refl).
    vm_compute. discriminate.
Defined.

(** X22: [parseRawField] on an OctetString field with one to 127 value bytes
    returns those bytes as a string, without any hex dump, and the size of
    the whole field as the count consumed.  The bare two-byte field 04 00
    does not give the empty string: the null-field branch of [parseLength]
    makes the length byte itself the value. *)
Theorem parseRawField_octet_string_field (a : int_size) (value rest : list byte)
    (msg : string) :
  (1 <= len value <= 127 ->
   parseRawField a (short_field OctetString value rest) msg
   = Return (VString (string_of_bytes value), len value + 2, None))
  /\ parseRawField a (short_field OctetString [] []) msg
     = Return (VString (string_of_bytes [x00]), 2, None).
Proof.
  split; [|reflexivity].
  intros Hlen. unfold parseRawField.
  rewrite index_short_field_0. cbn [bind].
  change (Byte.eqb OctetString Integer) with false.
  change (Byte.eqb OctetString OctetString) with true. cbv iota.
  rewrite parseLength_short_field by lia. cbn [bind].
  rewrite slice_short_field. reflexivity.
Qed.

Lemma parseRawField_octet_string_field_witness :
  parseRawField Int64 (short_field OctetString (bytes_of [0; 65; 66]) [x05; x00]) EmptyString
  = Return (VString (string_of_bytes (bytes_of [0; 65; 66])), 5, None).
Proof.
  apply (proj1 (parseRawField_octet_string_field Int64 (bytes_of [0; 65; 66]) [x05; x00]
                  EmptyString)).
  vm_compute. split; discriminate.
Defined.

Lemma marshal_parse_oid (a : int_size) (seq : list Z) :
  round_trip_oid a seq ->
  exists bytes,
    marshalObjectIdentifier a seq = (bytes, None)
    /\ parseObjectIdentifier a bytes = Return (seq, None).
Proof.
  intros (s0 & s1 & rest & -> & H0 & H1 & Hbyte & Hrest).
  assert (Henc : flat_map (fun n => base128_bytes (to_int64 n)) rest
                 = flat_map base128_bytes rest).
  { clear -Hrest. induction Hrest as [|n rest [Hn _] _ IH]; [reflexivity|].
    cbn [flat_map]. rewrite IH. f_equal. f_equal.
    unfold to_int64. apply wrap_signed_small; [lia|].
    change (2 ^ (64 - 1)) with (2 ^ 63).
    assert (2 ^ 35 < 2 ^ 63) by reflexivity. lia. }
  exists (byte_of (40 * s0 + s1) :: flat_map base128_bytes rest). split.
  - destruct (marshalObjectIdentifier_cases a (s0 :: s1 :: rest)) as [[Hc _]|[_ E]].
    + exfalso. rewrite !len_cons in Hc. cbn [nth] in Hc.
      pose proof (len_nonneg rest). lia.
    + rewrite E. cbn [nth skipn]. rewrite Henc. reflexivity.
  - unfold parseObjectIdentifier.
    destruct (first_byte_splits s0 s1 H0 H1 Hbyte) as [-> ->].
    apply (parseObjectIdentifier_loop_components a rest _ [s0; s1]
             [byte_of (40 * s0 + s1)] Hrest).
    unfold len. cbn [List.length]. lia.
Qed.

(** X23: An ObjectIdentifier field built from what [marshalObjectIdentifier]
    writes, behind a single length byte: [parseRawField] returns the
    sequence and the size of the field, and [decodeValue] the dotted string,
    for every sequence of the round-trip domain whose encoding is at most
    255 bytes long. *)
Theorem decodeValue_object_identifier_field (a : int_size) (seq : list Z)
    (bytes rest : list byte) (msg : string) :
  round_trip_oid a seq ->
  marshalObjectIdentifier a seq = (bytes, None) ->
  len bytes <= 255 ->
  parseRawField a (short_field ObjectIdentifier bytes rest) msg
  = Return (VOid seq, len bytes + 2, None)
  /\ decodeValue a (short_field ObjectIdentifier bytes rest) msg
     = Return (Some {| VType := ObjectIdentifier; Value := VString (dotted seq) |}, None).
Proof.
  intros Hseq Hm Hlen.
  destruct (marshal_parse_oid a seq Hseq) as (bytes' & Hm' & Hp).
  rewrite Hm in Hm'. injection Hm' as <-.
  pose proof (len_nonneg bytes) as Hb.
  assert (Hraw : forall m, parseRawField a (short_field ObjectIdentifier bytes rest) m
                           = Return (VOid seq, len bytes + 2, None)).
  { intros m. unfold parseRawField. rewrite index_short_field_0. cbn [bind].
    change (Byte.eqb ObjectIdentifier Integer) with false.
    change (Byte.eqb ObjectIdentifier OctetString) with false.
    change (Byte.eqb ObjectIdentifier ObjectIdentifier) with true. cbv iota.
    rewrite index_short_field_1. cbn [bind].
    rewrite slice_short_field_raw by lia. cbn [bind].
    rewrite Hp. cbn [bind]. rewrite byte_of_small by lia. reflexivity. }
  split; [apply Hraw|].
  unfold decodeValue. rewrite index_short_field_0. cbn [bind].
  change (Byte.eqb ObjectIdentifier Integer) with false.
  change (Byte.eqb ObjectIdentifier OctetString) with false.
  change (Byte.eqb ObjectIdentifier Null) with false.
  change (Byte.eqb ObjectIdentifier ObjectIdentifier) with true. cbv iota.
  rewrite Hraw. cbn [bind].
  rewrite oidToString_dotted; [reflexivity|].
  destruct Hseq as (s0 & s1 & r & -> & _). discriminate.
Qed.

Lemma decodeValue_object_identifier_field_witness :
  decodeValue Int64 (short_field ObjectIdentifier (bytes_of [0x2b; 6; 1; 0x94; 0x78]) [])
    EmptyString
  = Return (Some {| VType := ObjectIdentifier; Value := VString "1.3.6.1.2680" |}, None).
Proof.
  apply (decodeValue_object_identifier_field Int64 [1; 3; 6; 1; 2680]
           (bytes_of [0x2b; 6; 1; 0x94; 0x78]) [] EmptyString).
  - exists 1, 3, [6; 1; 2680].
    split; [reflexivity|]. split; [lia|]. split; [lia|]. split; [lia|].
    repeat constructor; vm_compute; congruence.
  - reflexivity.
  - vm_compute. discriminate.
Defined.

(** * Bit strings: the invariant, [At] and [RightAlign] *)

Lemma parseBitString_success (a : int_size) (b : list byte) (bs : BitStringValue) :
  8 * len b <= max_int a ->
  parseBitString a b = (bs, None) ->
  exists p0 data,
    b = p0 :: data
    /\ Bytes bs = data /\ BitLength bs = 8 * len data - u8 p0
    /\ 0 <= u8 p0 <= 7 /\ (data = [] -> u8 p0 = 0)
    /\ u8 (last data x00) mod 2 ^ u8 p0 = 0.
Proof.
  intros Hfit Hp. destruct b as [|p0 data]; [discriminate|].
  exists p0, data. split; [reflexivity|].
  pose proof (u8_range p0) as Hr. pose proof (len_nonneg data) as Hd.
  rewrite len_cons in Hfit.
  unfold parseBitString in Hp. rewrite len_cons in Hp.
  destruct (Z.ltb_spec 7 (u8 p0)) as [|Hp7]; [discriminate|]. cbn [orb] in Hp.
  rewrite bit_string_mask, Z.land_ones in Hp by lia.
  assert (Hlen : to_int a (to_int a ((len data + 1 - 1) * 8) - u8 p0)
                 = 8 * len data - u8 p0).
  { pose proof (max_int_lower a). pose proof (min_int_upper a).
    rewrite (to_int_small a ((len data + 1 - 1) * 8)) by lia.
    rewrite to_int_small by lia. lia. }
  rewrite Hlen in Hp. clear Hlen.
  destruct data as [|d data'].
  - change (len (@nil byte)) with 0 in *. cbn [last] in Hp |- *.
    change (0 + 1 =? 1) with true in Hp. cbn [andb] in Hp.
    destruct (Z.ltb_spec 0 (u8 p0)) as [|Hz]; [discriminate|]. cbn [orb] in Hp.
    assert (E0 : u8 p0 = 0) by lia.
    destruct (u8 p0 mod 2 ^ u8 p0 =? 0); [|discriminate]. cbn [negb] in Hp.
    injection Hp as <-. cbn [Bytes BitLength]. rewrite E0.
    repeat split; try lia.
  - rewrite last_cons_nonempty in Hp by discriminate.
    assert (Hne1 : (len (d :: data') + 1 =? 1) = false).
    { apply Z.eqb_neq. rewrite len_cons. pose proof (len_nonneg data'). lia. }
    rewrite Hne1 in Hp. cbn [andb orb] in Hp.
    destruct (Z.eqb_spec (u8 (last (d :: data') x00) mod 2 ^ u8 p0) 0) as [E|];
      [|discriminate].
    cbn [negb] in Hp. injection Hp as <-. cbn [Bytes BitLength].
    repeat split; try lia; try assumption. discriminate.
Qed.

Lemma nth_last {A : Type} (l : list A) (d : A) :
  nth (List.length l - 1) l d = last l d.
Proof.
  induction l as [|x l IH]; [reflexivity|].
  destruct l as [|y l]; [reflexivity|].
  cbn [List.length Nat.sub] in *. rewrite Nat.sub_0_r in *.
  change (nth (S (List.length l)) (x :: y :: l) d) with (nth (List.length l) (y :: l) d).
  rewrite IH. reflexivity.
Qed.

(** X24: What [parseBitString] returns keeps the invariant of a bit string: the
    bit length lies between 0 and eight times the number of bytes, fewer
    than eight bits short of it, and every bit past the bit length is
    zero. *)
Theorem parseBitString_keeps_invariant (a : int_size) (b : list byte)
    (bs : BitStringValue) :
  8 * len b <= max_int a ->
  parseBitString a b = (bs, None) ->
  0 <= BitLength bs <= 8 * len (Bytes bs)
  /\ 8 * len (Bytes bs) - BitLength bs <= 7
  /\ (forall i, BitLength bs <= i < 8 * len (Bytes bs) ->
        bit_msb_first (Bytes bs) i = 0).
Proof.
  intros Hfit Hp.
  destruct (parseBitString_success a b bs Hfit Hp)
    as (p0 & data & -> & -> & -> & Hp7 & Hempty & Hpad).
  pose proof (len_nonneg data) as Hd.
  assert (Hne : data = [] \/ 1 <= len data).
  { destruct data; [left; reflexivity|right]. rewrite len_cons.
    pose proof (len_nonneg data). lia. }
  split; [|split].
  - destruct Hne as [->|H1]; [rewrite (Hempty eq_refl); cbn; lia|lia].
  - lia.
  - intros i Hi. unfold bit_msb_first.
    assert (Hq : i / 8 = len data - 1).
    { symmetry. apply (Z.div_unique i 8 (len data - 1) (i - 8 * (len data - 1))); lia. }
    assert (Hm : i mod 8 = i - 8 * (len data - 1)).
    { symmetry. apply (Z.mod_unique i 8 (len data - 1) (i - 8 * (len data - 1))); lia. }
    rewrite Hq, Hm.
    replace (Z.to_nat (len data - 1)) with (List.length data - 1)%nat by (unfold len; lia).
    rewrite nth_last.
    assert (Hbit : Z.testbit (u8 (last data x00)) (7 - (i - 8 * (len data - 1))) = false).
    { destruct (Z.testbit (u8 (last data x00)) (7 - (i - 8 * (len data - 1)))) eqn:E;
        [|reflexivity].
      exfalso. apply (proj2 (low_bits_nonzero (u8 (last data x00)) (u8 p0) ltac:(lia)));
        [|exact Hpad].
      exists (7 - (i - 8 * (len data - 1))). split; [lia|exact E]. }
    rewrite Hbit. reflexivity.
Qed.

Lemma parseBitString_keeps_invariant_witness :
  0 <= 12 <= 8 * len (bytes_of [0xAB; 0xC0])
  /\ 8 * len (bytes_of [0xAB; 0xC0]) - 12 <= 7
  /\ (forall i, 12 <= i < 8 * len (bytes_of [0xAB; 0xC0]) ->
        bit_msb_first (bytes_of [0xAB; 0xC0]) i = 0).
Proof.
  apply (parseBitString_keeps_invariant Int64 (bytes_of [4; 0xAB; 0xC0])
           {| Bytes := bytes_of [0xAB; 0xC0]; BitLength := 12 |}).
  - vm_compute. discriminate.
  - reflexivity.
Defined.

Lemma index_nth {A : Type} (l : list A) (i : Z) (d : A) :
  0 <= i < len l -> index l i = Return (nth (Z.to_nat i) l d).
Proof.
  intros H. unfold index, len in *.
  destruct (Z.ltb_spec i 0); [lia|].
  destruct (nth_error_in_range l (Z.to_nat i)) as [x Hx]; [lia|].
  rewrite Hx. f_equal. symmetry. apply nth_error_nth. exact Hx.
Qed.

Lemma to_uint_small (a : int_size) (x : Z) : 0 <= x < 2 ^ 32 -> to_uint a x = x.
Proof.
  intros H. unfold to_uint, wrap_unsigned. apply Z.mod_small.
  assert (2 ^ 32 <= 2 ^ int_bits a) by (destruct a; cbn; lia). lia.
Qed.

(** X25: [At] on a bit string whose bit length does not exceed its bytes: an
    index within the bit length gives that bit, counted from the most
    significant bit of the first byte, and any other index gives 0; it never
    panics.  With a bit length beyond the bytes it can: the last clause shows
    a value on which index 0 is out of range. *)
Theorem At_reads_bit_msb_first (a : int_size) (bs : BitStringValue) (i : Z) :
  (BitLength bs <= 8 * len (Bytes bs) ->
   At a bs i = Return (if (0 <=? i) && (i <? BitLength bs)
                       then bit_msb_first (Bytes bs) i else 0))
  /\ At a {| Bytes := []; BitLength := 8 |} 0 = Panic.
Proof.
  split; [|reflexivity].
  intros Hinv. unfold At.
  destruct (Z.ltb_spec i 0) as [Hneg|Hpos]; cbn [orb].
  { destruct (Z.leb_spec 0 i); [lia|reflexivity]. }
  destruct (Z.leb_spec 0 i); [|lia].
  destruct (Z.leb_spec (BitLength bs) i) as [Hout|Hin]; cbn [andb].
  { destruct (Z.ltb_spec i (BitLength bs)); [lia|reflexivity]. }
  destruct (Z.ltb_spec i (BitLength bs)); [|lia].
  rewrite Z.quot_div_nonneg, Z.rem_mod_nonneg by lia.
  pose proof (Z.mod_pos_bound i 8 ltac:(lia)) as Hm.
  rewrite (to_uint_small a (i mod 8)) by lia.
  rewrite (to_uint_small a (7 - i mod 8)) by lia.
  assert (Hq : 0 <= i / 8 < len (Bytes bs)).
  { split; [apply Z.div_pos; lia|apply Z.div_lt_upper_bound; lia]. }
  rewrite (index_nth _ _ x00 Hq). cbn [bind]. f_equal.
  unfold bit_msb_first, shr_byte.
  destruct (Z.leb_spec 8 (7 - i mod 8)); [lia|].
  set (u := u8 (nth (Z.to_nat (i / 8)) (Bytes bs) x00)).
  assert (Hu : 0 <= u < 256) by apply u8_range.
  assert (Hs : 0 <= Z.shiftr u (7 - i mod 8) <= u).
  { rewrite Z.shiftr_div_pow2 by lia. split; [apply Z.div_pos; try lia; apply Z.pow_pos_nonneg; lia|].
    apply Z.div_le_upper_bound; [apply Z.pow_pos_nonneg; lia|].
    assert (1 <= 2 ^ (7 - i mod 8)) by (apply Z.pow_le_mono_r with (b := 0); lia). nia. }
  rewrite byte_of_small by lia.
  change 1 with (Z.ones 1). rewrite Z.land_ones by lia. change (2 ^ 1) with 2.
  rewrite <- Z.bit0_mod, Z.shiftr_spec by lia. rewrite Z.add_0_l.
  destruct (Z.testbit u (7 - i mod 8)); reflexivity.
Qed.

Lemma At_reads_bit_msb_first_witness :
  At Int64 {| Bytes := bytes_of [0xAB; 0xC0]; BitLength := 12 |} 8 = Return 1.
Proof.
  rewrite (proj1 (At_reads_bit_msb_first Int64
                    {| Bytes := bytes_of [0xAB; 0xC0]; BitLength := 12 |} 8)).
  - reflexivity.
  - vm_compute. discriminate.
Defined.

Lemma RightAlign_byte (a : int_size) (s : Z) (prev cur : byte) :
  1 <= s <= 7 ->
  u8 (byte_of (Z.lor (u8 (shl_byte prev (to_uint a (8 - s)))) (u8 (shr_byte cur s))))
  = (u8 prev mod 2 ^ s) * 2 ^ (8 - s) + u8 cur / 2 ^ s.
Proof.
  intros Hs. pose proof (u8_range prev) as Hp. pose proof (u8_range cur) as Hc.
  rewrite to_uint_small by lia.
  unfold shl_byte, shr_byte.
  destruct (Z.leb_spec 8 (8 - s)); [lia|]. destruct (Z.leb_spec 8 s); [lia|].
  rewrite Z.shiftl_mul_pow2, Z.shiftr_div_pow2 by lia.
  rewrite !u8_byte_of.
  assert (E : s = 1 \/ s = 2 \/ s = 3 \/ s = 4 \/ s = 5 \/ s = 6 \/ s = 7) by lia.
  assert (Hcase : forall k x y,
             0 <= k -> x mod 2 ^ k = 0 -> 0 <= y < 2 ^ k -> x + y < 256 -> 0 <= x ->
             Z.lor x y mod 256 = x + y).
  { intros k x y Hk Hx Hy Hsum Hx0. rewrite (lor_low_bits x y k) by assumption.
    apply Z.mod_small. lia. }
  destruct E as [->|[->|[->|[->|[->|[->| ->]]]]]];
    cbn [Z.sub Z.add Z.opp Z.pos_sub Z.pow Z.pow_pos Pos.iter Z.mul Pos.mul
         Pos.pred_double Z.double Z.succ_double Z.pred_double Pos.add Pos.succ];
    [rewrite (Hcase 7)|rewrite (Hcase 6)|rewrite (Hcase 5)|rewrite (Hcase 4)
     |rewrite (Hcase 3)|rewrite (Hcase 2)|rewrite (Hcase 1)];
    cbn [Z.pow Z.pow_pos Pos.iter Z.mul Pos.mul];
    try (Z.div_mod_to_equations; lia).
Qed.

Lemma RightAlign_loop_value (a : int_size) (s : Z) (rest : list byte) :
  1 <= s <= 7 ->
  forall prev,
    len (RightAlign_loop a s prev rest) = len rest
    /\ be_value (RightAlign_loop a s prev rest)
       = ((u8 prev mod 2 ^ s) * 256 ^ len rest + be_value rest) / 2 ^ s.
Proof.
  intros Hs.
  assert (HM : 0 < 2 ^ s) by (apply Z.pow_pos_nonneg; lia).
  assert (HMK : 2 ^ s * 2 ^ (8 - s) = 256).
  { rewrite <- Z.pow_add_r by lia. replace (s + (8 - s)) with 8 by lia. reflexivity. }
  induction rest as [|cur rest IH]; intros prev.
  - cbn [RightAlign_loop]. split; [reflexivity|].
    change (be_value []) with 0. change (len (@nil byte)) with 0.
    rewrite Z.pow_0_r, Z.mul_1_r, Z.add_0_r.
    symmetry. apply Z.div_small. apply Z.mod_pos_bound. exact HM.
  - cbn [RightAlign_loop]. destruct (IH cur) as [Hlen Hval].
    rewrite !len_cons, Hlen. split; [reflexivity|].
    rewrite !be_value_cons, Hlen, Hval.
    rewrite <- (byte_of_u8 (byte_of _)), byte_of_u8.
    rewrite (RightAlign_byte a s prev cur Hs).
    pose proof (len_nonneg rest) as Hr.
    rewrite Z.pow_add_r, Z.pow_1_r by lia.
    set (P := 256 ^ len rest). set (R := be_value rest).
    set (M := 2 ^ s) in *. set (K := 2 ^ (8 - s)) in *.
    pose proof (Z.div_mod (u8 cur) M ltac:(lia)) as Hdm.
    set (q := u8 cur / M) in *. set (r := u8 cur mod M) in *.
    set (h := u8 prev mod M).
    replace (h * (P * 256) + (u8 cur * P + R))
      with ((h * K * P + q * P) * M + (r * P + R)).
    + rewrite Z.div_add_l by lia. ring.
    + rewrite Hdm, <- HMK. ring.
Qed.

Lemma be_value_mod_256 (l : list byte) :
  l <> [] -> be_value l mod 256 = u8 (last l x00).
Proof.
  induction l as [|x l IH]; [congruence|]. intros _.
  destruct l as [|y l].
  - cbn. rewrite Z.mod_small by apply u8_range. reflexivity.
  - rewrite be_value_cons, last_cons_nonempty by discriminate.
    rewrite <- IH by discriminate.
    rewrite len_cons, Z.pow_add_r, Z.pow_1_r by (try apply len_nonneg; lia).
    rewrite Z.add_comm, Z.mul_assoc, Z.mod_add by lia. reflexivity.
Qed.

Lemma RightAlign_shifts_out_padding_helper (a : int_size) (bs : BitStringValue) :
  0 <= BitLength bs ->
  (BitLength bs mod 8 = 0 \/ Bytes bs = [] -> RightAlign a bs = Bytes bs)
  /\ (BitLength bs mod 8 <> 0 ->
      len (RightAlign a bs) = len (Bytes bs)
      /\ be_value (RightAlign a bs)
         = be_value (Bytes bs) / 2 ^ (8 - BitLength bs mod 8)).
Proof.
  intros Hbl. unfold RightAlign.
  rewrite Z.rem_mod_nonneg by lia.
  pose proof (Z.mod_pos_bound (BitLength bs) 8 ltac:(lia)) as Hm.
  rewrite to_uint_small by lia.
  split.
  - intros [H0|Hnil].
    + rewrite H0. reflexivity.
    + rewrite Hnil. destruct (8 - BitLength bs mod 8 =? 8); reflexivity.
  - intros Hne.
    destruct (Z.eqb_spec (8 - BitLength bs mod 8) 8); [lia|]. cbn [orb].
    set (s := 8 - BitLength bs mod 8) in *.
    assert (Hs : 1 <= s <= 7) by lia.
    destruct (Bytes bs) as [|b0 rest]; [split; reflexivity|].
    assert (Hl : (len (b0 :: rest) =? 0) = false).
    { apply Z.eqb_neq. rewrite len_cons. pose proof (len_nonneg rest). lia. }
    rewrite Hl.
    destruct (RightAlign_loop_value a s rest Hs b0) as [Hlen Hval].
    rewrite !len_cons, Hlen. split; [reflexivity|].
    rewrite !be_value_cons, Hlen, Hval.
    assert (HM : 0 < 2 ^ s) by (apply Z.pow_pos_nonneg; lia).
    pose proof (u8_range b0) as Hb.
    assert (Hshr : u8 (shr_byte b0 s) = u8 b0 / 2 ^ s).
    { unfold shr_byte. destruct (Z.leb_spec 8 s); [lia|].
      rewrite Z.shiftr_div_pow2 by lia. apply byte_of_small.
      split; [apply Z.div_pos; lia|].
      apply Z.div_lt_upper_bound; [lia|]. nia. }
    rewrite Hshr.
    pose proof (Z.div_mod (u8 b0) (2 ^ s) ltac:(lia)) as Hdm.
    set (P := 256 ^ len rest). set (R := be_value rest).
    set (M := 2 ^ s) in *.
    set (q := u8 b0 / M) in *. set (r := u8 b0 mod M) in *.
    replace (u8 b0 * P + R) with (q * P * M + (r * P + R)) by (rewrite Hdm; ring).
    rewrite Z.div_add_l by lia. reflexivity.
Qed.

(** X26: [RightAlign] shifts the whole bit stream right by the padding: with a
    bit length that is a multiple of 8, or no bytes, it returns the bytes
    unchanged; otherwise it returns as many bytes, whose big-endian value is
    the value of the original bytes divided by [2^(8 - BitLength % 8)]. *)
Theorem RightAlign_shifts_out_padding (a : int_size) (bs : BitStringValue) :
  0 <= BitLength bs ->
  (BitLength bs mod 8 = 0 \/ Bytes bs = [] -> RightAlign a bs = Bytes bs)
  /\ (BitLength bs mod 8 <> 0 ->
      len (RightAlign a bs) = len (Bytes bs)
      /\ be_value (RightAlign a bs)
         = be_value (Bytes bs) / 2 ^ (8 - BitLength bs mod 8)).
Proof.
  apply RightAlign_shifts_out_padding_helper.
Qed.

Lemma RightAlign_shifts_out_padding_witness :
  be_value (RightAlign Int64 {| Bytes := bytes_of [0xAB; 0xC0]; BitLength := 12 |})
  = be_value (bytes_of [0xAB; 0xC0]) / 2 ^ (8 - 12 mod 8).
Proof.
  apply (proj2 (RightAlign_shifts_out_padding Int64
                  {| Bytes := bytes_of [0xAB; 0xC0]; BitLength := 12 |} ltac:(cbn; lia))).
  cbn. discriminate.
Defined.

(** X27: Parsing and right-aligning lose nothing: for a bit string that
    [parseBitString] accepts, [RightAlign] returns as many bytes as there are
    data bytes, and their value times [2^padding] is the value of the data
    bytes. *)
Theorem RightAlign_after_parseBitString (a : int_size) (b : list byte)
    (bs : BitStringValue) :
  8 * len b <= max_int a ->
  parseBitString a b = (bs, None) ->
  exists p0 data,
    b = p0 :: data
    /\ len (RightAlign a bs) = len data
    /\ be_value (RightAlign a bs) * 2 ^ u8 p0 = be_value data.
Proof.
  intros Hfit Hp.
  destruct (parseBitString_success a b bs Hfit Hp)
    as (p0 & data & -> & Hbytes & Hbl & Hp7 & Hempty & Hpad).
  exists p0, data. split; [reflexivity|].
  pose proof (len_nonneg data) as Hd.
  assert (Hne : data = [] \/ 1 <= len data).
  { destruct data; [left; reflexivity|right]. rewrite len_cons.
    pose proof (len_nonneg data). lia. }
  assert (Hnonneg : 0 <= BitLength bs).
  { rewrite Hbl. destruct Hne as [->|H1]; [rewrite (Hempty eq_refl); cbn; lia|lia]. }
  destruct (RightAlign_shifts_out_padding_helper a bs Hnonneg) as [Hsame Hshift].
  destruct (Z.eq_dec (u8 p0) 0) as [E0|Hpos].
  - rewrite Hsame, Hbytes, E0.
    + split; [reflexivity|]. cbn. lia.
    + left. rewrite Hbl, E0, Z.sub_0_r, Z.mul_comm. apply Z.mod_mul. lia.
  - assert (Hmod : BitLength bs mod 8 = 8 - u8 p0).
    { rewrite Hbl. symmetry.
      apply (Z.mod_unique (8 * len data - u8 p0) 8 (len data - 1) (8 - u8 p0)); lia. }
    destruct Hshift as [Hlen Hval]; [lia|].
    rewrite Hlen, Hval, Hbytes, Hmod. split; [reflexivity|].
    replace (8 - (8 - u8 p0)) with (u8 p0) by lia.
    assert (Hdata : data <> []) by (intros ->; specialize (Hempty eq_refl); lia).
    assert (HM : 0 < 2 ^ u8 p0) by (apply Z.pow_pos_nonneg; lia).
    assert (Hdiv : be_value data mod 2 ^ u8 p0 = 0).
    { rewrite <- (Z.mod_mod_divide (be_value data) 256 (2 ^ u8 p0)).
      - rewrite be_value_mod_256 by exact Hdata. exact Hpad.
      - exists (2 ^ (8 - u8 p0)). rewrite <- Z.pow_add_r by lia.
        replace (8 - u8 p0 + u8 p0) with 8 by lia. reflexivity. }
    pose proof (Z.div_mod (be_value data) (2 ^ u8 p0) ltac:(lia)). lia.
Qed.

Lemma RightAlign_after_parseBitString_witness :
  exists p0 data,
    bytes_of [4; 0xAB; 0xC0] = p0 :: data
    /\ len (RightAlign Int64 {| Bytes := bytes_of [0xAB; 0xC0]; BitLength := 12 |})
       = len data
    /\ be_value (RightAlign Int64 {| Bytes := bytes_of [0xAB; 0xC0]; BitLength := 12 |})
       * 2 ^ u8 p0 = be_value data.
Proof.
  apply (RightAlign_after_parseBitString Int64 (bytes_of [4; 0xAB; 0xC0])
           {| Bytes := bytes_of [0xAB; 0xC0]; BitLength := 12 |}).
  - vm_compute. discriminate.
  - reflexivity.
Defined.

(** * The remaining helpers *)

Lemma substring_prefix (parent suffix : string) :
  substring 0 (String.length parent) (parent ++ suffix) = parent.
Proof.
  induction parent as [|c parent IH]; cbn.
  - destruct suffix; reflexivity.
  - rewrite IH. reflexivity.
Qed.

Lemma substring_is_prefix (n : nat) (child : string) :
  (n <= String.length child)%nat ->
  exists suffix, child = (substring 0 n child ++ suffix)%string.
Proof.
  revert child. induction n as [|n IH]; intros child Hn.
  - exists child. destruct child; reflexivity.
  - destruct child as [|c child]; [cbn in Hn; lia|].
    destruct (IH child) as (suffix & E); [cbn in Hn; lia|].
    exists suffix. cbn. rewrite <- E. reflexivity.
Qed.

Lemma str_length_app (s t : string) :
  String.length (s ++ t) = (String.length s + String.length t)%nat.
Proof.
  induction s as [|c s IH]; [reflexivity|]. cbn. rewrite IH. reflexivity.
Qed.

(** X28: [subtree_of] is a plain prefix test on the strings: it holds exactly
    when the child is the parent followed by something, possibly nothing.
    The component boundary plays no part: 1.3.6.10 counts as below 1.3.6.1. *)
Theorem subtree_of_is_string_prefix (parent child : string) :
  (subtree_of parent child = true <-> exists suffix, child = (parent ++ suffix)%string)
  /\ subtree_of "1.3.6.1" "1.3.6.10" = true.
Proof.
  split; [|reflexivity]. unfold subtree_of. split.
  - destruct (Nat.ltb_spec (String.length child) (String.length parent)) as [|Hle];
      [discriminate|].
    intros H. apply String.eqb_eq in H.
    destruct (substring_is_prefix (String.length parent) child Hle) as (suffix & E).
    exists suffix. rewrite H in E. exact E.
  - intros (suffix & ->). rewrite str_length_app.
    destruct (Nat.ltb_spec (String.length parent + String.length suffix)
                (String.length parent)); [lia|].
    rewrite substring_prefix. apply String.eqb_refl.
Qed.

(** X29: Up to 255 [marshalLength] is right: a negative length is an error, a
    length below 127 is its own single byte, and a length from 127 to 255 is
    the header byte 0x81 followed by the length. *)
Theorem marshalLength_up_to_255 (length : Z) :
  (length < 0 -> marshalLength length = ([], Some ErrLengthNegative))
  /\ (0 <= length < 127 ->
      marshalLength length = ([byte_of length], None) /\ u8 (byte_of length) = length)
  /\ (127 <= length <= 255 ->
      marshalLength length = ([x81; byte_of length], None) /\ u8 (byte_of length) = length).
Proof.
  split; [apply marshalLength_negative|]. split; intros H.
  - split; [apply marshalLength_short; exact H|apply byte_of_small; lia].
  - split; [apply marshalLength_one_octet; exact H|apply byte_of_small; lia].
Qed.

Lemma marshalLength_up_to_255_witness :
  marshalLength (-1) = ([], Some ErrLengthNegative)
  /\ marshalLength 126 = ([byte_of 126], None)
  /\ marshalLength 127 = ([x81; byte_of 127], None).
Proof.
  split; [|split].
  - apply (proj1 (marshalLength_up_to_255 (-1))). lia.
  - apply (proj1 (proj2 (marshalLength_up_to_255 126))). lia.
  - apply (proj2 (proj2 (marshalLength_up_to_255 127))). lia.
Defined.

Lemma dumpBytes2_loop_content (bs : list byte) :
  forall (result : string) (i : Z), 0 <= i ->
    dumpBytes2_loop result i bs
    = (result ++ spaced_hex (firstn (Z.to_nat (31 - i)) bs))%string.
Proof.
  induction bs as [|b bs IH]; intros result i Hi; cbn [dumpBytes2_loop].
  - rewrite firstn_nil. cbn [spaced_hex]. symmetry. apply str_app_nil_r.
  - destruct (Z.ltb_spec 30 i).
    + replace (Z.to_nat (31 - i)) with 0%nat by lia.
      cbn [firstn spaced_hex]. symmetry. apply str_app_nil_r.
    + replace (Z.to_nat (31 - i)) with (S (Z.to_nat (31 - (i + 1)))) by lia.
      cbn [firstn spaced_hex]. rewrite IH by lia. apply str_app_assoc.
Qed.

Lemma spaced_hex_length (bs : list byte) :
  Z.of_nat (String.length (spaced_hex bs)) = 3 * len bs.
Proof.
  induction bs as [|b bs IH]; [reflexivity|].
  cbn [spaced_hex]. rewrite str_length_app, len_cons. cbn [hex02 String.length]. lia.
Qed.

(** X30: [dumpBytes2] starts four bytes before the cursor, or at the start of
    the buffer: it returns the description followed, for each of the first
    31 bytes from there on, by a space and the two hexadecimal digits of the
    byte, so three characters a byte; it panics exactly when the cursor is
    more than four past the end of the buffer. *)
Theorem dumpBytes2_dumps_at_most_31_bytes (a : int_size) (desc : string)
    (bb : list byte) (cursor : Z) :
  min_int a + 4 <= cursor <= max_int a ->
  (len bb + 4 < cursor -> dumpBytes2 a desc bb cursor = Panic)
  /\ (cursor <= len bb + 4 ->
      dumpBytes2 a desc bb cursor
      = Return (desc ++ spaced_hex
                  (firstn 31 (skipn (Z.to_nat (Z.max 0 (cursor - 4))) bb)))%string
      /\ Z.of_nat (String.length
                     (desc ++ spaced_hex
                        (firstn 31 (skipn (Z.to_nat (Z.max 0 (cursor - 4))) bb))))
         = Z.of_nat (String.length desc)
           + 3 * Z.min 31 (len bb - Z.max 0 (cursor - 4))).
Proof.
  intros Hc. unfold dumpBytes2. rewrite to_int_small by lia.
  pose proof (len_nonneg bb) as Hb.
  set (c := if cursor - 4 <? 0 then 0 else cursor - 4).
  assert (Ec : c = Z.max 0 (cursor - 4)).
  { unfold c. destruct (Z.ltb_spec (cursor - 4) 0); lia. }
  rewrite <- Ec.
  unfold slice. split; intros H.
  - destruct (Z.leb_spec 0 c); [|lia].
    destruct (Z.leb_spec c (len bb)); [lia|]. reflexivity.
  - destruct (Z.leb_spec 0 c); [|lia].
    destruct (Z.leb_spec c (len bb)); [|lia].
    rewrite Z.leb_refl. cbn [andb bind].
    assert (Hall : firstn (Z.to_nat (len bb - c)) (skipn (Z.to_nat c) bb)
                   = skipn (Z.to_nat c) bb).
    { apply firstn_all2. rewrite length_skipn. unfold len. lia. }
    rewrite Hall. split.
    + rewrite dumpBytes2_loop_content by lia. reflexivity.
    + rewrite str_length_app, Nat2Z.inj_add, spaced_hex_length.
      unfold len in *. rewrite length_firstn, length_skipn. lia.
Qed.

Lemma dumpBytes2_dumps_at_most_31_bytes_witness :
  dumpBytes2 Int64 "oid:" (bytes_of [1; 2; 3; 4; 5; 0xab]) 7 = Return "oid: 04 05 ab"%string.
Proof.
  rewrite (proj1 (proj2 (dumpBytes2_dumps_at_most_31_bytes Int64 "oid:"
                           (bytes_of [1; 2; 3; 4; 5; 0xab]) 7
                           ltac:(vm_compute; split; discriminate))
                    ltac:(vm_compute; discriminate))).
  reflexivity.
Defined.
